(** * Verification of the agent installer ([engine/install.go])

    The development embeds the installer of the autoscaler in Rocq:

    - the volume helpers [toVol] and [splitVolumeParts], together with the
      fragment of Go's [regexp] and [strings] packages that they call;
    - the server record and its lifecycle states;
    - the installer's operations [Install], [install] and [errorUpdate],
      written in a small monad of effect trees whose nodes are the calls the
      Go code makes on its collaborators (server store, docker client,
      context, timers), on the shared installer struct and on the go
      statement;
    - an executable sequential interpreter and an executable interleaving
      scheduler for that monad.

    Logging calls have no effect on the control flow and are left out. *)

From Stdlib Require Import ZArith Ascii String.
From stdpp Require Import gmap strings list pretty.

Local Open Scope string_scope.
Local Open Scope list_scope.
Local Open Scope nat_scope.

(** ** Go values shared by the whole development *)

(** A non-nil value of Go's [error] interface.  The only method of the
    interface is [Error() string]; a possibly nil error is an
    [option error], with [None] for nil. *)
Record error : Type := errors_New { Error_text : string }.

#[global] Instance error_eq_dec : EqDecision error.
Proof. solve_decision. Defined.

(** ** The fragment of package [regexp] used by [splitVolumeParts] *)

Module regexp.

(** Items of a bracket expression. *)
Inductive class_item : Type :=
| ClassChar (c : ascii)      (* a literal or an escaped punctuation *)
| ClassWord.                 (* the Perl class \w = [0-9A-Za-z_] *)

(** Syntax trees, named after the operators of [regexp/syntax]. *)
Inductive Regexp : Type :=
| OpEmptyMatch
| OpBeginText
| OpLiteral (c : ascii)
| OpCharClass (negated : bool) (items : list class_item)
| OpCapture (index : nat) (sub : Regexp)
| OpStar (sub : Regexp)
| OpQuest (sub : Regexp)
| OpConcat (r1 r2 : Regexp).

Definition is_word_char (c : ascii) : bool :=
  let n := N_of_ascii c in
  ((48 <=? n) && (n <=? 57) || (65 <=? n) && (n <=? 90)
   || (97 <=? n) && (n <=? 122) || (n =? 95))%N.

Definition is_punct (c : ascii) : bool :=
  let n := N_of_ascii c in
  ((33 <=? n) && (n <=? 47) || (58 <=? n) && (n <=? 64)
   || (91 <=? n) && (n <=? 96) || (123 <=? n) && (n <=? 126))%N.

Definition item_matches (c : ascii) (it : class_item) : bool :=
  match it with
  | ClassChar c' => Ascii.eqb c c'
  | ClassWord => is_word_char c
  end.

Definition class_matches (negated : bool) (items : list class_item)
    (c : ascii) : bool :=
  xorb negated (existsb (item_matches c) items).

(** *** Parsing

    [parse] follows the stack discipline of [syntax.Parse]: [cur] is the
    (reversed) concatenation being read, [stack] the enclosing groups,
    [cls] the bracket expression being read, if any.  Syntax outside the
    fragment (alternation, counted repetition, flags, ranges, non-greedy
    operators, ...) is reported as an error. *)

Definition concat (rs : list Regexp) : Regexp :=
  match rs with
  | [] => OpEmptyMatch
  | r :: rs' => fold_left OpConcat rs' r
  end.

Definition is_repeat (r : Regexp) : bool :=
  match r with OpStar _ | OpQuest _ => true | _ => false end.

Definition frame : Type := option nat * list Regexp.

Fixpoint parse (chars : list ascii) (cls : option (bool * list class_item))
    (cur : list Regexp) (stack : list frame) (ncap : nat)
    : Regexp * nat + error :=
  match cls with
  | Some (neg, items) =>
      match chars with
      | [] => inr (errors_New "missing closing ]")
      | "]"%char :: rest =>
          match items with
          | [] => inr (errors_New "unsupported bracket expression")
          | _ => parse rest None (OpCharClass neg (rev items) :: cur)
                   stack ncap
          end
      | "\"%char :: "w"%char :: rest =>
          parse rest (Some (neg, ClassWord :: items)) cur stack ncap
      | "\"%char :: c :: rest =>
          if is_punct c
          then parse rest (Some (neg, ClassChar c :: items)) cur stack ncap
          else inr (errors_New "unsupported escape sequence")
      | "\"%char :: [] => inr (errors_New "trailing backslash")
      | "-"%char :: _ => inr (errors_New "unsupported character range")
      | "["%char :: _ => inr (errors_New "unsupported bracket expression")
      | c :: rest =>
          parse rest (Some (neg, ClassChar c :: items)) cur stack ncap
      end
  | None =>
      match chars with
      | [] =>
          match stack with
          | [] => inl (concat (rev cur), ncap)
          | _ :: _ => inr (errors_New "missing closing )")
          end
      | "("%char :: "?"%char :: ":"%char :: rest =>
          parse rest None [] ((None, cur) :: stack) ncap
      | "("%char :: "?"%char :: _ =>
          inr (errors_New "unsupported group flags")
      | "("%char :: rest =>
          parse rest None [] ((Some (S ncap), cur) :: stack) (S ncap)
      | ")"%char :: rest =>
          match stack with
          | [] => inr (errors_New "unexpected )")
          | (cap, outer) :: stack' =>
              let body := concat (rev cur) in
              let group :=
                match cap with
                | Some n => OpCapture n body
                | None => body
                end in
              parse rest None (group :: outer) stack' ncap
          end
      | "*"%char :: rest =>
          match cur with
          | [] => inr (errors_New "missing argument to repetition operator")
          | r :: cur' =>
              if is_repeat r
              then inr (errors_New "unsupported repetition operator")
              else parse rest None (OpStar r :: cur') stack ncap
          end
      | "?"%char :: rest =>
          match cur with
          | [] => inr (errors_New "missing argument to repetition operator")
          | r :: cur' =>
              if is_repeat r
              then inr (errors_New "unsupported repetition operator")
              else parse rest None (OpQuest r :: cur') stack ncap
          end
      | "^"%char :: rest => parse rest None (OpBeginText :: cur) stack ncap
      | "["%char :: "^"%char :: rest =>
          parse rest (Some (true, [])) cur stack ncap
      | "["%char :: rest => parse rest (Some (false, [])) cur stack ncap
      | "\"%char :: c :: rest =>
          if is_punct c
          then parse rest None (OpLiteral c :: cur) stack ncap
          else if Ascii.eqb c "w"
          then parse rest None (OpCharClass false [ClassWord] :: cur)
                 stack ncap
          else inr (errors_New "unsupported escape sequence")
      | "\"%char :: [] => inr (errors_New "trailing backslash")
      | c :: rest =>
          if existsb (Ascii.eqb c) (list_ascii_of_string "|+{}.$")
          then inr (errors_New "unsupported operator")
          else parse rest None (OpLiteral c :: cur) stack ncap
      end
  end.

(** A compiled expression: the tree and its number of capture groups. *)
Record compiled : Type := { expr : Regexp; numSubexp : nat }.

Definition Compile (pattern : string) : compiled + error :=
  match parse (list_ascii_of_string pattern) None [] [] 0 with
  | inl (r, n) => inl {| expr := r; numSubexp := n |}
  | inr e => inr e
  end.

(** *** Matching

    Go returns the match that a backtracking search finds first; [run] is
    that search, in continuation-passing style.  Text is matched byte by
    byte: the expressions of this file only name ASCII characters, and a
    negated class that excludes an ASCII character accepts every byte of
    a multi-byte rune, so bytes and runes delimit the same substrings. *)

Definition captures : Type := list (nat * list ascii).

Definition capture_of (caps : captures) (n : nat) : list ascii :=
  match find (fun p => Nat.eqb (fst p) n) caps with
  | Some p => snd p
  | None => []
  end.

Definition cont : Type := nat -> list ascii -> captures -> option captures.

Fixpoint run (r : Regexp) (pos : nat) (s : list ascii) (caps : captures)
    (k : cont) {struct r} : option captures :=
  match r with
  | OpEmptyMatch => k pos s caps
  | OpBeginText => if Nat.eqb pos 0 then k pos s caps else None
  | OpLiteral c =>
      match s with
      | c' :: s' => if Ascii.eqb c c' then k (S pos) s' caps else None
      | [] => None
      end
  | OpCharClass neg items =>
      match s with
      | c' :: s' =>
          if class_matches neg items c' then k (S pos) s' caps else None
      | [] => None
      end
  | OpCapture n sub =>
      run sub pos s caps
        (fun pos' s' caps' => k pos' s' ((n, take (pos' - pos) s) :: caps'))
  | OpConcat r1 r2 =>
      run r1 pos s caps (fun pos' s' caps' => run r2 pos' s' caps' k)
  | OpQuest sub =>
      match run sub pos s caps k with
      | Some res => Some res
      | None => k pos s caps
      end
  | OpStar sub =>
      (fix loop (fuel : nat) (pos : nat) (s : list ascii) (caps : captures)
         : option captures :=
         match fuel with
         | O => k pos s caps
         | S fuel' =>
             match run sub pos s caps
                     (fun pos' s' caps' =>
                        if Nat.eqb pos' pos then None
                        else loop fuel' pos' s' caps') with
             | Some res => Some res
             | None => k pos s caps
             end
         end) (length s) pos s caps
  end.

(** The leftmost match: the search is tried at every start offset. *)
Fixpoint search (r : Regexp) (pos : nat) (s : list ascii)
    : option captures :=
  match run (OpCapture 0 r) pos s [] (fun _ _ caps => Some caps) with
  | Some caps => Some caps
  | None =>
      match s with
      | [] => None
      | _ :: s' => search r (S pos) s'
      end
  end.

Definition MatchString (re : compiled) (s : string) : bool :=
  bool_decide (is_Some (search (expr re) 0 (list_ascii_of_string s))).

(** The whole match followed by the text of each group; [[]] is Go's nil
    slice, returned when there is no match.  A group that took no part in
    the match yields the empty string. *)
Definition FindStringSubmatch (re : compiled) (s : string) : list string :=
  match search (expr re) 0 (list_ascii_of_string s) with
  | Some caps =>
      map (fun n => string_of_list_ascii (capture_of caps n))
        (seq 0 (S (numSubexp re)))
  | None => []
  end.

End regexp.

(** ** The fragment of package [strings] used by [splitVolumeParts] *)

Module strings.

Fixpoint split_at (sep : ascii) (s : list ascii) (cur : list ascii)
    : list (list ascii) :=
  match s with
  | [] => [rev cur]
  | c :: s' =>
      if Ascii.eqb c sep then rev cur :: split_at sep s' []
      else split_at sep s' (c :: cur)
  end.

(** [strings.Split(s, sep)] for a separator of one byte. *)
Definition Split (s : string) (sep : ascii) : list string :=
  map string_of_list_ascii (split_at sep (list_ascii_of_string s) []).

End strings.

(** ** The volume helpers of [engine/install.go] *)

(** A Go function that indexes or slices can panic; the helpers return
    [None] when the Go code would. *)

(** [l[1:]]: panics when [l] has no element. *)
Definition slice_from_1 {A} (l : list A) : option (list A) :=
  match l with
  | [] => None
  | _ :: l' => Some l'
  end.

(** helper function that split volume path *)
Definition splitVolumeParts (volumeParts : string)
    : option (list string * option error) :=
  let pattern := "^((?:[\w]\:)?[^\:]*)\:((?:[\w]\:)?[^\:]*)(?:\:([rwom]*))?" in
  match regexp.Compile pattern with
  | inr err => Some ([], Some err)
  | inl r =>
      if regexp.MatchString r volumeParts then
        results ← slice_from_1 (regexp.FindStringSubmatch r volumeParts);
        let cleanResults := filter (λ item, item ≠ "") results in
        Some (cleanResults, None)
      else
        Some (strings.Split volumeParts ":", None)
  end.

(** helper function that converts a slice of volume paths to a set of
    unique volume names. *)
Fixpoint toVol_loop (paths : list string) (set : gset string)
    : option (gset string) :=
  match paths with
  | [] => Some set
  | path :: paths' =>
      r ← splitVolumeParts path;
      match r with
      | (_, Some _) => toVol_loop paths' set
      | (parts, None) =>
          if bool_decide (length parts < 2) then toVol_loop paths' set
          else
            target ← parts !! 1;
            toVol_loop paths' ({[ target ]} ∪ set)
      end
  end.

Definition toVol (paths : list string) : option (gset string) :=
  toVol_loop paths ∅.

(** ** Package [autoscaler]: the server record *)

Module autoscaler.

(** Modelled from the spec: package [autoscaler], which declares the
    server record and its states, is not among the sources.  The spec
    gives the lifecycle states [created], [staging], [running] and
    [error]; [install.go] names them [StateCreated], [StateStaging],
    [StateRunning] and [StateError]. *)
Inductive ServerState : Type :=
| StateCreated
| StateStaging
| StateRunning
| StateError.

(** Modelled from the spec: a server record has an identifier, a name, a
    network address, a region, a size, a capacity, a lifecycle state and
    a last error message; the field names are those [install.go] reads
    and writes. *)
Record Server : Type := {
  ID : string;
  Name : string;
  Address : string;
  Region : string;
  Size : string;
  Capacity : Z;
  State : ServerState;
  Error : string;
}.

Definition set_State (st : ServerState) (s : Server) : Server :=
  {| ID := ID s; Name := Name s; Address := Address s; Region := Region s;
     Size := Size s; Capacity := Capacity s; State := st;
     Error := Error s |}.

Definition set_Error (msg : string) (s : Server) : Server :=
  {| ID := ID s; Name := Name s; Address := Address s; Region := Region s;
     Size := Size s; Capacity := Capacity s; State := State s;
     Error := msg |}.

End autoscaler.

Import autoscaler.

#[global] Instance ServerState_eq_dec : EqDecision ServerState.
Proof. solve_decision. Defined.

#[global] Instance Server_eq_dec : EqDecision Server.
Proof. solve_decision. Defined.

(** ** Values exchanged with the collaborators *)

Module time.
(** [time.Duration] counts nanoseconds. *)
Definition Duration : Type := Z.
Definition Minute : Duration := (60 * 1000 * 1000 * 1000)%Z.
End time.

Module config.
(** Modelled from the spec: package [config] is not among the sources.
    The runner sub-configuration holds extra volumes, devices and the
    privileged-image allowlist; each field is kept as the text that the
    verb [%s] prints for it. *)
Record Runner : Type := {
  Volumes : string;
  Devices : string;
  Privileged : string;
}.
End config.

Module container.
Record Config : Type := {
  Image : string;
  AttachStdout : bool;
  AttachStderr : bool;
  Env : list string;
  Volumes : gset string;
  Labels : gmap string string;
}.

Record HostConfig : Type := {
  Binds : list string;
  RestartPolicy_Name : string;
}.
End container.

(** The handle of a docker client, as returned by the installer's client
    function. *)
Record APIClient : Type := docker_client { client_id : nat }.

(** The outcome of the poll loop's [select]: either the context is done, and
    its [Err()] is then non-nil by the contract of package [context], or the
    timer fired. *)
Inductive select_result : Type :=
| CtxDone (err : error)
| TimerFired.

(** ** The installer struct

    [servers] and [client] are interfaces to collaborators and are reached
    through the effects below; [wg] is the counter of the wait group. *)
Record installer : Type := {
  wg : Z;
  image : string;
  secret : string;
  volumes : list string;
  host : string;
  proto : string;
  keepaliveTime : time.Duration;
  keepaliveTimeout : time.Duration;
  runner : config.Runner;
}.

Definition set_volumes (v : list string) (i : installer) : installer :=
  {| wg := wg i; image := image i; secret := secret i; volumes := v;
     host := host i; proto := proto i; keepaliveTime := keepaliveTime i;
     keepaliveTimeout := keepaliveTimeout i; runner := runner i |}.

Definition add_wg (delta : Z) (i : installer) : installer :=
  {| wg := (wg i + delta)%Z; image := image i; secret := secret i;
     volumes := volumes i; host := host i; proto := proto i;
     keepaliveTime := keepaliveTime i;
     keepaliveTimeout := keepaliveTimeout i; runner := runner i |}.

(** ** Effect trees

    A program is a tree whose nodes are the effectful calls of the Go code,
    each with the continuation that receives the call's result.  [Load]
    reads the installer struct, which all goroutines share; [Go] is the go
    statement, with the argument of the goroutine and its body.  [Spin]
    stands for a poll loop that is still running when the fuel of the model
    runs out, [Panic] for a run-time panic. *)
Inductive prog (R : Type) : Type :=
| Ret (r : R)
| Spin
| Panic
| ServersListState (state : ServerState) (k : list Server + error → prog R)
| ServersUpdate (server : Server) (k : option error → prog R)
| ClientFunc (instance : Server) (k : APIClient + error → prog R)
| CtxSelect (interval : time.Duration) (k : select_result → prog R)
| ContainerList (c : APIClient) (k : option error → prog R)
| ImagePull (c : APIClient) (ref : string) (k : option error → prog R)
| DrainClose (c : APIClient) (k : prog R)
| ContainerCreate (c : APIClient) (cfg : container.Config)
    (hostcfg : container.HostConfig) (name : string)
    (k : string + error → prog R)
| ContainerStart (c : APIClient) (id : string) (k : option error → prog R)
| Load (k : installer → prog R)
| StoreVolumes (v : list string) (k : prog R)
| WgAdd (delta : Z) (k : prog R)
| Go (arg : Server) (body : prog unit) (k : prog R).

Arguments Ret {R} r.
Arguments Spin {R}.
Arguments Panic {R}.
Arguments ServersListState {R} state k.
Arguments ServersUpdate {R} server k.
Arguments ClientFunc {R} instance k.
Arguments CtxSelect {R} interval k.
Arguments ContainerList {R} c k.
Arguments ImagePull {R} c ref k.
Arguments DrainClose {R} c k.
Arguments ContainerCreate {R} c cfg hostcfg name k.
Arguments ContainerStart {R} c id k.
Arguments Load {R} k.
Arguments StoreVolumes {R} v k.
Arguments WgAdd {R} delta k.
Arguments Go {R} arg body k.

Fixpoint bind {A B} (p : prog A) (f : A → prog B) : prog B :=
  match p with
  | Ret r => f r
  | Spin => Spin
  | Panic => Panic
  | ServersListState st k => ServersListState st (λ r, bind (k r) f)
  | ServersUpdate s k => ServersUpdate s (λ r, bind (k r) f)
  | ClientFunc s k => ClientFunc s (λ r, bind (k r) f)
  | CtxSelect d k => CtxSelect d (λ r, bind (k r) f)
  | ContainerList c k => ContainerList c (λ r, bind (k r) f)
  | ImagePull c ref k => ImagePull c ref (λ r, bind (k r) f)
  | DrainClose c k => DrainClose c (bind k f)
  | ContainerCreate c cfg hc n k =>
      ContainerCreate c cfg hc n (λ r, bind (k r) f)
  | ContainerStart c id k => ContainerStart c id (λ r, bind (k r) f)
  | Load k => Load (λ i, bind (k i) f)
  | StoreVolumes v k => StoreVolumes v (bind k f)
  | WgAdd d k => WgAdd d (bind k f)
  | Go arg body k => Go arg body (bind k f)
  end.

(** ** The installer's operations *)

Definition docker_sock : string :=
  "/var/run/docker.sock:/var/run/docker.sock".

(** [errorUpdate] mutates the record it is given; the record after the call
    is returned along with the Go result. *)
Definition errorUpdate (server : Server) (err : option error)
    : prog (Server * option error) :=
  match err with
  | Some e =>
      let server := set_State StateError server in
      let server := set_Error (Error_text e) server in
      ServersUpdate server (λ _, Ret (server, err))
  | None => Ret (server, err)
  end.

Definition agent_Config (i : installer) (instance : Server)
    (vols : gset string) : container.Config :=
  {| container.Image := image i;
     container.AttachStdout := true;
     container.AttachStderr := true;
     container.Env :=
       [ "DRONE_RPC_SERVER=" +:+ proto i +:+ "://" +:+ host i;
         "DRONE_RPC_SECRET=" +:+ secret i;
         "DRONE_RUNNER_CAPACITY=" +:+ pretty (Capacity instance);
         "DRONE_RUNNER_NAME=" +:+ Name instance;
         "DRONE_RUNNER_VOLUMES=" +:+ config.Volumes (runner i);
         "DRONE_RUNNER_DEVICES=" +:+ config.Devices (runner i);
         "DRONE_RUNNER_PRIVILEGED_IMAGES=" +:+ config.Privileged (runner i) ];
     container.Volumes := vols;
     container.Labels :=
       list_to_map
         [ ("com.centurylinklabs.watchtower.enable", "true");
           ("com.centurylinklabs.watchtower.stop-signal", "SIGHUP");
           ("io.drone.agent.name", Name instance);
           ("io.drone.agent.zone", Region instance);
           ("io.drone.agent.size", Size instance);
           ("io.drone.agent.instance", ID instance);
           ("io.drone.agent.capacity", pretty (Capacity instance)) ] |}.

Definition agent_HostConfig (i : installer) : container.HostConfig :=
  {| container.Binds := volumes i;
     container.RestartPolicy_Name := "always" |}.

(** The steps of [install] that follow the poll loop. *)
Definition provision (client : APIClient) (instance : Server)
    : prog (Server * option error) :=
  Load (λ i,
  ImagePull client (image i) (λ err,
  match err with
  | Some e => errorUpdate instance (Some e)
  | None =>
      DrainClose client (
      Load (λ i,
      StoreVolumes (volumes i ++ [docker_sock]) (
      Load (λ i,
      match toVol (volumes i) with
      | None => Panic
      | Some vols =>
          Load (λ i',
          ContainerCreate client (agent_Config i instance vols)
            (agent_HostConfig i') "agent" (λ r,
          match r with
          | inr e => errorUpdate instance (Some e)
          | inl res_ID =>
              ContainerStart client res_ID (λ err,
              match err with
              | Some e => errorUpdate instance (Some e)
              | None =>
                  let instance := set_State StateRunning instance in
                  ServersUpdate instance (λ err, Ret (instance, err))
              end)
          end))
      end))))
  end)).

(** The loop labelled [poller]; [fuel] bounds the number of iterations the
    model follows. *)
Fixpoint poller (fuel : nat) (client : APIClient) (instance : Server)
    (interval : time.Duration) : prog (Server * option error) :=
  match fuel with
  | O => Spin
  | S fuel' =>
      CtxSelect interval (λ r,
      match r with
      | CtxDone ctx_err => errorUpdate instance (Some ctx_err)
      | TimerFired =>
          let interval := time.Minute in
          ContainerList client (λ err,
          match err with
          | Some _ => poller fuel' client instance interval
          | None => provision client instance
          end)
      end)
  end.

Definition install (fuel : nat) (instance : Server)
    : prog (Server * option error) :=
  ClientFunc instance (λ r,
  match r with
  | inr err => errorUpdate instance (Some err)
  | inl client => poller fuel client instance 0%Z
  end).

(** The body of the goroutine started by [Install]. *)
Definition worker (fuel : nat) (server : Server) : prog unit :=
  bind (install fuel server) (λ _, WgAdd (-1) (Ret tt)).

Fixpoint Install_range (fuel : nat) (servers : list Server)
    : prog (option error) :=
  match servers with
  | [] => Ret None
  | server :: servers' =>
      let server := set_State StateStaging server in
      ServersUpdate server (λ err,
      match err with
      | Some e => Ret (Some e)
      | None =>
          WgAdd 1 (
          Go server (worker fuel server) (
          Install_range fuel servers'))
      end)
  end.

Definition Install (fuel : nat) : prog (option error) :=
  ServersListState StateCreated (λ r,
  match r with
  | inr err => Ret (Some err)
  | inl servers => Install_range fuel servers
  end).

(** ** The collaborators

    Modelled from the spec: the interface [autoscaler.ServerStore] is not
    among the sources; the spec gives the store the operations list-by-state
    and update, each of which may fail.  The store is taken not to write to
    the fields of a record it is handed.

    The client function, the docker clients, the context and the timers are
    outside the installer as well.  A world is any state with an answer,
    and a next state, for each call the installer makes on them. *)
Class World (W : Type) : Type := {
  servers_ListState : W → ServerState → W * (list Server + error);
  servers_Update : W → Server → W * option error;
  client_func : W → Server → W * (APIClient + error);
  ctx_select : W → time.Duration → W * select_result;
  docker_ContainerList : W → APIClient → W * option error;
  docker_ImagePull : W → APIClient → string → W * option error;
  docker_DrainClose : W → APIClient → W;
  docker_ContainerCreate :
    W → APIClient → container.Config → container.HostConfig → string →
    W * (string + error);
  docker_ContainerStart : W → APIClient → string → W * option error;
}.

(** What an observer sees of a run: each call with its result. *)
Inductive event : Type :=
| EvListState (state : ServerState) (r : list Server + error)
| EvUpdate (server : Server) (r : option error)
| EvClient (instance : Server) (r : APIClient + error)
| EvSelect (interval : time.Duration) (r : select_result)
| EvContainerList (c : APIClient) (r : option error)
| EvImagePull (c : APIClient) (ref : string) (r : option error)
| EvDrainClose (c : APIClient)
| EvContainerCreate (c : APIClient) (cfg : container.Config)
    (hostcfg : container.HostConfig) (name : string) (r : string + error)
| EvContainerStart (c : APIClient) (id : string) (r : option error)
| EvStoreVolumes (v : list string)
| EvWgAdd (delta : Z)
| EvGo (arg : Server).

Inductive result (R : Type) : Type :=
| Returned (r : R)
| Spinning
| Panicked.

Arguments Returned {R} r.
Arguments Spinning {R}.
Arguments Panicked {R}.

(** ** Sequential execution

    [exec] runs one program to its end against a world and the installer
    struct.  Goroutines started on the way are recorded, not run. *)
Record outcome (W R : Type) : Type := {
  out_world : W;
  out_installer : installer;
  out_result : result R;
  out_trace : list event;
  out_launched : list (Server * prog unit);
}.

Arguments out_world {W R} o.
Arguments out_installer {W R} o.
Arguments out_result {W R} o.
Arguments out_trace {W R} o.
Arguments out_launched {W R} o.

Definition finish {W R} (w : W) (i : installer) (r : result R)
    : outcome W R :=
  {| out_world := w; out_installer := i; out_result := r;
     out_trace := []; out_launched := [] |}.

Definition emit {W R} (ev : event) (o : outcome W R) : outcome W R :=
  {| out_world := out_world o; out_installer := out_installer o;
     out_result := out_result o; out_trace := ev :: out_trace o;
     out_launched := out_launched o |}.

Definition launch {W R} (arg : Server) (body : prog unit)
    (o : outcome W R) : outcome W R :=
  {| out_world := out_world o; out_installer := out_installer o;
     out_result := out_result o; out_trace := out_trace o;
     out_launched := (arg, body) :: out_launched o |}.

Fixpoint exec `{World W} {R} (p : prog R) (w : W) (i : installer)
    : outcome W R :=
  match p with
  | Ret r => finish w i (Returned r)
  | Spin => finish w i Spinning
  | Panic => finish w i Panicked
  | ServersListState st k =>
      let a := servers_ListState w st in
      emit (EvListState st a.2) (exec (k a.2) a.1 i)
  | ServersUpdate s k =>
      let a := servers_Update w s in
      emit (EvUpdate s a.2) (exec (k a.2) a.1 i)
  | ClientFunc s k =>
      let a := client_func w s in
      emit (EvClient s a.2) (exec (k a.2) a.1 i)
  | CtxSelect d k =>
      let a := ctx_select w d in
      emit (EvSelect d a.2) (exec (k a.2) a.1 i)
  | ContainerList c k =>
      let a := docker_ContainerList w c in
      emit (EvContainerList c a.2) (exec (k a.2) a.1 i)
  | ImagePull c ref k =>
      let a := docker_ImagePull w c ref in
      emit (EvImagePull c ref a.2) (exec (k a.2) a.1 i)
  | DrainClose c k =>
      emit (EvDrainClose c) (exec k (docker_DrainClose w c) i)
  | ContainerCreate c cfg hc name k =>
      let a := docker_ContainerCreate w c cfg hc name in
      emit (EvContainerCreate c cfg hc name a.2) (exec (k a.2) a.1 i)
  | ContainerStart c id k =>
      let a := docker_ContainerStart w c id in
      emit (EvContainerStart c id a.2) (exec (k a.2) a.1 i)
  | Load k => exec (k i) w i
  | StoreVolumes v k => emit (EvStoreVolumes v) (exec k w (set_volumes v i))
  | WgAdd d k => emit (EvWgAdd d) (exec k w (add_wg d i))
  | Go arg body k => launch arg body (emit (EvGo arg) (exec k w i))
  end.

(** ** Interleaved execution

    A configuration holds the main goroutine, which runs [Install], and the
    goroutines started so far.  A schedule names the goroutine that takes
    each step; a step is one node of the goroutine's tree. *)
Inductive tid : Type :=
| Main
| Worker (n : nat).

#[global] Instance tid_eq_dec : EqDecision tid.
Proof. solve_decision. Defined.

Record config (W : Type) : Type := {
  c_main : prog (option error);
  c_pool : list (prog unit);
  c_world : W;
  c_installer : installer;
  c_events : list (tid * event);      (* the latest event first *)
}.

Arguments c_main {W} c.
Arguments c_pool {W} c.
Arguments c_world {W} c.
Arguments c_installer {W} c.
Arguments c_events {W} c.

(** One step of a program: the rest of the program, the new world and
    installer, the event if the step is observable, the goroutine if the
    step starts one.  A program that has ended takes no step. *)
Record stepped (W R : Type) : Type := {
  st_prog : prog R;
  st_world : W;
  st_installer : installer;
  st_event : option event;
  st_go : option (prog unit);
}.

Arguments st_prog {W R} s.
Arguments st_world {W R} s.
Arguments st_installer {W R} s.
Arguments st_event {W R} s.
Arguments st_go {W R} s.

Definition stepped_to {W R} (p : prog R) (w : W) (i : installer)
    (ev : option event) (g : option (prog unit)) : stepped W R :=
  {| st_prog := p; st_world := w; st_installer := i; st_event := ev;
     st_go := g |}.

Definition step `{World W} {R} (p : prog R) (w : W) (i : installer)
    : option (stepped W R) :=
  match p with
  | Ret _ | Spin | Panic => None
  | ServersListState st k =>
      let a := servers_ListState w st in
      Some (stepped_to (k a.2) a.1 i (Some (EvListState st a.2)) None)
  | ServersUpdate s k =>
      let a := servers_Update w s in
      Some (stepped_to (k a.2) a.1 i (Some (EvUpdate s a.2)) None)
  | ClientFunc s k =>
      let a := client_func w s in
      Some (stepped_to (k a.2) a.1 i (Some (EvClient s a.2)) None)
  | CtxSelect d k =>
      let a := ctx_select w d in
      Some (stepped_to (k a.2) a.1 i (Some (EvSelect d a.2)) None)
  | ContainerList c k =>
      let a := docker_ContainerList w c in
      Some (stepped_to (k a.2) a.1 i (Some (EvContainerList c a.2)) None)
  | ImagePull c ref k =>
      let a := docker_ImagePull w c ref in
      Some (stepped_to (k a.2) a.1 i (Some (EvImagePull c ref a.2)) None)
  | DrainClose c k =>
      Some (stepped_to k (docker_DrainClose w c) i
              (Some (EvDrainClose c)) None)
  | ContainerCreate c cfg hc name k =>
      let a := docker_ContainerCreate w c cfg hc name in
      Some (stepped_to (k a.2) a.1 i
              (Some (EvContainerCreate c cfg hc name a.2)) None)
  | ContainerStart c id k =>
      let a := docker_ContainerStart w c id in
      Some (stepped_to (k a.2) a.1 i (Some (EvContainerStart c id a.2)) None)
  | Load k => Some (stepped_to (k i) w i None None)
  | StoreVolumes v k =>
      Some (stepped_to k w (set_volumes v i) (Some (EvStoreVolumes v)) None)
  | WgAdd d k => Some (stepped_to k w (add_wg d i) (Some (EvWgAdd d)) None)
  | Go arg body k => Some (stepped_to k w i (Some (EvGo arg)) (Some body))
  end.

Definition tagged (t : tid) (ev : option event) : list (tid * event) :=
  match ev with
  | Some e => [(t, e)]
  | None => []
  end.

Definition started (g : option (prog unit)) : list (prog unit) :=
  match g with
  | Some body => [body]
  | None => []
  end.

(** The goroutine [t] takes one step; nothing happens when [t] has ended
    or was never started. *)
Definition sched_step `{World W} (t : tid) (c : config W) : config W :=
  match t with
  | Main =>
      match step (c_main c) (c_world c) (c_installer c) with
      | None => c
      | Some s =>
          {| c_main := st_prog s;
             c_pool := c_pool c ++ started (st_go s);
             c_world := st_world s;
             c_installer := st_installer s;
             c_events := tagged Main (st_event s) ++ c_events c |}
      end
  | Worker n =>
      match c_pool c !! n with
      | None => c
      | Some p =>
          match step p (c_world c) (c_installer c) with
          | None => c
          | Some s =>
              {| c_main := c_main c;
                 c_pool := <[n := st_prog s]> (c_pool c) ++ started (st_go s);
                 c_world := st_world s;
                 c_installer := st_installer s;
                 c_events := tagged (Worker n) (st_event s) ++ c_events c |}
          end
      end
  end.

Definition sched_run `{World W} (schedule : list tid) (c : config W)
    : config W :=
  fold_left (λ c t, sched_step t c) schedule c.

Definition start `{World W} (main : prog (option error)) (w : W)
    (i : installer) : config W :=
  {| c_main := main; c_pool := []; c_world := w; c_installer := i;
     c_events := [] |}.

(** The events of a configuration in the order they happened. *)
Definition history {W} (c : config W) : list (tid * event) :=
  reverse (c_events c).

(** ** A simulated world

    An in-memory store and scripted docker hosts, used to run the installer
    on concrete inputs. *)
Module sim.

(** The script of one docker host: how many connection attempts fail
    before the daemon answers, and the errors of the later calls. *)
Record daemon : Type := {
  boot_after : nat;
  pull_err : option error;
  create_err : option error;
  start_err : option error;
}.

Record world : Type := {
  store : list Server;                     (* the records of the store *)
  list_err : option error;                 (* makes ListState fail *)
  update_err : string → option error;      (* by name: makes Update fail *)
  address_err : string → option error;     (* by address: no client *)
  hosts : string → daemon;                   (* by address *)
  clients : list string;     (* address of each client, by client id *)
  attempts : gmap nat nat;   (* ContainerList calls, by client id *)
  selects : nat;             (* number of selects so far *)
  deadline : option nat;     (* the context is done from that select on *)
}.

Definition with_store (st : list Server) (w : world) : world :=
  {| store := st; list_err := list_err w; update_err := update_err w;
     address_err := address_err w; hosts := hosts w; clients := clients w;
     attempts := attempts w; selects := selects w;
     deadline := deadline w |}.

Definition with_clients (cl : list string) (w : world) : world :=
  {| store := store w; list_err := list_err w; update_err := update_err w;
     address_err := address_err w; hosts := hosts w; clients := cl;
     attempts := attempts w; selects := selects w;
     deadline := deadline w |}.

Definition with_attempts (a : gmap nat nat) (w : world) : world :=
  {| store := store w; list_err := list_err w; update_err := update_err w;
     address_err := address_err w; hosts := hosts w; clients := clients w;
     attempts := a; selects := selects w; deadline := deadline w |}.

Definition with_selects (n : nat) (w : world) : world :=
  {| store := store w; list_err := list_err w; update_err := update_err w;
     address_err := address_err w; hosts := hosts w; clients := clients w;
     attempts := attempts w; selects := n; deadline := deadline w |}.

Definition host_of (w : world) (c : APIClient) : daemon :=
  hosts w (default "" (clients w !! client_id c)).

Definition ListState (w : world) (st : ServerState)
    : world * (list Server + error) :=
  match list_err w with
  | Some e => (w, inr e)
  | None => (w, inl (filter (λ s, State s = st) (store w)))
  end.

Definition Update (w : world) (s : Server) : world * option error :=
  match update_err w (Name s) with
  | Some e => (w, Some e)
  | None =>
      (with_store
         (map (λ s', if decide (ID s' = ID s) then s else s') (store w)) w,
       None)
  end.

Definition new_client (w : world) (s : Server)
    : world * (APIClient + error) :=
  match address_err w (Address s) with
  | Some e => (w, inr e)
  | None =>
      (with_clients (clients w ++ [Address s]) w,
       inl (docker_client (length (clients w))))
  end.

Definition select (w : world) (d : time.Duration)
    : world * select_result :=
  (with_selects (S (selects w)) w,
   match deadline w with
   | Some n =>
       if bool_decide (n ≤ selects w)%nat
       then CtxDone (errors_New "context deadline exceeded")
       else TimerFired
   | None => TimerFired
   end).

Definition list_containers (w : world) (c : APIClient)
    : world * option error :=
  let n := default 0 (attempts w !! client_id c) in
  (with_attempts (<[client_id c := S n]> (attempts w)) w,
   if bool_decide (n < boot_after (host_of w c))
   then Some (errors_New "cannot connect to the docker daemon")
   else None).

#[global] Instance sim_world : World world := {|
  servers_ListState := ListState;
  servers_Update := Update;
  client_func := new_client;
  ctx_select := select;
  docker_ContainerList := list_containers;
  docker_ImagePull := λ w c ref, (w, pull_err (host_of w c));
  docker_DrainClose := λ w c, w;
  docker_ContainerCreate := λ w c cfg hc name,
    (w, match create_err (host_of w c) with
        | Some e => inr e
        | None => inl "container-id"
        end);
  docker_ContainerStart := λ w c id, (w, start_err (host_of w c));
|}.

Definition good_host : daemon :=
  {| boot_after := 0; pull_err := None; create_err := None;
     start_err := None |}.

(** A world where every call succeeds at once. *)
Definition calm (servers : list Server) : world :=
  {| store := servers; list_err := None; update_err := λ _, None;
     address_err := λ _, None; hosts := λ _, good_host; clients := [];
     attempts := ∅; selects := 0; deadline := None |}.

Definition with_update_err (f : string → option error) (w : world)
    : world :=
  {| store := store w; list_err := list_err w; update_err := f;
     address_err := address_err w; hosts := hosts w; clients := clients w;
     attempts := attempts w; selects := selects w;
     deadline := deadline w |}.

Definition with_hosts (f : string → daemon) (w : world) : world :=
  {| store := store w; list_err := list_err w; update_err := update_err w;
     address_err := address_err w; hosts := f; clients := clients w;
     attempts := attempts w; selects := selects w;
     deadline := deadline w |}.

Definition with_deadline (d : option nat) (w : world) : world :=
  {| store := store w; list_err := list_err w; update_err := update_err w;
     address_err := address_err w; hosts := hosts w; clients := clients w;
     attempts := attempts w; selects := selects w; deadline := d |}.

Definition server (name : string) : Server :=
  {| ID := "id-" +:+ name; Name := name; Address := "10.0.0." +:+ name;
     Region := "nyc1"; Size := "s-1vcpu-1gb"; Capacity := 2;
     State := StateCreated; Error := "" |}.

Definition agent (vols : list string) : installer :=
  {| wg := 0; image := "drone/drone-runner-docker:1"; secret := "s3cr3t";
     volumes := vols; host := "drone.example.com"; proto := "https";
     keepaliveTime := 0%Z; keepaliveTimeout := 0%Z;
     runner := {| config.Volumes := ""; config.Devices := "";
                  config.Privileged := "" |} |}.

End sim.

(* ================================================================== *)
(** * Notions used in the statements *)

(** ** Notions used to state the properties of the volume helpers *)

(** The compiled form of the constant pattern of [splitVolumeParts]. *)
Definition bind_pattern : regexp.compiled :=
  Eval vm_compute in
    match regexp.Compile
            "^((?:[\w]\:)?[^\:]*)\:((?:[\w]\:)?[^\:]*)(?:\:([rwom]*))?" with
    | inl r => r
    | inr _ => {| regexp.expr := regexp.OpEmptyMatch;
                  regexp.numSubexp := 0 |}
    end.

(** A text without the separator. *)
Definition colon_free (s : list ascii) : Prop := ":"%char ∉ s.

(** ** Notions used to state the properties of one bootstrap *)

(** The record that [errorUpdate] leaves behind for the error [e]. *)
Definition failed (instance : Server) (e : error) : Server :=
  set_Error (Error_text e) (set_State StateError instance).

(** The record that a successful bootstrap leaves behind. *)
Definition booted (instance : Server) : Server :=
  set_State StateRunning instance.

(** The error of a failed bootstrap step, for the events that are one: no
    client, the context done during the poll, pull, create or start
    failing.  A failed connection attempt is retried and is not one. *)
Definition failure (ev : event) : option error :=
  match ev with
  | EvClient _ (inr e) => Some e
  | EvSelect _ (CtxDone e) => Some e
  | EvImagePull _ _ (Some e) => Some e
  | EvContainerCreate _ _ _ _ (inr e) => Some e
  | EvContainerStart _ _ (Some e) => Some e
  | _ => None
  end.

(** The shape of the trace of one bootstrap.  A failed step is followed by
    the store update of the failed record and nothing else, and its error is
    the result.  A container start that succeeds is followed by the store
    update of the running record and nothing else, and the answer of the
    store is the result.  There is no other store update, and a trace that
    ends elsewhere is one of a poll loop still running or of a panic. *)
Fixpoint bootstrap_shape (instance : Server)
    (res : result (Server * option error)) (tr : list event) : Prop :=
  match tr with
  | [] => res = Spinning ∨ res = Panicked
  | ev :: tr' =>
      match failure ev with
      | Some e =>
          (∃ r, tr' = [EvUpdate (failed instance e) r]) ∧
          res = Returned (failed instance e, Some e)
      | None =>
          match ev with
          | EvContainerStart _ _ None =>
              ∃ r, tr' = [EvUpdate (booted instance) r] ∧
                   res = Returned (booted instance, r)
          | EvUpdate _ _ => False
          | _ => bootstrap_shape instance res tr'
          end
      end
  end.

(** How a poll loop ends. *)
Inductive poll_end : Type :=
| Cancelled (ctx_err : error)
| Connected
| StillPolling.

(** The traces of the poll loop entered with the delay [d]: a select that
    finds the context done; or a timer that fires after [d], followed by a
    connection attempt that succeeds, or by one that fails and then by the
    traces of the loop entered with the delay of one minute.  The empty
    trace is the one of a loop that the model follows no further. *)
Inductive poll_trace (c : APIClient)
    : time.Duration → list event → poll_end → Prop :=
| poll_cancelled d e :
    poll_trace c d [EvSelect d (CtxDone e)] (Cancelled e)
| poll_connected d :
    poll_trace c d [EvSelect d TimerFired; EvContainerList c None] Connected
| poll_retry d e tr fin :
    poll_trace c time.Minute tr fin →
    poll_trace c d
      (EvSelect d TimerFired :: EvContainerList c (Some e) :: tr) fin
| poll_still d :
    poll_trace c d [] StillPolling.

Definition is_attempt (ev : event) : bool :=
  match ev with
  | EvContainerList _ _ => true
  | _ => false
  end.

Definition attempts (tr : list event) : nat :=
  length (filter (λ ev, is_attempt ev = true) tr).

Definition is_poll (ev : event) : bool :=
  match ev with
  | EvSelect _ _ | EvContainerList _ _ => true
  | _ => false
  end.

(** A world whose docker daemon refuses the first connections: the state is
    the number of refusals left; every other call succeeds and the context
    is never done. *)
Module refusing.

Definition refused : error :=
  errors_New "cannot connect to the docker daemon".

#[global] Instance refusing_world : World nat := {|
  servers_ListState := λ w st, (w, inl []);
  servers_Update := λ w s, (w, None);
  client_func := λ w s, (w, inl (docker_client 0));
  ctx_select := λ w d, (w, TimerFired);
  docker_ContainerList := λ w c,
    match w with
    | O => (O, None)
    | S w' => (w', Some refused)
    end;
  docker_ImagePull := λ w c ref, (w, None);
  docker_DrainClose := λ w c, w;
  docker_ContainerCreate := λ w c cfg hc name, (w, inl "agent-id");
  docker_ContainerStart := λ w c id, (w, None);
|}.

End refusing.

(** ** What one goroutine can do, whatever the others do *)

Definition olist {A} (o : option A) : list A :=
  match o with
  | Some a => [a]
  | None => []
  end.

(** One step of a program for some answer of the collaborators and some
    value of the shared installer struct. *)
Inductive pstep {R} : prog R → option event → option (prog unit) → prog R
    → Prop :=
| ps_ListState st k a :
    pstep (ServersListState st k) (Some (EvListState st a)) None (k a)
| ps_Update s k a :
    pstep (ServersUpdate s k) (Some (EvUpdate s a)) None (k a)
| ps_Client s k a :
    pstep (ClientFunc s k) (Some (EvClient s a)) None (k a)
| ps_Select d k a :
    pstep (CtxSelect d k) (Some (EvSelect d a)) None (k a)
| ps_ContainerList c k a :
    pstep (ContainerList c k) (Some (EvContainerList c a)) None (k a)
| ps_ImagePull c ref k a :
    pstep (ImagePull c ref k) (Some (EvImagePull c ref a)) None (k a)
| ps_DrainClose c k :
    pstep (DrainClose c k) (Some (EvDrainClose c)) None k
| ps_ContainerCreate c cfg hc name k a :
    pstep (ContainerCreate c cfg hc name k)
      (Some (EvContainerCreate c cfg hc name a)) None (k a)
| ps_ContainerStart c id k a :
    pstep (ContainerStart c id k) (Some (EvContainerStart c id a)) None (k a)
| ps_Load k i :
    pstep (Load k) None None (k i)
| ps_StoreVolumes v k :
    pstep (StoreVolumes v k) (Some (EvStoreVolumes v)) None k
| ps_WgAdd d k :
    pstep (WgAdd d k) (Some (EvWgAdd d)) None k
| ps_Go arg body k :
    pstep (Go arg body k) (Some (EvGo arg)) (Some body) k.

(** [runs p tr gos p']: the program [p] can make the calls of [tr], start
    the goroutines [gos] and be left with [p']. *)
Inductive runs {R} : prog R → list event → list (prog unit) → prog R
    → Prop :=
| runs_refl p :
    runs p [] [] p
| runs_step p ev go p' tr gos p'' :
    pstep p ev go p' →
    runs p' tr gos p'' →
    runs p (olist ev ++ tr) (olist go ++ gos) p''.

(** The events of one goroutine in a history. *)
Definition proj (t : tid) (h : list (tid * event)) : list event :=
  omap (λ te, if decide (te.1 = t) then Some te.2 else None) h.

(** The arguments of the go statements of a trace, and the records of its
    store updates with their answers. *)
Definition go_args (tr : list event) : list Server :=
  omap (λ ev, match ev with EvGo s => Some s | _ => None end) tr.

Definition updates (tr : list event) : list (Server * option error) :=
  omap (λ ev, match ev with EvUpdate s r => Some (s, r) | _ => None end) tr.

(** ** Notions used to state the properties of a schedule *)

(** A goroutine body that starts no goroutine. *)
Definition no_spawn (b : prog unit) : Prop :=
  ∀ tr gos p, runs b tr gos p → gos = [].

(** Whatever the schedule, the events of each goroutine are a run of its
    own program, and a goroutine has events only once it is started. *)
Definition sched_inv {W} (main0 : prog (option error)) (c : config W)
  : Prop :=
  ∃ gos,
    runs main0 (proj Main (history c)) gos (c_main c) ∧
    length gos = length (c_pool c) ∧
    (∀ n b p, gos !! n = Some b → c_pool c !! n = Some p →
              runs b (proj (Worker n) (history c)) [] p) ∧
    (∀ n ev, (Worker n, ev) ∈ c_events c → n < length (c_pool c)).

(** At the time of each event, the events of the main goroutine so far
    are a run of its program, and the goroutine of the event has been
    started by it. *)
Fixpoint causal (main0 : prog (option error)) (evs : list (tid * event))
  : Prop :=
  match evs with
  | [] => True
  | (t, _) :: old =>
      (∃ gos p, runs main0 (proj Main (reverse old)) gos p ∧
                match t with
                | Main => True
                | Worker n => n < length gos
                end) ∧
      causal main0 old
  end.

(** ** Programs that follow an automaton

    An automaton over events describes the traces of a program when every
    node of the program, for every answer it may receive, is a transition
    of the automaton.  [spawns] constrains the goroutines it starts. *)
Section AutomatonDef.

Context {M R : Type}.
Variable delta : M → event → M → Prop.
Variable spawns : Server → prog unit → Prop.
Variable final : M → R → Prop.

Fixpoint follows (m : M) (p : prog R) : Prop :=
  match p with
  | Ret r => final m r
  | Spin | Panic => True
  | ServersListState st k =>
      ∀ a, ∃ m', delta m (EvListState st a) m' ∧ follows m' (k a)
  | ServersUpdate s k =>
      ∀ a, ∃ m', delta m (EvUpdate s a) m' ∧ follows m' (k a)
  | ClientFunc s k =>
      ∀ a, ∃ m', delta m (EvClient s a) m' ∧ follows m' (k a)
  | CtxSelect d k =>
      ∀ a, ∃ m', delta m (EvSelect d a) m' ∧ follows m' (k a)
  | ContainerList c k =>
      ∀ a, ∃ m', delta m (EvContainerList c a) m' ∧ follows m' (k a)
  | ImagePull c ref k =>
      ∀ a, ∃ m', delta m (EvImagePull c ref a) m' ∧ follows m' (k a)
  | DrainClose c k =>
      ∃ m', delta m (EvDrainClose c) m' ∧ follows m' k
  | ContainerCreate c cfg hc name k =>
      ∀ a, ∃ m', delta m (EvContainerCreate c cfg hc name a) m' ∧
                 follows m' (k a)
  | ContainerStart c id k =>
      ∀ a, ∃ m', delta m (EvContainerStart c id a) m' ∧ follows m' (k a)
  | Load k => ∀ i, follows m (k i)
  | StoreVolumes v k =>
      ∃ m', delta m (EvStoreVolumes v) m' ∧ follows m' k
  | WgAdd d k =>
      ∃ m', delta m (EvWgAdd d) m' ∧ follows m' k
  | Go arg body k =>
      spawns arg body ∧ ∃ m', delta m (EvGo arg) m' ∧ follows m' k
  end.

Inductive accepted : M → list event → M → Prop :=
| accepted_nil m :
    accepted m [] m
| accepted_cons m ev m' tr m'' :
    delta m ev m' → accepted m' tr m'' → accepted m (ev :: tr) m''.

End AutomatonDef.

(** ** The automaton of a bootstrap goroutine *)

Inductive worker_state : Type :=
| WBusy                      (* no step has failed so far *)
| WFailing (e : error)       (* a step failed with [e] *)
| WStarted                   (* the container is started *)
| WWritten                   (* the record is written to the store *)
| WEnd.                      (* the wait group is released *)

(** The events of a bootstrap that goes on. *)
Definition progress (ev : event) : bool :=
  match ev with
  | EvClient _ (inl _) | EvSelect _ TimerFired | EvContainerList _ _
  | EvImagePull _ _ None | EvDrainClose _ | EvStoreVolumes _
  | EvContainerCreate _ _ _ _ (inl _) => true
  | _ => false
  end.

Inductive worker_step (s : Server)
    : worker_state → event → worker_state → Prop :=
| ws_progress ev :
    progress ev = true → worker_step s WBusy ev WBusy
| ws_failure ev e :
    failure ev = Some e → worker_step s WBusy ev (WFailing e)
| ws_started c id :
    worker_step s WBusy (EvContainerStart c id None) WStarted
| ws_failed e r :
    worker_step s (WFailing e) (EvUpdate (failed s e) r) WWritten
| ws_booted r :
    worker_step s WStarted (EvUpdate (booted s) r) WWritten
| ws_done :
    worker_step s WWritten (EvWgAdd (-1)) WEnd.

Definition never_spawns (arg : Server) (body : prog unit) : Prop := False.

Definition any_result {R} (m : worker_state) (r : R) : Prop := True.

(** ** The automaton of [Install] *)

Inductive main_state : Type :=
| MInit
| MLoop (rest : list Server)                (* at the head of the loop *)
| MStaged (s : Server) (rest : list Server) (* [s] updated in the store *)
| MAdded (s : Server) (rest : list Server)  (* wait group incremented *)
| MFailed (e : error).                      (* a store call failed *)

Inductive main_step : main_state → event → main_state → Prop :=
| ms_listed servers :
    main_step MInit (EvListState StateCreated (inl servers)) (MLoop servers)
| ms_list_failed e :
    main_step MInit (EvListState StateCreated (inr e)) (MFailed e)
| ms_staged s rest :
    main_step (MLoop (s :: rest))
      (EvUpdate (set_State StateStaging s) None)
      (MStaged (set_State StateStaging s) rest)
| ms_stage_failed s rest e :
    main_step (MLoop (s :: rest))
      (EvUpdate (set_State StateStaging s) (Some e)) (MFailed e)
| ms_added s rest :
    main_step (MStaged s rest) (EvWgAdd 1) (MAdded s rest)
| ms_go s rest :
    main_step (MAdded s rest) (EvGo s) (MLoop rest).

Definition spawns_worker (fuel : nat) (arg : Server) (body : prog unit)
    : Prop :=
  body = worker fuel arg.

Definition main_final (m : main_state) (r : option error) : Prop :=
  match m with
  | MLoop [] => r = None
  | MFailed e => r = Some e
  | _ => False
  end.

(** ** The traces of the two automata *)

Definition listed (tr : list event) : option (list Server) :=
  match tr with
  | EvListState _ (inl servers) :: _ => Some servers
  | _ => None
  end.

Definition staged (servers : list Server) : list Server :=
  map (set_State StateStaging) servers.

Definition staged_ok (servers : list Server)
    : list (Server * option error) :=
  map (λ s, (set_State StateStaging s, None)) servers.

(** What the trace of a bootstrap goroutine has written to the store, by
    the state of its automaton. *)
Definition worker_inv (s : Server) (m : worker_state) (tr : list event)
    : Prop :=
  match m with
  | WBusy | WStarted => updates tr = []
  | WFailing e => updates tr = [] ∧ ∃ ev, ev ∈ tr ∧ failure ev = Some e
  | WWritten | WEnd =>
      ∃ r, updates tr = [(booted s, r)] ∨
           ∃ e ev, ev ∈ tr ∧ failure ev = Some e ∧
                   updates tr = [(failed s e, r)]
  end.

(** What the trace of [Install] has written and started, by the state of
    its automaton: the servers of the listing are taken in order, each is
    written once in the staging state, and the goroutine of a server is
    started after the store accepted its record. *)
Definition main_inv (m : main_state) (tr : list event) : Prop :=
  match m with
  | MInit => tr = []
  | MLoop rest =>
      ∃ past, listed tr = Some (past ++ rest) ∧
              updates tr = staged_ok past ∧
              go_args tr = staged past
  | MStaged s rest | MAdded s rest =>
      ∃ past s0, s = set_State StateStaging s0 ∧
                 listed tr = Some (past ++ s0 :: rest) ∧
                 updates tr = staged_ok (past ++ [s0]) ∧
                 go_args tr = staged past
  | MFailed e =>
      tr = [EvListState StateCreated (inr e)] ∨
      ∃ past s0 rest, listed tr = Some (past ++ s0 :: rest) ∧
                      updates tr
                      = staged_ok past ++ [(set_State StateStaging s0, Some e)] ∧
                      go_args tr = staged past
  end.

(** ** The lifecycle of a server record *)

(** The transitions of the lifecycle. *)
Inductive lifecycle_step : ServerState → ServerState → Prop :=
| created_to_staging : lifecycle_step StateCreated StateStaging
| staging_to_running : lifecycle_step StateStaging StateRunning
| staging_to_error : lifecycle_step StateStaging StateError.

(** The error message is set exactly in the error state. *)
Definition error_invariant (s : Server) : Prop :=
  Error s ≠ "" ↔ State s = StateError.

(** [lifecycle prev writes]: each value written to a record is a step of
    the lifecycle away from the value before, and satisfies the invariant
    of the error message. *)
Fixpoint lifecycle (prev : Server) (writes : list Server) : Prop :=
  match writes with
  | [] => True
  | next :: writes' =>
      lifecycle_step (State prev) (State next) ∧
      error_invariant next ∧
      lifecycle next writes'
  end.

(** The values written to the record of index [n] of the listing, in the
    order of the writes: the one [Install] passes to the store for it, then
    those its bootstrap goroutine passes to the store.  Every assignment to
    a record is followed by the store update of that record, and the
    goroutine is started after the update of [Install]. *)
Definition record_writes (n : nat) (h : list (tid * event)) : list Server :=
  olist (fst <$> updates (proj Main h) !! n)
  ++ (fst <$> updates (proj (Worker n) h)).

(** The program that has ended with the result [r]. *)
Definition terminal {R} (r : result R) : prog R :=
  match r with
  | Returned x => Ret x
  | Spinning => Spin
  | Panicked => Panic
  end.

(** ** The installer struct across a bootstrap *)

(** The fields of the installer struct other than the bind list and the
    wait group. *)
Definition same_settings (i i' : installer) : Prop :=
  image i' = image i ∧ secret i' = secret i ∧ host i' = host i ∧
  proto i' = proto i ∧ keepaliveTime i' = keepaliveTime i ∧
  keepaliveTimeout i' = keepaliveTimeout i ∧ runner i' = runner i.

(** What a bootstrap does to the bind list: each write of the field stores
    the list with the docker socket appended, and the container is created
    with that longer list as its binds. *)
Definition appends_docker_sock (i i' : installer) (ev : event) : Prop :=
  match ev with
  | EvStoreVolumes v =>
      v = volumes i ++ [docker_sock] ∧ volumes i' = volumes i ++ [docker_sock]
  | EvContainerCreate _ _ hc _ _ =>
      container.Binds hc = volumes i ++ [docker_sock]
  | _ => True
  end.

Module demo.

Definition a : Server := sim.server "a".
Definition b : Server := sim.server "b".

Definition store_locked : error := errors_New "database is locked".
Definition pull_denied : error := errors_New "pull access denied".

(** The store refuses the update of server "b". *)
Definition b_locked : sim.world :=
  sim.with_update_err
    (λ name, if decide (name = "b") then Some store_locked else None)
    (sim.calm [a; b]).

(** The daemon answers the second connection attempt and refuses the
    pull. *)
Definition no_pull : sim.world :=
  sim.with_hosts
    (λ _, {| sim.boot_after := 1; sim.pull_err := Some pull_denied;
             sim.create_err := None; sim.start_err := None |})
    (sim.calm [a]).

Definition data_agent : installer := sim.agent ["/data:/data"].

End demo.

(** ** Notions used to state further properties of the volume helpers *)

(** The parts of the constant pattern: an optional drive prefix and the
    characters up to the next separator; the optional mode. *)
Definition drive_re : regexp.Regexp :=
  regexp.OpConcat (regexp.OpCharClass false [regexp.ClassWord])
    (regexp.OpLiteral ":").

Definition no_colon_re : regexp.Regexp :=
  regexp.OpCharClass true [regexp.ClassChar ":"].

Definition path_re : regexp.Regexp :=
  regexp.OpConcat (regexp.OpQuest drive_re) (regexp.OpStar no_colon_re).

Definition mode_class : list regexp.class_item :=
  [regexp.ClassChar "r"; regexp.ClassChar "w"; regexp.ClassChar "o";
   regexp.ClassChar "m"].

Definition mode_re : regexp.Regexp :=
  regexp.OpQuest
    (regexp.OpConcat (regexp.OpLiteral ":")
       (regexp.OpCapture 3
          (regexp.OpStar (regexp.OpCharClass false mode_class)))).

(** A text that the pattern reads as a drive prefix when a colon follows:
    one word character. *)
Definition drive_letter (s : list ascii) : Prop :=
  ∃ c, s = [c] ∧ regexp.is_word_char c = true.

(** The characters of a mode. *)
Definition mode_chars (s : list ascii) : Prop :=
  Forall (λ c, regexp.class_matches false mode_class c = true) s.

(** A continuation that answers wherever it is called. *)
Definition answers (k : regexp.cont) : Prop :=
  ∀ pos s caps, is_Some (k pos s caps).

(** The texts the pattern is made for: a colon-free path that is not a
    single word character, or such a path behind a drive prefix. *)
Definition plain_path (p : list ascii) : Prop :=
  colon_free p ∧ ¬ drive_letter p.

Definition drive_path (p : list ascii) : Prop :=
  ∃ d q, p = d :: ":"%char :: q ∧ regexp.is_word_char d = true ∧
         colon_free q.

Definition path_text (p : list ascii) : Prop :=
  plain_path p ∨ drive_path p.

(** An entry contributes the target [t] when it splits into components of
    which [t] is the second. *)
Definition contributes (path target : string) : Prop :=
  ∃ parts, splitVolumeParts path = Some (parts, None) ∧
           parts !! 1 = Some target.

Definition has_colon (path : string) : Prop :=
  ":"%char ∈ list_ascii_of_string path.

(** ** Notions used to state further properties of the installer *)

(** The calls [Install] itself makes: on the store, on the wait group, and
    the go statement. *)
Definition is_install_call (ev : event) : bool :=
  match ev with
  | EvListState _ _ | EvUpdate _ _ | EvWgAdd _ | EvGo _ => true
  | _ => false
  end.

(** The calls of one round of the loop of [Install] for a server whose
    update the store accepts. *)
Definition staged_round (s : Server) : list event :=
  [EvUpdate (set_State StateStaging s) None;
   EvWgAdd 1;
   EvGo (set_State StateStaging s)].

(** The target of the bind of the docker socket. *)
Definition docker_sock_target : string := "/var/run/docker.sock".

(** The installer as [install] leaves it once the bind list is stored. *)
Definition with_docker_sock (i : installer) : installer :=
  set_volumes (volumes i ++ [docker_sock]) i.

(** The docker calls of a bootstrap between the connection and the start
    of the container, with the result [r] of the creation. *)
Definition provision_calls (c : APIClient) (i : installer)
    (instance : Server) (vols : gset string) (r : string + error)
    : list event :=
  [EvImagePull c (image i) None;
   EvDrainClose c;
   EvStoreVolumes (volumes i ++ [docker_sock]);
   EvContainerCreate c (agent_Config (with_docker_sock i) instance vols)
     (agent_HostConfig (with_docker_sock i)) "agent" r].

Definition is_create (ev : event) : bool :=
  match ev with
  | EvContainerCreate _ _ _ _ _ => true
  | _ => false
  end.

(** What [install] asks of docker when it creates the container of the
    server [instance] on the client [c]. *)
Definition agent_request (i : installer) (instance : Server)
    (c : APIClient) (ev : event) : Prop :=
  match ev with
  | EvContainerCreate c' cfg hc name _ =>
      c' = c ∧ name = "agent" ∧
      container.Image cfg = image i ∧
      container.RestartPolicy_Name hc = "always" ∧
      toVol (container.Binds hc) = Some (container.Volumes cfg) ∧
      docker_sock_target ∈ container.Volumes cfg ∧
      container.Labels cfg !! "io.drone.agent.name" = Some (Name instance) ∧
      container.Labels cfg !! "io.drone.agent.instance" = Some (ID instance)
  | _ => True
  end.

(** The traces of the steps of [install] that follow the poll loop: the
    pull fails; or the calls up to the creation are made and the creation
    fails, or the start fails, or the start succeeds.  Each ends with the
    store update of the record. *)
Definition provision_trace (c : APIClient) (i : installer)
    (instance : Server) (vols : gset string) (tr : list event) : Prop :=
  (∃ e r, tr = [EvImagePull c (image i) (Some e);
                EvUpdate (failed instance e) r]) ∨
  (∃ e r, tr = provision_calls c i instance vols (inr e)
               ++ [EvUpdate (failed instance e) r]) ∨
  (∃ id e r, tr = provision_calls c i instance vols (inl id)
                  ++ [EvContainerStart c id (Some e);
                      EvUpdate (failed instance e) r]) ∨
  (∃ id r, tr = provision_calls c i instance vols (inl id)
                ++ [EvContainerStart c id None;
                    EvUpdate (booted instance) r]).

Definition is_start (ev : event) : bool :=
  match ev with
  | EvContainerStart _ _ _ => true
  | _ => false
  end.

(** The number of containers a trace creates or tries to create. *)
Definition creations (tr : list event) : nat :=
  length (filter (λ ev, is_create ev = true) tr).

(** The outcome of one program followed by another: the second runs from
    the world and the installer the first leaves, when the first returns;
    a first program that does not return is the whole run. *)
Definition and_then {W A B} (o1 : outcome W A)
    (next : A → W → installer → outcome W B) : outcome W B :=
  match out_result o1 with
  | Returned a =>
      let o2 := next a (out_world o1) (out_installer o1) in
      {| out_world := out_world o2; out_installer := out_installer o2;
         out_result := out_result o2;
         out_trace := out_trace o1 ++ out_trace o2;
         out_launched := out_launched o1 ++ out_launched o2 |}
  | Spinning =>
      {| out_world := out_world o1; out_installer := out_installer o1;
         out_result := Spinning; out_trace := out_trace o1;
         out_launched := out_launched o1 |}
  | Panicked =>
      {| out_world := out_world o1; out_installer := out_installer o1;
         out_result := Panicked; out_trace := out_trace o1;
         out_launched := out_launched o1 |}
  end.

(** ** The wait group in a history *)

(** What an event adds to the counter of the wait group. *)
Definition wg_delta (ev : event) : Z :=
  match ev with
  | EvWgAdd d => d
  | _ => 0%Z
  end.

Definition wg_sum (tr : list event) : Z :=
  foldr (λ ev acc, (wg_delta ev + acc)%Z) 0%Z tr.

(** The sum of [f 0], ..., [f (n - 1)]. *)
Fixpoint sumZ (f : nat → Z) (n : nat) : Z :=
  match n with
  | O => 0%Z
  | S n' => (sumZ f n' + f n')%Z
  end.

(** What a goroutine has added to the wait group, by the state of its
    automaton. *)
Definition main_wg (m : main_state) (tr : list event) : Prop :=
  wg_sum tr
  = (Z.of_nat (length (go_args tr))
     + match m with MAdded _ _ => 1 | _ => 0 end)%Z.

Definition worker_wg (m : worker_state) (tr : list event) : Prop :=
  match m with
  | WEnd => wg_sum tr = (-1)%Z ∧ EvWgAdd (-1) ∈ tr
  | _ => wg_sum tr = 0%Z
  end.

(** ** The bind list under every schedule *)

(** The installer struct as the goroutines may find it: its settings are
    those of [i0], and its bind list is the one of [i0] followed by copies
    of the bind of the docker socket, at least one of them when [stored]
    is set. *)
Definition socks_after (i0 : installer) (stored : bool) (j : installer)
    : Prop :=
  same_settings i0 j ∧
  ∃ n, (stored = true → 1 ≤ n) ∧
       volumes j = volumes i0 ++ replicate n docker_sock.

(** What the calls of a bootstrap owe to the installer [i0] that
    [Install] was called on. *)
Definition binds_ok (i0 : installer) (ev : event) : Prop :=
  match ev with
  | EvStoreVolumes v =>
      ∃ n, v = volumes i0 ++ replicate (S n) docker_sock
  | EvImagePull _ ref _ => ref = image i0
  | EvContainerCreate _ cfg hc name _ =>
      name = "agent" ∧
      container.Image cfg = image i0 ∧
      (∃ n, container.Binds hc = volumes i0 ++ replicate (S n) docker_sock) ∧
      toVol (container.Binds hc) = Some (container.Volumes cfg) ∧
      docker_sock_target ∈ container.Volumes cfg
  | _ => True
  end.

(** A program whose calls are [binds_ok], and that does not panic,
    whenever each read of the installer struct finds it as [socks_after]
    allows; [stored] says that the bind list has been stored before. *)
Fixpoint guarded (i0 : installer) (stored : bool) {R : Type}
    (p : prog R) {struct p} : Prop :=
  match p with
  | Ret _ | Spin => True
  | Panic => False
  | ServersListState _ k => ∀ a, guarded i0 stored (k a)
  | ServersUpdate _ k => ∀ a, guarded i0 stored (k a)
  | ClientFunc _ k => ∀ a, guarded i0 stored (k a)
  | CtxSelect _ k => ∀ a, guarded i0 stored (k a)
  | ContainerList _ k => ∀ a, guarded i0 stored (k a)
  | ImagePull c ref k =>
      ∀ a, binds_ok i0 (EvImagePull c ref a) ∧ guarded i0 stored (k a)
  | DrainClose _ k => guarded i0 stored k
  | ContainerCreate c cfg hc name k =>
      ∀ a, binds_ok i0 (EvContainerCreate c cfg hc name a) ∧
           guarded i0 stored (k a)
  | ContainerStart _ _ k => ∀ a, guarded i0 stored (k a)
  | Load k => ∀ j, socks_after i0 stored j → guarded i0 stored (k j)
  | StoreVolumes v k => binds_ok i0 (EvStoreVolumes v) ∧ guarded i0 true k
  | WgAdd _ k => guarded i0 stored k
  | Go _ body k => guarded i0 false body ∧ guarded i0 stored k
  end.

(** The invariant of a configuration. *)
Definition binds_inv {W} (i0 : installer) (c : config W) : Prop :=
  ∃ stored,
    socks_after i0 stored (c_installer c) ∧
    guarded i0 stored (c_main c) ∧
    Forall (guarded i0 stored) (c_pool c) ∧
    Forall (binds_ok i0) ((c_events c).*2).

(** A bootstrap goroutine returns in the last state of its automaton
    only. *)
Definition released_result {R} (m : worker_state) (r : R) : Prop :=
  m = WEnd.

(* ================================================================== *)
(** * Properties of the volume helpers *)

Section VolumeHelpers.

(** The constant pattern compiles. *)
Lemma Compile_bind_pattern :
  regexp.Compile
    "^((?:[\w]\:)?[^\:]*)\:((?:[\w]\:)?[^\:]*)(?:\:([rwom]*))?"
  = inl bind_pattern.
Proof. vm_compute. reflexivity. Qed.

Lemma splitVolumeParts_unfold (s : string) :
  splitVolumeParts s =
    if regexp.MatchString bind_pattern s then
      results ← slice_from_1 (regexp.FindStringSubmatch bind_pattern s);
      Some (filter (λ item, item ≠ "") results, None)
    else Some (strings.Split s ":", None).
Proof. unfold splitVolumeParts. rewrite Compile_bind_pattern. reflexivity. Qed.

(** A match always has its whole-match element, so the slice [[1:]] of
    the submatches cannot panic. *)
Lemma FindStringSubmatch_matched (re : regexp.compiled) (s : string) :
  regexp.MatchString re s = true →
  ∃ whole groups, regexp.FindStringSubmatch re s = whole :: groups.
Proof.
  unfold regexp.MatchString, regexp.FindStringSubmatch.
  intros Hm. apply bool_decide_eq_true in Hm. destruct Hm as [caps ->].
  simpl. eauto.
Qed.

Lemma splitVolumeParts_total (s : string) :
  ∃ parts, splitVolumeParts s = Some (parts, None).
Proof.
  rewrite splitVolumeParts_unfold.
  destruct (regexp.MatchString bind_pattern s) eqn:Hm; [|eauto].
  destruct (FindStringSubmatch_matched _ _ Hm) as (whole & groups & ->).
  simpl. eauto.
Qed.

Lemma toVol_loop_total (paths : list string) (set : gset string) :
  is_Some (toVol_loop paths set).
Proof.
  revert set. induction paths as [|path paths IH]; intros set; simpl.
  - eauto.
  - destruct (splitVolumeParts_total path) as [parts ->]. simpl.
    case_bool_decide as Hlen; [apply IH|].
    destruct parts as [|p0 [|p1 parts]]; simpl in *; try lia.
    apply IH.
Qed.

Lemma toVol_loop_skip (path : string) (paths : list string)
    (parts : list string) (set : gset string) :
  splitVolumeParts path = Some (parts, None) →
  length parts < 2 →
  toVol_loop (path :: paths) set = toVol_loop paths set.
Proof.
  intros Hsplit Hlen. simpl. rewrite Hsplit. simpl.
  rewrite bool_decide_eq_true_2 by done. reflexivity.
Qed.


(** *** Entries without a colon *)

Lemma colon_free_tail (c : ascii) (s : list ascii) :
  colon_free (c :: s) → colon_free s.
Proof. unfold colon_free. set_solver. Qed.

(** A search whose continuation fails on every colon-free rest fails on a
    colon-free text: [run] only answers through its continuation, and only
    hands it suffixes of the text. *)
Lemma run_fails (r : regexp.Regexp) :
  ∀ pos s caps (k : regexp.cont),
    colon_free s →
    (∀ pos' s' caps', colon_free s' → k pos' s' caps' = None) →
    regexp.run r pos s caps k = None.
Proof.
  induction r as [| |c|neg items|n sub IH|sub IH|sub IH|r1 IH1 r2 IH2];
    intros pos s caps k Hs Hk; simpl.
  - by apply Hk.
  - destruct (Nat.eqb pos 0); [by apply Hk|done].
  - destruct s as [|c' s']; [done|].
    destruct (Ascii.eqb c c'); [|done].
    apply Hk. by eapply colon_free_tail.
  - destruct s as [|c' s']; [done|].
    destruct (regexp.class_matches neg items c'); [|done].
    apply Hk. by eapply colon_free_tail.
  - apply IH; [done|]. intros. by apply Hk.
  - generalize (length s) at 1. intros fuel. revert pos s caps Hs.
    induction fuel as [|fuel IHf]; intros pos s caps Hs; [by apply Hk|].
    rewrite IH; [by apply Hk|done|].
    intros pos' s' caps' Hs'. destruct (Nat.eqb pos' pos); [done|].
    by apply IHf.
  - rewrite IH by done. by apply Hk.
  - apply IH1; [done|]. intros. by apply IH2.
Qed.

Lemma run_bind_pattern_colon_free (s : list ascii) (pos : nat) :
  colon_free s →
  regexp.run (regexp.OpCapture 0 (regexp.expr bind_pattern)) pos s []
    (λ _ _ caps, Some caps) = None.
Proof.
  intros Hs.
  assert (∃ r1 r2 r3, regexp.expr bind_pattern =
            regexp.OpConcat
              (regexp.OpConcat
                 (regexp.OpConcat r1 (regexp.OpLiteral ":")) r2) r3)
    as (r1 & r2 & r3 & ->) by (do 3 eexists; reflexivity).
  cbn [regexp.run]. apply run_fails; [done|].
  intros pos' s' caps' Hs'. cbn [regexp.run].
  destruct s' as [|c' s'']; [done|].
  destruct (Ascii.eqb_spec ":" c') as [<-|_]; [|done].
  exfalso. apply Hs'. left.
Qed.

Lemma search_colon_free (s : list ascii) (pos : nat) :
  colon_free s → regexp.search (regexp.expr bind_pattern) pos s = None.
Proof.
  revert pos. induction s as [|c s IH]; intros pos Hs;
    cbn [regexp.search]; rewrite run_bind_pattern_colon_free by done.
  - reflexivity.
  - apply IH. by eapply colon_free_tail.
Qed.

Lemma split_at_colon_free (s cur : list ascii) :
  colon_free s → strings.split_at ":" s cur = [rev cur ++ s].
Proof.
  revert cur. induction s as [|c s IH]; intros cur Hs; simpl.
  - by rewrite app_nil_r.
  - destruct (Ascii.eqb_spec c ":") as [->|_].
    + exfalso. apply Hs. left.
    + rewrite IH by (by eapply colon_free_tail).
      simpl. by rewrite <- app_assoc.
Qed.

Lemma splitVolumeParts_colon_free (s : string) :
  colon_free (list_ascii_of_string s) →
  splitVolumeParts s = Some ([s], None).
Proof.
  intros Hs. rewrite splitVolumeParts_unfold.
  unfold regexp.MatchString. rewrite search_colon_free by done.
  rewrite bool_decide_eq_false_2 by (intros [? ?]; done).
  unfold strings.Split. rewrite split_at_colon_free by done.
  simpl. by rewrite string_of_list_ascii_of_string.
Qed.

Lemma toVol_loop_keep (path : string) (paths parts : list string)
    (set : gset string) :
  splitVolumeParts path = Some (parts, None) →
  2 ≤ length parts →
  ∃ target, parts !! 1 = Some target ∧
    toVol_loop (path :: paths) set = toVol_loop paths ({[ target ]} ∪ set).
Proof.
  intros Hsplit Hlen. simpl. rewrite Hsplit. simpl.
  rewrite bool_decide_eq_false_2 by lia.
  destruct parts as [|p0 [|p1 parts]]; simpl in *; try lia.
  eauto.
Qed.

(** *** The example of the specification *)

(** C7, as the code has it: on the list ["a:b"; "a:b:ro"; "C:\x:C:\y"]
    the bind set is {"b", "ro", "C:\y"}.  The prefixes "C:" are not taken
    for the separator; by the same rule the one-letter source of "a:b:ro"
    and its colon are read as a drive prefix, which leaves "a:b" as the
    source and "ro" as the target.  When no source or target is a single
    word character, as in ["/a:/b"; "/a:/b:ro"; "C:\x:C:\y"], the two
    entries with target "/b" collapse to one member. *)
Theorem toVol_spec_example :
  splitVolumeParts "a:b:ro" = Some (["a:b"; "ro"], None) ∧
  toVol ["a:b"; "a:b:ro"; "C:\x:C:\y"] = Some {[ "b"; "ro"; "C:\y" ]} ∧
  toVol ["/a:/b"; "/a:/b:ro"; "C:\x:C:\y"] = Some {[ "/b"; "C:\y" ]}.
Proof. repeat split; vm_compute; reflexivity. Qed.

(** C7, as the specification states it, does not hold: the bind set of
    ["a:b"; "a:b:ro"; "C:\x:C:\y"] is not {"b", "C:\y"}. *)
Lemma toVol_spec_example_fails :
  toVol ["a:b"; "a:b:ro"; "C:\x:C:\y"] ≠ Some {[ "b"; "C:\y" ]}.
Proof.
  assert (toVol ["a:b"; "a:b:ro"; "C:\x:C:\y"]
          = Some {[ "b"; "ro"; "C:\y" ]}) as -> by (vm_compute; reflexivity).
  intros Heq.
  assert (Hin : "ro" ∈ ({[ "b"; "ro"; "C:\y" ]} : gset string))
    by set_solver.
  replace ({[ "b"; "ro"; "C:\y" ]} : gset string)
    with ({[ "b"; "C:\y" ]} : gset string) in Hin by congruence.
  set_solver.
Qed.



End VolumeHelpers.

(* ================================================================== *)
(** * Properties of one bootstrap, run on its own *)

Section OneBootstrap.

Context `{World W}.

(** C10: [errorUpdate] returns the error it was given.  With a nil error
    it makes no call at all and leaves record, store and installer as
    they were.  With a non-nil error it returns that error whatever the
    store answers to the update of the failed record. *)
Theorem errorUpdate_returns_err (w : W) (i : installer) (server : Server) :
  exec (errorUpdate server None) w i
  = finish w i (Returned (server, None)) ∧
  ∀ e : error,
    let upd := servers_Update w (failed server e) in
    exec (errorUpdate server (Some e)) w i
    = emit (EvUpdate (failed server e) upd.2)
        (finish upd.1 i (Returned (failed server e, Some e))).
Proof. split; [reflexivity|]. intros e. reflexivity. Qed.


Lemma bootstrap_shape_started instance res tr pre c id post :
  bootstrap_shape instance res tr →
  tr = pre ++ EvContainerStart c id None :: post →
  (∃ r, post = [EvUpdate (booted instance) r] ∧
        res = Returned (booted instance, r)) ∧
  Forall (λ ev, failure ev = None) tr.
Proof.
  revert tr. induction pre as [|x pre IH]; intros tr Hsh ->;
    simpl in Hsh.
  - destruct Hsh as (r & -> & ->). split; [eauto|].
    repeat constructor.
  - destruct (failure x) as [e'|] eqn:Hx.
    + destruct Hsh as [[r Hr] _].
      destruct pre as [|y [|z pre]]; simplify_eq/=.
    + assert (bootstrap_shape instance res
                (pre ++ EvContainerStart c id None :: post)) as Hsh'.
      { destruct x; try done. destruct r; [done|].
        destruct Hsh as (r & Hr & _).
        destruct pre as [|y [|z pre]]; simplify_eq/=. }
      destruct (IH _ Hsh' eq_refl) as [? ?]. split; [done|].
      by constructor.
Qed.

Lemma provision_not_spinning client instance w i :
  out_result (exec (provision client instance) w i) ≠ Spinning.
Proof.
  unfold provision. cbn [exec emit out_result].
  destruct (docker_ImagePull w client (image i)) as [w1 [e|]];
    cbn [fst snd]; [done|].
  cbn [exec emit out_result].
  destruct (toVol _); [|done].
  cbn [exec emit out_result].
  destruct (docker_ContainerCreate _ _ _ _ _) as [w2 [id|e]];
    cbn [fst snd]; [|done].
  cbn [exec emit out_result].
  destruct (docker_ContainerStart _ _ _) as [w3 [e|]]; cbn [fst snd]; done.
Qed.

(** The poll loop follows [poll_trace]; what comes after depends on how
    the loop ended. *)
Lemma poller_poll_trace fuel client instance interval w i :
  let o := exec (poller fuel client instance interval) w i in
  ∃ tr fin,
    poll_trace client interval tr fin ∧
    match fin with
    | Cancelled e =>
        ∃ r, out_trace o = tr ++ [EvUpdate (failed instance e) r] ∧
             out_result o = Returned (failed instance e, Some e)
    | Connected =>
        ∃ w' i', out_trace o
                 = tr ++ out_trace (exec (provision client instance) w' i') ∧
                 out_result o
                 = out_result (exec (provision client instance) w' i') ∧
                 out_result o ≠ Spinning
    | StillPolling =>
        out_trace o = tr ∧ out_result o = Spinning ∧
        attempts tr = fuel
    end.
Proof.
  revert interval w i. induction fuel as [|fuel IH]; intros interval w i.
  - exists [], StillPolling. split; [constructor|done].
  - cbn [poller exec emit out_trace out_result].
    destruct (ctx_select w interval) as [w1 [e|]]; cbn [fst snd].
    + exists [EvSelect interval (CtxDone e)], (Cancelled e).
      split; [constructor|]. simpl. eauto.
    + cbn [exec emit out_trace out_result].
      destruct (docker_ContainerList w1 client) as [w2 [e|]]; cbn [fst snd].
      * destruct (IH time.Minute w2 i) as (tr & fin & Htr & Hfin).
        exists (EvSelect interval TimerFired
                :: EvContainerList client (Some e) :: tr), fin.
        split; [by constructor|].
        destruct fin as [e'| |].
        -- destruct Hfin as (r & -> & ->). eauto.
        -- destruct Hfin as (w' & i' & Ht & Hr & Hns).
           exists w', i'. rewrite Ht. done.
        -- destruct Hfin as (-> & -> & <-). done.
      * exists [EvSelect interval TimerFired; EvContainerList client None],
          Connected.
        split; [constructor|]. exists w2, i.
        split; [done|]. split; [done|]. apply provision_not_spinning.
Qed.

Lemma provision_no_poll client instance w i :
  Forall (λ ev, is_poll ev = false)
    (out_trace (exec (provision client instance) w i)).
Proof.
  unfold provision. cbn [exec emit out_trace].
  destruct (docker_ImagePull w client (image i)) as [w1 [e|]];
    cbn [fst snd]; [by repeat constructor|].
  cbn [exec emit out_trace].
  destruct (toVol _); [|by repeat constructor].
  cbn [exec emit out_trace].
  destruct (docker_ContainerCreate _ _ _ _ _) as [w2 [id|e]];
    cbn [fst snd]; [|by repeat constructor].
  cbn [exec emit out_trace].
  destruct (docker_ContainerStart _ _ _) as [w3 [e|]]; cbn [fst snd];
    by repeat constructor.
Qed.

Lemma errorUpdate_shape instance e w i :
  let o := exec (errorUpdate instance (Some e)) w i in
  (∃ r, out_trace o = [EvUpdate (failed instance e) r]) ∧
  out_result o = Returned (failed instance e, Some e).
Proof. simpl. eauto. Qed.

Lemma provision_shape client instance w i :
  let o := exec (provision client instance) w i in
  bootstrap_shape instance (out_result o) (out_trace o).
Proof.
  unfold provision.
  cbn [exec emit out_trace out_result bootstrap_shape failure].
  destruct (docker_ImagePull w client (image i)) as [w1 [e|]];
    cbn [fst snd]; [apply errorUpdate_shape|].
  cbn [exec emit out_trace out_result bootstrap_shape failure].
  destruct (toVol _); [|by right].
  cbn [exec emit out_trace out_result bootstrap_shape failure].
  destruct (docker_ContainerCreate _ _ _ _ _) as [w2 [id|e]];
    cbn [fst snd]; [|apply errorUpdate_shape].
  cbn [exec emit out_trace out_result bootstrap_shape failure].
  destruct (docker_ContainerStart _ _ _) as [w3 [e|]];
    cbn [fst snd]; [apply errorUpdate_shape|].
  cbn. eauto.
Qed.

Lemma poller_shape fuel client instance interval w i :
  let o := exec (poller fuel client instance interval) w i in
  bootstrap_shape instance (out_result o) (out_trace o).
Proof.
  revert interval w i. induction fuel as [|fuel IH]; intros interval w i.
  - by left.
  - cbn [poller exec emit out_trace out_result bootstrap_shape failure].
    destruct (ctx_select w interval) as [w1 [e|]]; cbn [fst snd].
    + apply errorUpdate_shape.
    + cbn [exec emit out_trace out_result bootstrap_shape failure].
      destruct (docker_ContainerList w1 client) as [w2 [e|]]; cbn [fst snd].
      * apply IH.
      * apply provision_shape.
Qed.

Lemma install_shape fuel instance w i :
  let o := exec (install fuel instance) w i in
  bootstrap_shape instance (out_result o) (out_trace o).
Proof.
  unfold install.
  cbn [exec emit out_trace out_result bootstrap_shape failure].
  destruct (client_func w instance) as [w1 [c|e]]; cbn [fst snd].
  - apply poller_shape.
  - apply errorUpdate_shape.
Qed.


(** C6: when the bootstrap of a server gets as far as a successful start
    of the container, no step has failed, the only call that follows is
    the store update of the record, and the record is in the running
    state with every other field, the error message among them, as it was
    when the bootstrap began. *)
Theorem install_success_running (w : W) (i : installer) (fuel : nat)
    (instance : Server) (pre post : list event) (c : APIClient)
    (id : string) :
  let o := exec (install fuel instance) w i in
  out_trace o = pre ++ EvContainerStart c id None :: post →
  ∃ r,
    post = [EvUpdate (set_State StateRunning instance) r] ∧
    out_result o = Returned (set_State StateRunning instance, r) ∧
    Forall (λ ev, failure ev = None) (out_trace o) ∧
    State (set_State StateRunning instance) = StateRunning ∧
    Error (set_State StateRunning instance) = Error instance ∧
    (Error instance = "" → Error (set_State StateRunning instance) = "").
Proof.
  intros o Htr.
  destruct (bootstrap_shape_started _ _ _ _ _ _ _
              (install_shape fuel instance w i) Htr) as [(r & Hr & Hres) Hok].
  exists r. repeat split; done.
Qed.

(** The poll loop inside [install]. *)
Lemma install_poll_trace (w : W) (i : installer) (fuel : nat)
    (instance : Server) :
  let o := exec (install fuel instance) w i in
  match (client_func w instance).2 with
  | inr _ => True
  | inl c =>
      ∃ tr fin,
        poll_trace c 0%Z tr fin ∧
        match fin with
        | Cancelled e =>
            ∃ r, out_trace o
                 = EvClient instance (inl c) :: tr
                   ++ [EvUpdate (failed instance e) r] ∧
                 out_result o = Returned (failed instance e, Some e)
        | Connected =>
            ∃ rest, out_trace o = EvClient instance (inl c) :: tr ++ rest ∧
                    Forall (λ ev, is_poll ev = false) rest ∧
                    out_result o ≠ Spinning
        | StillPolling =>
            out_trace o = EvClient instance (inl c) :: tr ∧
            out_result o = Spinning ∧
            attempts tr = fuel
        end
  end.
Proof.
  unfold install. cbn [exec emit out_trace out_result].
  destruct (client_func w instance) as [w1 [c|e]]; cbn [fst snd]; [|done].
  destruct (poller_poll_trace fuel c instance 0%Z w1 i)
    as (tr & fin & Htr & Hfin).
  exists tr, fin. split; [done|]. destruct fin as [e| |].
  - destruct Hfin as (r & -> & ->). eauto.
  - destruct Hfin as (w' & i' & -> & Hr & Hns).
    eexists. split; [done|]. split; [apply provision_no_poll|done].
  - destruct Hfin as (-> & -> & <-). done.
Qed.

End OneBootstrap.

Lemma attempts_cons (ev : event) (tr : list event) :
  attempts (ev :: tr) = (if is_attempt ev then 1 else 0) + attempts tr.
Proof.
  unfold attempts. rewrite filter_cons.
  destruct (is_attempt ev); case_decide; simpl; congruence.
Qed.

Section Refusing.

Import refusing.

Lemma provision_refusing (c : APIClient) (instance : Server) (w : nat)
    (i : installer) :
  let o := exec (provision c instance) w i in
  attempts (out_trace o) = 0 ∧
  out_result o = Returned (set_State StateRunning instance, None).
Proof.
  unfold provision. cbn [exec emit out_trace out_result].
  cbn [docker_ImagePull refusing_world fst snd].
  cbn [exec emit out_trace out_result].
  destruct (toVol_loop_total (volumes (set_volumes (volumes i ++ [docker_sock]) i)) ∅)
    as [vols Hvols].
  unfold toVol. rewrite Hvols. done.
Qed.

Lemma poller_refusing (n fuel : nat) (c : APIClient) (instance : Server)
    (d : time.Duration) (i : installer) :
  n < fuel →
  let o := exec (poller fuel c instance d) n i in
  attempts (out_trace o) = S n ∧
  out_result o = Returned (set_State StateRunning instance, None).
Proof.
  revert fuel d. induction n as [|n IH]; intros [|fuel] d Hlt; try lia.
  - cbn [poller exec emit out_trace out_result ctx_select
         docker_ContainerList refusing_world fst snd].
    destruct (provision_refusing c instance 0 i) as [Ha Hr].
    split; [|done]. rewrite !attempts_cons, Ha. done.
  - cbn [poller exec emit out_trace out_result ctx_select
         docker_ContainerList refusing_world fst snd].
    destruct (IH fuel time.Minute ltac:(lia)) as [Ha Hr].
    split; [|done]. rewrite !attempts_cons, Ha. done.
Qed.

Lemma poller_refusing_spins (fuel : nat) (k : nat) (c : APIClient)
    (instance : Server) (d : time.Duration) (i : installer) :
  let o := exec (poller fuel c instance d) (fuel + k) i in
  attempts (out_trace o) = fuel ∧ out_result o = Spinning.
Proof.
  revert d. induction fuel as [|fuel IH]; intros d; [done|].
  cbn [poller exec emit out_trace out_result ctx_select
       docker_ContainerList refusing_world fst snd Nat.add].
  destruct (IH time.Minute) as [Ha Hr].
  split; [|done]. rewrite !attempts_cons, Ha. done.
Qed.

Lemma install_refusing (n fuel : nat) (instance : Server)
    (i : installer) :
  n < fuel →
  let o := exec (install fuel instance) n i in
  attempts (out_trace o) = S n ∧
  out_result o = Returned (set_State StateRunning instance, None).
Proof.
  intros Hlt. unfold install.
  cbn [exec emit out_trace out_result client_func refusing_world fst snd].
  rewrite attempts_cons.
  by apply poller_refusing.
Qed.

Lemma install_refusing_spins (fuel k : nat) (instance : Server)
    (i : installer) :
  let o := exec (install fuel instance) (fuel + k) i in
  attempts (out_trace o) = fuel ∧ out_result o = Spinning.
Proof.
  unfold install.
  cbn [exec emit out_trace out_result client_func refusing_world fst snd].
  rewrite attempts_cons.
  apply poller_refusing_spins.
Qed.

End Refusing.

(** C4: the poll loop of [install].  Its traces are those of [poll_trace]
    entered with a delay of zero: the first select waits for a timer of
    zero, every later one for a timer of one minute; a failed connection
    attempt is followed by the next select and a successful one by no
    further select or attempt; a context that is done ends the loop through
    [errorUpdate] with the error of the context.  There is no bound on the
    attempts: after any number [n] of refusals the loop connects on attempt
    [n + 1], and as long as the daemon refuses and the context is not done
    every iteration the model follows is one more attempt. *)
Theorem probe_protocol :
  (∀ (W : Type) (HW : World W) (w : W) (i : installer) (fuel : nat)
     (instance : Server),
     let o := exec (install fuel instance) w i in
     match (client_func w instance).2 with
     | inr _ => True
     | inl c =>
         ∃ tr fin,
           poll_trace c 0%Z tr fin ∧
           match fin with
           | Cancelled e =>
               ∃ r, out_trace o
                    = EvClient instance (inl c) :: tr
                      ++ [EvUpdate (failed instance e) r] ∧
                    out_result o = Returned (failed instance e, Some e)
           | Connected =>
               ∃ rest,
                 out_trace o = EvClient instance (inl c) :: tr ++ rest ∧
                 Forall (λ ev, is_poll ev = false) rest ∧
                 out_result o ≠ Spinning
           | StillPolling =>
               out_trace o = EvClient instance (inl c) :: tr ∧
               out_result o = Spinning ∧
               attempts tr = fuel
           end
     end) ∧
  (∀ (n fuel : nat) (instance : Server) (i : installer),
     n < fuel →
     let o := exec (install fuel instance) n i in
     attempts (out_trace o) = S n ∧
     out_result o = Returned (set_State StateRunning instance, None)) ∧
  (∀ (fuel k : nat) (instance : Server) (i : installer),
     let o := exec (install fuel instance) (fuel + k) i in
     attempts (out_trace o) = fuel ∧ out_result o = Spinning).
Proof.
  split; [intros; apply install_poll_trace|].
  split; [intros; by apply install_refusing|].
  intros. apply install_refusing_spins.
Qed.


(* ================================================================== *)
(** * What one goroutine can do, whatever the others do *)

Lemma step_pstep `{World W} {R} (p : prog R) (w : W) (i : installer)
    (s : stepped W R) :
  step p w i = Some s → pstep p (st_event s) (st_go s) (st_prog s).
Proof.
  destruct p; simpl; intros Hs; simplify_eq; simpl; constructor.
Qed.

Lemma runs_snoc {R} (p p' p'' : prog R) tr gos ev go :
  runs p tr gos p' →
  pstep p' ev go p'' →
  runs p (tr ++ olist ev) (gos ++ olist go) p''.
Proof.
  induction 1 as [p|p ev0 go0 p1 tr gos p2 Hstep Hruns IH]; intros Hlast.
  - simpl. rewrite <- (app_nil_r (olist ev)), <- (app_nil_r (olist go)).
    econstructor; [done|constructor].
  - rewrite <- !app_assoc. econstructor; [done|]. by apply IH.
Qed.

Lemma proj_app (t : tid) (h1 h2 : list (tid * event)) :
  proj t (h1 ++ h2) = proj t h1 ++ proj t h2.
Proof. apply omap_app. Qed.

Lemma proj_tagged_same (t : tid) (ev : option event) :
  proj t (tagged t ev) = olist ev.
Proof. destruct ev; simpl; [|done]. unfold proj. simpl. by rewrite decide_True. Qed.

Lemma proj_tagged_other (t t' : tid) (ev : option event) :
  t' ≠ t → proj t (tagged t' ev) = [].
Proof.
  intros Hne. destruct ev; simpl; [|done]. unfold proj. simpl.
  by rewrite decide_False.
Qed.

Lemma proj_nil_iff (t : tid) (h : list (tid * event)) :
  (∀ ev, (t, ev) ∉ h) → proj t h = [].
Proof.
  induction h as [|[t' ev'] h IH]; intros Hnot; [done|].
  unfold proj in *. simpl. destruct (decide (t' = t)) as [->|Hne].
  - exfalso. apply (Hnot ev'). left.
  - apply IH. intros ev Hin. apply (Hnot ev). by right.
Qed.

Lemma reverse_tagged (t : tid) (ev : option event) :
  reverse (tagged t ev) = tagged t ev.
Proof. by destruct ev. Qed.

Lemma runs_go_count {R} (p p' : prog R) tr gos :
  runs p tr gos p' → length (go_args tr) = length gos.
Proof.
  induction 1 as [p|p ev go p1 tr gos p2 Hstep Hruns IH]; [done|].
  unfold go_args in *. rewrite omap_app, !length_app, IH.
  f_equal. by destruct Hstep.
Qed.

(** ** The goroutines of a schedule, one by one *)

Section Scheduler.

Context `{World W}.
Variable main0 : prog (option error).

Hypothesis main_spawns_leaves :
  ∀ tr gos p, runs main0 tr gos p → Forall no_spawn gos.

Lemma sched_inv_start (main_w : W) (i : installer) :
  sched_inv main0 (start main0 main_w i) ∧ causal main0 (c_events (start main0 main_w i)).
Proof.
  split; [|done]. exists []. split; [constructor|]. split; [done|].
  split; [intros n b p Hb; done|]. intros n ev Hin. by apply elem_of_nil in Hin.
Qed.

Lemma sched_inv_step (t : tid) (c : config W) :
  sched_inv main0 c ∧ causal main0 (c_events c) →
  sched_inv main0 (sched_step t c) ∧ causal main0 (c_events (sched_step t c)).
Proof.
  intros [(gos & Hmain & Hlen & Hpool & Hlive) Hcausal].
  destruct t as [|n]; simpl.
  - destruct (step (c_main c) (c_world c) (c_installer c)) as [s|] eqn:Hs;
      [|split; [by exists gos|done]].
    pose proof (step_pstep _ _ _ _ Hs) as Hps.
    assert (Hgo : length (olist (st_go s)) = length (started (st_go s)))
      by (by destruct (st_go s)).
    split.
    + exists (gos ++ olist (st_go s)). unfold history in *. simpl.
      rewrite reverse_app, reverse_tagged, proj_app, proj_tagged_same.
      split; [by eapply runs_snoc|].
      split; [rewrite !length_app; lia|].
      split.
      * intros m b p Hb Hp. rewrite proj_app, proj_tagged_other by done.
        rewrite app_nil_r.
        destruct (decide (m < length gos)) as [Hlt|Hge].
        -- rewrite lookup_app_l in Hb by done.
           rewrite lookup_app_l in Hp by lia. by eapply Hpool.
        -- rewrite lookup_app_r in Hb by lia.
           rewrite lookup_app_r in Hp by lia.
           rewrite Hlen in Hb.
           destruct (st_go s) as [body|]; [|done]. simpl in *.
           destruct (m - length (c_pool c)) as [|?] eqn:Hm; [|done].
           simplify_eq.
           rewrite proj_nil_iff; [constructor|].
           intros ev Hin. rewrite elem_of_reverse in Hin.
           apply Hlive in Hin. lia.
      * intros m ev Hin. rewrite length_app.
        apply elem_of_app in Hin as [Hin|Hin].
        -- destruct (st_event s); simpl in Hin; [|by apply elem_of_nil in Hin].
           apply list_elem_of_singleton in Hin. done.
        -- apply Hlive in Hin. lia.
    + destruct (st_event s) as [ev|]; simpl; [|done].
      split; [|done]. eauto.
  - destruct (c_pool c !! n) as [p|] eqn:Hp;
      [|split; [by exists gos|done]].
    destruct (step p (c_world c) (c_installer c)) as [s|] eqn:Hs;
      [|split; [by exists gos|done]].
    pose proof (step_pstep _ _ _ _ Hs) as Hps.
    assert (Hn : n < length gos)
      by (rewrite Hlen; by eapply lookup_lt_Some).
    destruct (lookup_lt_is_Some_2 gos n Hn) as [b Hb].
    pose proof (Hpool n b p Hb Hp) as Hruns.
    pose proof (runs_snoc _ _ _ _ _ _ _ Hruns Hps) as Hruns'.
    assert (Hnogo : st_go s = None).
    { pose proof (main_spawns_leaves _ _ _ Hmain) as Hleaves.
      rewrite Forall_lookup in Hleaves.
      specialize (Hleaves n b Hb _ _ _ Hruns').
      by destruct (st_go s). }
    rewrite Hnogo in *. simpl in Hruns'. rewrite app_nil_r.
    split.
    + exists gos. unfold history in *. simpl.
      rewrite reverse_app, reverse_tagged.
      split; [by rewrite proj_app, proj_tagged_other, app_nil_r|].
      split; [by rewrite length_insert|].
      split.
      * intros m b' q Hb' Hq. rewrite proj_app.
        destruct (decide (m = n)) as [->|Hne].
        -- rewrite proj_tagged_same.
           rewrite list_lookup_insert_eq in Hq
             by (by eapply lookup_lt_Some).
           by simplify_eq.
        -- rewrite proj_tagged_other by congruence. rewrite app_nil_r.
           rewrite list_lookup_insert_ne in Hq by done. by eapply Hpool.
      * intros m ev Hin. rewrite length_insert.
        apply elem_of_app in Hin as [Hin|Hin]; [|by eapply Hlive].
        destruct (st_event s); simpl in Hin; [|by apply elem_of_nil in Hin].
        apply list_elem_of_singleton in Hin. simplify_eq.
        by eapply lookup_lt_Some.
    + destruct (st_event s) as [ev|]; simpl; [|done].
      split; [|done]. exists gos, (c_main c). done.
Qed.

Lemma sched_inv_run (schedule : list tid) (c : config W) :
  sched_inv main0 c ∧ causal main0 (c_events c) →
  sched_inv main0 (sched_run schedule c) ∧ causal main0 (c_events (sched_run schedule c)).
Proof.
  revert c. induction schedule as [|t schedule IH]; intros c Hc; [done|].
  simpl. apply IH. by apply sched_inv_step.
Qed.

Lemma causal_split (h1 h2 : list (tid * event)) (t : tid) (ev : event) :
  causal main0 (reverse (h1 ++ (t, ev) :: h2)) →
  ∃ gos p, runs main0 (proj Main h1) gos p ∧
           match t with
           | Main => True
           | Worker n => n < length gos
           end.
Proof.
  rewrite reverse_app, reverse_cons, <- app_assoc. simpl.
  generalize (reverse h2). intros l. induction l as [|[t' ev'] l IH]; simpl.
  - rewrite reverse_involutive. by intros [? _].
  - intros [_ ?]. by apply IH.
Qed.

End Scheduler.

Section Automaton.

Context {M R : Type}.
Variable delta : M → event → M → Prop.
Variable spawns : Server → prog unit → Prop.
Variable final : M → R → Prop.

Lemma follows_pstep (m : M) (p p' : prog R) ev go :
  follows delta spawns final m p → pstep p ev go p' →
  ∃ m', accepted delta m (olist ev) m' ∧ follows delta spawns final m' p' ∧
        Forall2 spawns (go_args (olist ev)) (olist go).
Proof.
  intros Hf Hs. destruct Hs; simpl in Hf;
    try (destruct (Hf a) as (m' & Hd & Hf'); exists m';
         repeat split; [by repeat econstructor|done|constructor]);
    try (destruct Hf as (m' & Hd & Hf'); exists m';
         repeat split; [by repeat econstructor|done|constructor]).
  - exists m. repeat split; [constructor|done|constructor].
  - destruct Hf as (Hsp & m' & Hd & Hf'). exists m'.
    repeat split; [by repeat econstructor|done|by repeat constructor].
Qed.

Lemma accepted_app m tr1 m' tr2 m'' :
  accepted delta m tr1 m' → accepted delta m' tr2 m'' → accepted delta m (tr1 ++ tr2) m''.
Proof.
  induction 1; simpl; [done|]. intros. econstructor; [done|]. auto.
Qed.

Lemma follows_runs (m : M) (p p' : prog R) tr gos :
  follows delta spawns final m p → runs p tr gos p' →
  ∃ m', accepted delta m tr m' ∧ follows delta spawns final m' p' ∧
        Forall2 spawns (go_args tr) gos.
Proof.
  intros Hf Hruns. revert m Hf.
  induction Hruns as [p|p ev go p1 tr gos p2 Hstep Hruns IH]; intros m Hf.
  - exists m. repeat split; [constructor|done|constructor].
  - destruct (follows_pstep _ _ _ _ _ Hf Hstep) as (m1 & Ha1 & Hf1 & Hg1).
    destruct (IH _ Hf1) as (m2 & Ha2 & Hf2 & Hg2).
    exists m2. split; [by eapply accepted_app|]. split; [done|].
    unfold go_args in *. rewrite omap_app. by apply Forall2_app.
Qed.

(** An invariant of the states that holds of the empty trace and that
    every transition preserves holds of every accepted trace. *)
Lemma accepted_invariant (I : M → list event → Prop) :
  (∀ m ev m' tr, delta m ev m' → I m tr → I m' (tr ++ [ev])) →
  ∀ m tr m' pre, accepted delta m tr m' → I m pre → I m' (pre ++ tr).
Proof.
  intros Hstep m tr m' pre Hacc. revert pre.
  induction Hacc as [m|m ev m1 tr m2 Hd Hacc IH]; intros pre HI.
  - by rewrite app_nil_r.
  - rewrite (cons_middle ev), app_assoc. apply IH. by eapply Hstep.
Qed.

End Automaton.

Section Follows.

Local Ltac take_step :=
  eexists; split; [by econstructor|]; cbn [follows bind].

Local Abbreviation release :=
  (λ _ : Server * option error, WgAdd (-1) (Ret tt)).

Lemma errorUpdate_follows (s : Server) (e : error) :
  follows (worker_step s) never_spawns any_result (WFailing e)
    (bind (errorUpdate s (Some e)) release).
Proof.
  cbn [errorUpdate bind follows]. intros r. take_step. by take_step.
Qed.

Lemma provision_follows (c : APIClient) (s : Server) :
  follows (worker_step s) never_spawns any_result WBusy
    (bind (provision c s) release).
Proof.
  unfold provision. cbn [bind follows]. intros i [e|].
  { eexists. split; [by apply ws_failure|]. apply errorUpdate_follows. }
  take_step. take_step. intros i1. take_step. intros i2.
  destruct (toVol (volumes i2)); cbn [bind follows]; [|done].
  intros i3 [id|e]; cycle 1.
  { eexists. split; [by apply ws_failure|]. apply errorUpdate_follows. }
  take_step. intros [e|].
  { eexists. split; [by apply ws_failure|]. apply errorUpdate_follows. }
  eexists. split; [apply ws_started|]. cbn [follows bind].
  intros r. eexists. split; [apply ws_booted|]. cbn [follows bind].
  by take_step.
Qed.

Lemma poller_follows (fuel : nat) (c : APIClient) (s : Server)
    (d : time.Duration) :
  follows (worker_step s) never_spawns any_result WBusy
    (bind (poller fuel c s d) release).
Proof.
  revert d. induction fuel as [|fuel IH]; intros d; [done|].
  cbn [poller bind follows]. intros [e|].
  { eexists. split; [by apply ws_failure|]. apply errorUpdate_follows. }
  take_step. intros [e|].
  - take_step. apply IH.
  - take_step. apply provision_follows.
Qed.

Lemma worker_follows (fuel : nat) (s : Server) :
  follows (worker_step s) never_spawns any_result WBusy (worker fuel s).
Proof.
  unfold worker, install. cbn [bind follows]. intros [c|e].
  - take_step. apply poller_follows.
  - eexists. split; [by apply ws_failure|]. apply errorUpdate_follows.
Qed.

Lemma Install_range_follows (fuel : nat) (servers : list Server) :
  follows main_step (spawns_worker fuel) main_final (MLoop servers)
    (Install_range fuel servers).
Proof.
  induction servers as [|s rest IH]; [done|].
  cbn [Install_range follows]. intros [e|].
  - by take_step.
  - take_step. take_step. split; [done|]. take_step. apply IH.
Qed.

Lemma Install_follows (fuel : nat) :
  follows main_step (spawns_worker fuel) main_final MInit (Install fuel).
Proof.
  unfold Install. cbn [follows]. intros [servers|e].
  - take_step. apply Install_range_follows.
  - by take_step.
Qed.

(** A bootstrap goroutine starts no goroutine. *)
Lemma worker_no_spawn (fuel : nat) (s : Server) :
  ∀ tr gos p, runs (worker fuel s) tr gos p → gos = [].
Proof.
  intros tr gos p Hruns.
  destruct (follows_runs _ _ _ _ _ _ _ _ (worker_follows fuel s) Hruns)
    as (m & _ & _ & Hgos).
  destruct Hgos as [|arg b ? ? Hsp]; [done|]. destruct Hsp.
Qed.

End Follows.

Lemma updates_snoc (tr : list event) (ev : event) :
  updates (tr ++ [ev]) = updates tr ++ updates [ev].
Proof. apply omap_app. Qed.

Lemma go_args_snoc (tr : list event) (ev : event) :
  go_args (tr ++ [ev]) = go_args tr ++ go_args [ev].
Proof. apply omap_app. Qed.

Lemma listed_snoc (tr : list event) (ev : event) (servers : list Server) :
  listed tr = Some servers → listed (tr ++ [ev]) = Some servers.
Proof. by destruct tr. Qed.

Lemma worker_inv_step (s : Server) m ev m' tr :
  worker_step s m ev m' → worker_inv s m tr → worker_inv s m' (tr ++ [ev]).
Proof.
  intros Hstep Hinv.
  destruct Hstep as [ev Hp|ev e He|c id|e r|r|]; simpl in *;
    rewrite ?updates_snoc.
  - rewrite Hinv. by destruct ev as [| | |? []| | | | | | | |]; try done;
      destruct r.
  - split.
    + rewrite Hinv. by destruct ev as [| | |? []| | | | | | | |].
    + exists ev. split; [set_solver|done].
  - by rewrite Hinv.
  - destruct Hinv as [Hup (ev & Hin & He)]. exists r. right.
    exists e, ev. rewrite Hup. split; [set_solver|done].
  - exists r. left. by rewrite Hinv.
  - destruct Hinv as [r [Hup|(e & ev & Hin & He & Hup)]]; exists r.
    + left. by rewrite Hup.
    + right. exists e, ev. rewrite Hup. split; [set_solver|done].
Qed.

Lemma main_inv_step m ev m' tr :
  main_step m ev m' → main_inv m tr → main_inv m' (tr ++ [ev]).
Proof.
  intros Hstep Hinv.
  destruct Hstep as [servers|e|s rest|s rest e|s rest|s rest]; simpl in *.
  - subst tr. by exists [].
  - subst tr. by left.
  - destruct Hinv as (past & Hl & Hup & Hgo). exists past, s.
    rewrite updates_snoc, go_args_snoc, Hup, Hgo. simpl.
    split; [done|]. split; [by apply listed_snoc|].
    unfold staged_ok. rewrite map_app, app_nil_r. done.
  - destruct Hinv as (past & Hl & Hup & Hgo). right. exists past, s, rest.
    rewrite updates_snoc, go_args_snoc, Hup, Hgo. simpl.
    split; [by apply listed_snoc|]. by rewrite app_nil_r.
  - destruct Hinv as (past & s0 & -> & Hl & Hup & Hgo). exists past, s0.
    rewrite updates_snoc, go_args_snoc, Hup, Hgo. simpl.
    split; [done|]. split; [by apply listed_snoc|]. by rewrite !app_nil_r.
  - destruct Hinv as (past & s0 & -> & Hl & Hup & Hgo). exists (past ++ [s0]).
    rewrite updates_snoc, go_args_snoc, Hup, Hgo. simpl.
    rewrite <- app_assoc. split; [by apply listed_snoc|].
    rewrite app_nil_r. unfold staged. by rewrite map_app.
Qed.

Lemma worker_trace (s : Server) (tr : list event) (m : worker_state) :
  accepted (worker_step s) WBusy tr m → worker_inv s m tr.
Proof.
  intros Hacc.
  apply (accepted_invariant (worker_step s) (worker_inv s)
           (worker_inv_step s) _ _ _ [] Hacc).
  done.
Qed.

Lemma main_trace (tr : list event) (m : main_state) :
  accepted main_step MInit tr m → main_inv m tr.
Proof.
  intros Hacc.
  apply (accepted_invariant main_step main_inv main_inv_step _ _ _ [] Hacc).
  done.
Qed.

Lemma elem_of_proj (t : tid) (ev : event) (h : list (tid * event)) :
  ev ∈ proj t h → (t, ev) ∈ h.
Proof.
  unfold proj. rewrite list_elem_of_omap. intros ([t' ev'] & Hin & Heq).
  simpl in Heq. case_decide; simplify_eq. done.
Qed.

(** The trace of [Install], summed up: the goroutines started are those of
    a prefix [done] of the listing, and the store updates are those of
    [done], or of [done] and the next server, whose update may have
    failed. *)
Lemma main_summary (tr : list event) (m : main_state) (servers : list Server) :
  accepted main_step MInit tr m →
  listed tr = Some servers →
  ∃ past,
    past `prefix_of` servers ∧
    go_args tr = staged past ∧
    (updates tr = staged_ok past ∨
     ∃ s0, (past ++ [s0]) `prefix_of` servers ∧
           (updates tr = staged_ok (past ++ [s0]) ∨
            ∃ e, updates tr
                 = staged_ok past ++ [(set_State StateStaging s0, Some e)])).
Proof.
  intros Hacc Hl. pose proof (main_trace _ _ Hacc) as Hinv.
  destruct m as [|rest|s rest|s rest|e]; simpl in Hinv.
  - by subst tr.
  - destruct Hinv as (past & Hl' & Hup & Hgo). exists past.
    rewrite Hl in Hl'. simplify_eq.
    split; [by apply prefix_app_r|]. split; [done|]. by left.
  - destruct Hinv as (past & s0 & -> & Hl' & Hup & Hgo). exists past.
    rewrite Hl in Hl'. simplify_eq.
    split; [by apply prefix_app_r|]. split; [done|]. right. exists s0.
    split; [|by left]. exists rest. by rewrite <- app_assoc.
  - destruct Hinv as (past & s0 & -> & Hl' & Hup & Hgo). exists past.
    rewrite Hl in Hl'. simplify_eq.
    split; [by apply prefix_app_r|]. split; [done|]. right. exists s0.
    split; [|by left]. exists rest. by rewrite <- app_assoc.
  - destruct Hinv as [->|(past & s0 & rest & Hl' & Hup & Hgo)]; [done|].
    exists past. rewrite Hl in Hl'. simplify_eq.
    split; [by apply prefix_app_r|]. split; [done|]. right. exists s0.
    split; [|right; by exists e]. exists rest. by rewrite <- app_assoc.
Qed.

(** The goroutine of index [n] is started only after the store accepted
    the staging update of the server of index [n] of the listing. *)
Lemma main_started_staged (tr : list event) (m : main_state) (n : nat)
    (arg : Server) :
  accepted main_step MInit tr m →
  go_args tr !! n = Some arg →
  ∃ servers s,
    listed tr = Some servers ∧ servers !! n = Some s ∧
    arg = set_State StateStaging s ∧
    updates tr !! n = Some (set_State StateStaging s, None).
Proof.
  intros Hacc Hgo. pose proof (main_trace _ _ Hacc) as Hinv.
  assert (∃ servers past tail ups,
            listed tr = Some servers ∧ servers = past ++ tail ∧
            go_args tr = staged past ∧ updates tr = staged_ok past ++ ups)
    as (servers & past & tail & ups & Hl & -> & Hgos & Hups).
  { destruct m as [|rest|s rest|s rest|e]; simpl in Hinv.
    - by subst tr.
    - destruct Hinv as (past & Hl & Hup & Hg).
      exists (past ++ rest), past, rest, []. by rewrite app_nil_r.
    - destruct Hinv as (past & s0 & -> & Hl & Hup & Hg).
      exists (past ++ s0 :: rest), past, (s0 :: rest),
        [(set_State StateStaging s0, None)].
      unfold staged_ok in *. by rewrite Hup, map_app.
    - destruct Hinv as (past & s0 & -> & Hl & Hup & Hg).
      exists (past ++ s0 :: rest), past, (s0 :: rest),
        [(set_State StateStaging s0, None)].
      unfold staged_ok in *. by rewrite Hup, map_app.
    - destruct Hinv as [->|(past & s0 & rest & Hl & Hup & Hg)]; [done|].
      by exists (past ++ s0 :: rest), past, (s0 :: rest),
        [(set_State StateStaging s0, Some e)]. }
  rewrite Hgos in Hgo. unfold staged in Hgo.
  rewrite list_lookup_fmap in Hgo.
  destruct (past !! n) as [s|] eqn:Hs; [|done]. simpl in Hgo. simplify_eq.
  exists (past ++ tail), s. split; [done|].
  split; [by apply lookup_app_l_Some|]. split; [done|].
  rewrite Hups. apply lookup_app_l_Some. unfold staged_ok.
  by rewrite list_lookup_fmap, Hs.
Qed.

(** ** [Install] under any schedule *)

Section InstallRun.

Context `{World W}.
Variable fuel : nat.

Lemma Install_spawns_leaves :
  ∀ tr gos p, runs (Install fuel) tr gos p → Forall (no_spawn) gos.
Proof.
  intros tr gos p Hruns.
  destruct (follows_runs _ _ _ _ _ _ _ _ (Install_follows fuel) Hruns)
    as (m & _ & _ & Hgos).
  apply Forall_lookup. intros n b Hb.
  destruct (Forall2_lookup_r _ _ _ _ _ Hgos Hb) as (arg & _ & Hsp).
  rewrite Hsp. intros tr' gos' p'. apply worker_no_spawn.
Qed.

Lemma Install_sched_inv (w : W) (i : installer) (schedule : list tid) :
  let c := sched_run schedule (start (Install fuel) w i) in
  sched_inv (Install fuel) c ∧ causal (Install fuel) (c_events c).
Proof.
  apply sched_inv_run; [apply Install_spawns_leaves|].
  apply sched_inv_start.
Qed.

(** The main goroutine, seen through its automaton. *)
Lemma Install_main_view (w : W) (i : installer) (schedule : list tid) :
  let c := sched_run schedule (start (Install fuel) w i) in
  ∃ m, accepted main_step MInit (proj Main (history c)) m ∧
       follows main_step (spawns_worker fuel) main_final m (c_main c).
Proof.
  intros c.
  destruct (Install_sched_inv w i schedule) as [(gos & Hmain & _) _].
  destruct (follows_runs _ _ _ _ _ _ _ _ (Install_follows fuel) Hmain)
    as (m & Hacc & Hf & _).
  by exists m.
Qed.

(** A bootstrap goroutine, seen through its automaton: its events are a
    trace of the automaton of the server it was started for. *)
Lemma Install_worker_view (w : W) (i : installer) (schedule : list tid)
    (n : nat) :
  let c := sched_run schedule (start (Install fuel) w i) in
  match go_args (proj Main (history c)) !! n with
  | Some arg =>
      ∃ m, accepted (worker_step arg) WBusy (proj (Worker n) (history c)) m
  | None => proj (Worker n) (history c) = []
  end.
Proof.
  intros c.
  destruct (Install_sched_inv w i schedule)
    as [(gos & Hmain & Hlen & Hpool & Hlive) _].
  fold c in Hmain, Hlen, Hpool, Hlive.
  destruct (follows_runs _ _ _ _ _ _ _ _ (Install_follows fuel) Hmain)
    as (m & Hacc & Hf & Hgos).
  destruct (go_args (proj Main (history c)) !! n) as [arg|] eqn:Harg.
  - destruct (Forall2_lookup_l _ _ _ _ _ Hgos Harg) as (b & Hb & Hsp).
    assert (is_Some (c_pool c !! n)) as [p Hp].
    { apply lookup_lt_is_Some. rewrite <- Hlen. by eapply lookup_lt_Some. }
    pose proof (Hpool n b p Hb Hp) as Hruns. rewrite Hsp in Hruns.
    destruct (follows_runs _ _ _ _ _ _ _ _ (worker_follows fuel arg) Hruns)
      as (mw & Haccw & _).
    by exists mw.
  - apply proj_nil_iff. intros ev Hin. unfold history in Hin.
    rewrite elem_of_reverse in Hin. apply Hlive in Hin.
    apply lookup_ge_None in Harg.
    rewrite <- Hlen, <- (Forall2_length _ _ _ Hgos) in Hin. lia.
Qed.

(** Before any event of a bootstrap goroutine, the store has accepted the
    staging update of its server and [Install] has started it. *)
Lemma worker_event_after_staging (w : W) (i : installer)
    (schedule : list tid) (h1 h2 : list (tid * event)) (n : nat)
    (ev : event) :
  history (sched_run schedule (start (Install fuel) w i))
  = h1 ++ (Worker n, ev) :: h2 →
  ∃ servers s,
    listed (proj Main h1) = Some servers ∧ servers !! n = Some s ∧
    go_args (proj Main h1) !! n = Some (set_State StateStaging s) ∧
    updates (proj Main h1) !! n = Some (set_State StateStaging s, None).
Proof.
  intros Hh.
  destruct (Install_sched_inv w i schedule) as [_ Hcausal].
  unfold history in Hh. apply (f_equal reverse) in Hh.
  rewrite reverse_involutive in Hh. simpl in Hcausal. rewrite Hh in Hcausal.
  destruct (causal_split _ _ _ _ _ Hcausal) as (gos & p & Hruns & Hn).
  destruct (follows_runs _ _ _ _ _ _ _ _ (Install_follows fuel) Hruns)
    as (m & Hacc & _ & Hgos).
  assert (is_Some (go_args (proj Main h1) !! n)) as [arg Harg].
  { apply lookup_lt_is_Some. by rewrite (Forall2_length _ _ _ Hgos). }
  destruct (main_started_staged _ _ _ _ Hacc Harg)
    as (servers & s & Hl & Hs & -> & Hup).
  by exists servers, s.
Qed.

End InstallRun.

(* ================================================================== *)
(** * The lifecycle of a server record *)

Section Lifecycle.

Context `{World W}.

Lemma record_writes_cases (w : W) (i : installer) (fuel : nat)
    (schedule : list tid) (servers : list Server) (n : nat) (s : Server) :
  let h := history (sched_run schedule (start (Install fuel) w i)) in
  listed (proj Main h) = Some servers →
  servers !! n = Some s →
  record_writes n h = [] ∨
  record_writes n h = [set_State StateStaging s] ∨
  record_writes n h
  = [set_State StateStaging s; booted (set_State StateStaging s)] ∨
  ∃ e ev, ev ∈ proj (Worker n) h ∧ failure ev = Some e ∧
          record_writes n h
          = [set_State StateStaging s; failed (set_State StateStaging s) e].
Proof.
  intros h Hl Hs. unfold record_writes.
  destruct (Install_main_view fuel w i schedule) as (m & Hacc & _).
  fold h in Hacc.
  pose proof (Install_worker_view fuel w i schedule n) as Hw.
  simpl in Hw. fold h in Hw.
  destruct (go_args (proj Main h) !! n) as [arg|] eqn:Harg.
  - destruct (main_started_staged _ _ _ _ Hacc Harg)
      as (servers' & s' & Hl' & Hs' & -> & Hup).
    rewrite Hl in Hl'. simplify_eq. rewrite Hup. simpl.
    destruct Hw as [mw Haccw]. pose proof (worker_trace _ _ _ Haccw) as Hinv.
    destruct mw; simpl in Hinv.
    + rewrite Hinv. by (right; left).
    + destruct Hinv as [-> _]. by (right; left).
    + rewrite Hinv. by (right; left).
    + destruct Hinv as [r [->|(e & ev & Hin & He & ->)]].
      * by (right; right; left).
      * right; right; right. by exists e, ev.
    + destruct Hinv as [r [->|(e & ev & Hin & He & ->)]].
      * by (right; right; left).
      * right; right; right. by exists e, ev.
  - rewrite Hw. simpl. rewrite app_nil_r.
    destruct (main_summary _ _ _ Hacc Hl) as (past & Hpre & Hgo & Hup).
    assert (Hstaged : ∀ P, P `prefix_of` servers →
              fst <$> staged_ok P !! n
              = if decide (n < length P)
                then Some (set_State StateStaging s) else None).
    { intros P [tail ->]. unfold staged_ok. rewrite list_lookup_fmap.
      case_decide as Hn.
      - rewrite lookup_app_l in Hs by done. by rewrite Hs.
      - by rewrite lookup_ge_None_2 by lia. }
    assert (∃ P, P `prefix_of` servers ∧
              fst <$> updates (proj Main h) !! n = fst <$> staged_ok P !! n)
      as (P & HP & ->).
    { destruct Hup as [->|(s0 & Hpre0 & [->|[e ->]])]; [by eauto..|].
      exists (past ++ [s0]). split; [done|].
      unfold staged_ok. rewrite map_app. simpl.
      destruct (decide (n < length past)) as [Hn|Hn].
      - by rewrite !lookup_app_l by (by rewrite length_map).
      - rewrite !lookup_app_r by (rewrite length_map; lia).
        rewrite length_map. by destruct (n - length past) as [|[|?]]. }
    rewrite (Hstaged P HP). case_decide; simpl; eauto.
Qed.

End Lifecycle.

(* ================================================================== *)
(** * [Install] run on its own *)

Section ExecRuns.

Context `{World W}.

Lemma exec_runs :
  ∀ R (p : prog R) (w : W) (i : installer),
    let o := exec p w i in
    runs p (out_trace o) (snd <$> out_launched o)
      (terminal (out_result o)) ∧
    fst <$> out_launched o = go_args (out_trace o).
Proof.
  intros R p.
  induction p as [R r|R|R|R st k IH|R s k IH|R s k IH|R d k IH|R c k IH
                  |R c ref k IH|R c k IH|R c cfg hc name k IH|R c id k IH
                  |R k IH|R v k IH|R d k IH|R arg body _ k IH]; intros w i;
    cbn [exec finish emit launch out_trace out_result out_launched
         terminal fmap list_fmap];
    try (split; [constructor|done]).
  - destruct (IH (servers_ListState w st).2 (servers_ListState w st).1 i)
      as [Hr Hg]. split; [|done].
    apply (runs_step _ (Some _) None _ _ _ _ (ps_ListState _ _ _) Hr).
  - destruct (IH (servers_Update w s).2 (servers_Update w s).1 i)
      as [Hr Hg]. split; [|done].
    apply (runs_step _ (Some _) None _ _ _ _ (ps_Update _ _ _) Hr).
  - destruct (IH (client_func w s).2 (client_func w s).1 i)
      as [Hr Hg]. split; [|done].
    apply (runs_step _ (Some _) None _ _ _ _ (ps_Client _ _ _) Hr).
  - destruct (IH (ctx_select w d).2 (ctx_select w d).1 i)
      as [Hr Hg]. split; [|done].
    apply (runs_step _ (Some _) None _ _ _ _ (ps_Select _ _ _) Hr).
  - destruct (IH (docker_ContainerList w c).2
                (docker_ContainerList w c).1 i) as [Hr Hg].
    split; [|done].
    apply (runs_step _ (Some _) None _ _ _ _ (ps_ContainerList _ _ _) Hr).
  - destruct (IH (docker_ImagePull w c ref).2
                (docker_ImagePull w c ref).1 i) as [Hr Hg].
    split; [|done].
    apply (runs_step _ (Some _) None _ _ _ _ (ps_ImagePull _ _ _ _) Hr).
  - destruct (IH (docker_DrainClose w c) i) as [Hr Hg]. split; [|done].
    apply (runs_step _ (Some _) None _ _ _ _ (ps_DrainClose _ _) Hr).
  - destruct (IH (docker_ContainerCreate w c cfg hc name).2
                (docker_ContainerCreate w c cfg hc name).1 i) as [Hr Hg].
    split; [|done].
    apply (runs_step _ (Some _) None _ _ _ _
             (ps_ContainerCreate _ _ _ _ _ _) Hr).
  - destruct (IH (docker_ContainerStart w c id).2
                (docker_ContainerStart w c id).1 i) as [Hr Hg].
    split; [|done].
    apply (runs_step _ (Some _) None _ _ _ _ (ps_ContainerStart _ _ _ _) Hr).
  - destruct (IH i w i) as [Hr Hg]. split; [|done].
    apply (runs_step _ None None _ _ _ _ (ps_Load _ _) Hr).
  - destruct (IH w (set_volumes v i)) as [Hr Hg]. split; [|done].
    apply (runs_step _ (Some _) None _ _ _ _ (ps_StoreVolumes _ _) Hr).
  - destruct (IH w (add_wg d i)) as [Hr Hg]. split; [|done].
    apply (runs_step _ (Some _) None _ _ _ _ (ps_WgAdd _ _) Hr).
  - destruct (IH w i) as [Hr Hg]. split; [|by rewrite Hg].
    apply (runs_step _ (Some _) (Some _) _ _ _ _ (ps_Go _ _ _) Hr).
Qed.

End ExecRuns.

Lemma accepted_split {M} (delta : M → event → M → Prop) m tr1 ev tr2 m' :
  accepted delta m (tr1 ++ ev :: tr2) m' →
  ∃ m1 m2, accepted delta m tr1 m1 ∧ delta m1 ev m2 ∧
           accepted delta m2 tr2 m'.
Proof.
  revert m. induction tr1 as [|x tr1 IH]; intros m Hacc; simpl in Hacc.
  - inversion Hacc; subst. eexists _, _. split; [constructor|done].
  - inversion Hacc as [|? ? m0 ? ? Hd Hacc']; subst.
    destruct (IH _ Hacc') as (m1 & m2 & H1 & Hd' & H2).
    exists m1, m2. split; [by econstructor|done].
Qed.

Lemma launched_of_args {A B} (f : A → B) (l : list (A * B)) :
  Forall2 (λ a b, b = f a) (fst <$> l) (snd <$> l) →
  l = map (λ a, (a, f a)) (fst <$> l).
Proof.
  induction l as [|[a b] l IH]; simpl; [done|].
  intros Hall. apply Forall2_cons in Hall as [-> Hall]. f_equal. by apply IH.
Qed.

Section InstallAlone.

Context `{World W}.

Lemma Install_range_returns (fuel : nat) (servers : list Server) (w : W)
    (i : installer) :
  ∃ r, out_result (exec (Install_range fuel servers) w i) = Returned r.
Proof.
  revert w i. induction servers as [|s rest IH]; intros w i; simpl; [eauto|].
  destruct (servers_Update w (set_State StateStaging s)) as [w' [e|]];
    simpl; [eauto|]. apply IH.
Qed.

Lemma Install_returns (fuel : nat) (w : W) (i : installer) :
  ∃ r, out_result (exec (Install fuel) w i) = Returned r.
Proof.
  unfold Install. simpl.
  destruct (servers_ListState w StateCreated) as [w' [servers|e]]; simpl;
    [apply Install_range_returns|eauto].
Qed.

(** C1, as the code has it: when the store refuses the staging update of
    a server, [Install] makes no further call and returns the error of the
    store.  No goroutine is started for that server nor for those after
    it in the listing; one has been started for each server before it,
    whose staging update the store had accepted. *)
Theorem Install_stops_at_failed_staging (w : W) (i : installer)
    (fuel : nat) (pre post : list event) (s : Server) (e : error) :
  let o := exec (Install fuel) w i in
  out_trace o = pre ++ EvUpdate s (Some e) :: post →
  out_result o = Returned (Some e) ∧
  post = [] ∧
  ∃ past s0 rest,
    listed (out_trace o) = Some (past ++ s0 :: rest) ∧
    s = set_State StateStaging s0 ∧
    updates pre = staged_ok past ∧
    out_launched o
    = map (λ x, (x, worker fuel x)) (staged past).
Proof.
  intros o Htr.
  destruct (exec_runs _ (Install fuel) w i) as [Hruns Hfst]. fold o in Hruns, Hfst.
  destruct (follows_runs _ _ _ _ _ _ _ _ (Install_follows fuel) Hruns)
    as (m & Hacc & Hf & Hgos).
  rewrite Htr in Hacc.
  destruct (accepted_split _ _ _ _ _ _ Hacc) as (m1 & m2 & Hpre & Hd & Hpost).
  inversion Hd as [| |s0 rest|s0 rest e0| |]; subst.
  inversion Hpost as [|? ? ? ? ? Hd']; subst; [|inversion Hd'].
  destruct (main_trace _ _ Hpre) as (past & Hl & Hup & Hgo).
  split.
  { destruct (Install_returns fuel w i) as [r Hr]. fold o in Hr.
    rewrite Hr in Hf |- *. simpl in Hf. by rewrite Hf. }
  split; [done|]. exists past, s0, rest.
  split; [rewrite Htr; by destruct pre|]. split; [done|]. split; [done|].
  assert (Hargs : go_args (out_trace o) = staged past).
  { rewrite Htr. unfold go_args in *. rewrite omap_app, Hgo. simpl.
    by rewrite app_nil_r. }
  rewrite <- Hargs, <- Hfst. apply launched_of_args.
  rewrite Hfst. exact Hgos.
Qed.

End InstallAlone.

(* ================================================================== *)
(** * The installer struct across a bootstrap *)

Section Settings.

Context `{World W}.

Lemma same_settings_refl (i : installer) : same_settings i i.
Proof. by repeat split. Qed.

Lemma provision_volumes (c : APIClient) (instance : Server) (w : W)
    (i : installer) :
  let o := exec (provision c instance) w i in
  same_settings i (out_installer o) ∧
  wg (out_installer o) = wg i ∧
  (volumes (out_installer o) = volumes i ∨
   volumes (out_installer o) = volumes i ++ [docker_sock]) ∧
  Forall (appends_docker_sock i (out_installer o)) (out_trace o).
Proof.
  unfold provision. cbn [exec emit out_trace out_installer].
  destruct (docker_ImagePull w c (image i)) as [w1 [e|]]; cbn [fst snd].
  { simpl. split; [by repeat split|]. split; [done|].
    split; [by left|]. by repeat constructor. }
  cbn [exec emit out_trace out_installer].
  destruct (toVol _).
  2: { simpl. split; [by repeat split|]. split; [done|].
       split; [by right|]. by repeat constructor. }
  cbn [exec emit out_trace out_installer].
  destruct (docker_ContainerCreate _ _ _ _ _) as [w2 [id|e]]; cbn [fst snd].
  2: { simpl. split; [by repeat split|]. split; [done|].
       split; [by right|]. by repeat constructor. }
  cbn [exec emit out_trace out_installer].
  destruct (docker_ContainerStart _ _ _) as [w3 [e|]]; cbn [fst snd];
    simpl; (split; [by repeat split|]); (split; [done|]);
    (split; [by right|]); by repeat constructor.
Qed.

Lemma poller_volumes (fuel : nat) (c : APIClient) (instance : Server)
    (d : time.Duration) (w : W) (i : installer) :
  let o := exec (poller fuel c instance d) w i in
  same_settings i (out_installer o) ∧
  wg (out_installer o) = wg i ∧
  (volumes (out_installer o) = volumes i ∨
   volumes (out_installer o) = volumes i ++ [docker_sock]) ∧
  Forall (appends_docker_sock i (out_installer o)) (out_trace o).
Proof.
  revert d w. induction fuel as [|fuel IH]; intros d w.
  { simpl. split; [apply same_settings_refl|]. split; [done|].
    split; [by left|]. constructor. }
  cbn [poller exec emit out_trace out_installer].
  destruct (ctx_select w d) as [w1 [e|]]; cbn [fst snd].
  { simpl. split; [apply same_settings_refl|]. split; [done|].
    split; [by left|]. by repeat constructor. }
  cbn [exec emit out_trace out_installer].
  destruct (docker_ContainerList w1 c) as [w2 [e|]]; cbn [fst snd].
  - destruct (IH time.Minute w2) as (Hs & Hwg & Hv & Htr).
    split; [done|]. split; [done|]. split; [done|].
    do 2 (constructor; [exact I|]). exact Htr.
  - destruct (provision_volumes c instance w2 i) as (Hs & Hwg & Hv & Htr).
    split; [done|]. split; [done|]. split; [done|].
    do 2 (constructor; [exact I|]). exact Htr.
Qed.

Lemma install_volumes (fuel : nat) (instance : Server) (w : W)
    (i : installer) :
  let o := exec (install fuel instance) w i in
  same_settings i (out_installer o) ∧
  wg (out_installer o) = wg i ∧
  (volumes (out_installer o) = volumes i ∨
   volumes (out_installer o) = volumes i ++ [docker_sock]) ∧
  Forall (appends_docker_sock i (out_installer o)) (out_trace o).
Proof.
  unfold install. cbn [exec emit out_trace out_installer].
  destruct (client_func w instance) as [w1 [c|e]]; cbn [fst snd].
  - destruct (poller_volumes fuel c instance 0%Z w1 i)
      as (Hs & Hwg & Hv & Htr).
    split; [done|]. split; [done|]. split; [done|].
    constructor; [exact I|]. exact Htr.
  - simpl. split; [apply same_settings_refl|]. split; [done|].
    split; [by left|]. by repeat constructor.
Qed.

End Settings.

(* ================================================================== *)
(** * The claims on [Install] and on the installer struct *)

(** C3, as the code has it: a bootstrap leaves image, secret, host,
    scheme, keepalive timings and runner settings of the installer struct
    as they were, but not the bind list.  A bootstrap that gets past the
    image pull stores the list with the docker socket appended back into
    the struct, and creates the container with the longer list.  On the
    installer with the single bind "/data:/data" the list has two entries
    after the bootstrap of one server and three after the bootstrap of a
    second one, whose container is created with the docker socket bound
    twice. *)
Theorem install_appends_docker_sock :
  (∀ (W : Type) (HW : World W) (w : W) (i : installer) (fuel : nat)
     (instance : Server),
     let o := exec (install fuel instance) w i in
     same_settings i (out_installer o) ∧
     (volumes (out_installer o) = volumes i ∨
      volumes (out_installer o) = volumes i ++ [docker_sock]) ∧
     Forall (appends_docker_sock i (out_installer o)) (out_trace o)) ∧
  volumes
    (out_installer
       (exec (install 1 demo.a) (sim.calm [demo.a]) demo.data_agent))
  = ["/data:/data"; docker_sock] ∧
  volumes
    (out_installer
       (exec (install 1 demo.a) (sim.calm [demo.a]) demo.data_agent))
  ≠ volumes demo.data_agent ∧
  omap (λ ev, match ev with
              | EvContainerCreate _ _ hc _ _ => Some (container.Binds hc)
              | _ => None
              end)
    (out_trace
       (exec (install 1 demo.b)
          (out_world
             (exec (install 1 demo.a) (sim.calm [demo.a]) demo.data_agent))
          (out_installer
             (exec (install 1 demo.a) (sim.calm [demo.a]) demo.data_agent))))
  = [["/data:/data"; docker_sock; docker_sock]].
Proof.
  split.
  { intros W HW w i fuel instance.
    destruct (install_volumes fuel instance w i) as (Hs & _ & Hv & Htr).
    done. }
  split; [vm_compute; reflexivity|].
  split; [vm_compute; discriminate|].
  vm_compute. reflexivity.
Qed.

(** C1, as the specification states it, does not hold: with the servers
    "a" and "b" listed and a store that refuses the staging update of "b",
    [Install] returns the error of the store after it has started the
    goroutine of "a"; under the schedule that lets this goroutine run, the
    bootstrap of "a" goes through to the running state. *)
Lemma Install_launches_before_failed_staging :
  out_result (exec (Install 1) demo.b_locked (sim.agent []))
  = Returned (Some demo.store_locked) ∧
  fst <$> out_launched (exec (Install 1) demo.b_locked (sim.agent []))
  = [set_State StateStaging demo.a] ∧
  c_main
    (sched_run (replicate 5 Main ++ replicate 14 (Worker 0))
       (start (Install 1) demo.b_locked (sim.agent [])))
  = Ret (Some demo.store_locked) ∧
  history
    (sched_run (replicate 5 Main ++ replicate 14 (Worker 0))
       (start (Install 1) demo.b_locked (sim.agent []))) !! 13
  = Some (Worker 0,
          EvUpdate (set_State StateRunning (set_State StateStaging demo.a))
            None).
Proof. repeat split; vm_compute; reflexivity. Qed.

Lemma Install_stops_at_failed_staging_witness :
  out_result (exec (Install 1) demo.b_locked (sim.agent []))
  = Returned (Some demo.store_locked) ∧
  [] = @nil event ∧
  ∃ past s0 rest,
    listed (out_trace (exec (Install 1) demo.b_locked (sim.agent [])))
    = Some (past ++ s0 :: rest) ∧
    set_State StateStaging demo.b = set_State StateStaging s0 ∧
    updates
      [EvListState StateCreated (inl [demo.a; demo.b]);
       EvUpdate (set_State StateStaging demo.a) None;
       EvWgAdd 1;
       EvGo (set_State StateStaging demo.a)]
    = staged_ok past ∧
    out_launched (exec (Install 1) demo.b_locked (sim.agent []))
    = map (λ x, (x, worker 1 x)) (staged past).
Proof.
  apply (Install_stops_at_failed_staging demo.b_locked (sim.agent []) 1
           [EvListState StateCreated (inl [demo.a; demo.b]);
            EvUpdate (set_State StateStaging demo.a) None;
            EvWgAdd 1;
            EvGo (set_State StateStaging demo.a)]
           [] (set_State StateStaging demo.b) demo.store_locked).
  vm_compute. reflexivity.
Defined.


Lemma install_success_running_witness :
  ∃ r,
    drop 8 (out_trace (exec (install 1 demo.a) (sim.calm [demo.a])
                         (sim.agent [])))
    = [EvUpdate (set_State StateRunning demo.a) r] ∧
    out_result (exec (install 1 demo.a) (sim.calm [demo.a]) (sim.agent []))
    = Returned (set_State StateRunning demo.a, r) ∧
    Forall (λ ev, failure ev = None)
      (out_trace (exec (install 1 demo.a) (sim.calm [demo.a])
                    (sim.agent []))) ∧
    State (set_State StateRunning demo.a) = StateRunning ∧
    Error (set_State StateRunning demo.a) = Error demo.a ∧
    (Error demo.a = "" → Error (set_State StateRunning demo.a) = "").
Proof.
  apply (install_success_running (sim.calm [demo.a]) (sim.agent []) 1 demo.a
           (take 7 (out_trace (exec (install 1 demo.a) (sim.calm [demo.a])
                                 (sim.agent []))))
           (drop 8 (out_trace (exec (install 1 demo.a) (sim.calm [demo.a])
                                 (sim.agent []))))
           (docker_client 0) "container-id").
  vm_compute. reflexivity.
Defined.

Lemma probe_protocol_witness :
  attempts (out_trace (exec (install 3 demo.a) 2 (sim.agent []))) = 3 ∧
  out_result (exec (install 3 demo.a) 2 (sim.agent []))
  = Returned (set_State StateRunning demo.a, None).
Proof.
  apply (proj1 (proj2 probe_protocol) 2 3 demo.a (sim.agent [])). lia.
Defined.

Section Claims.

Context `{World W}.

(** C2, as the code has it: under every schedule, each event of a
    bootstrap goroutine comes after the go statement that started it and
    after the staging update of its own server, which the store has
    accepted; the staging updates follow the listing in order, one per
    server at most; and when [Install] returns nil every listed server
    has been updated exactly once, in the staging state, and has its
    goroutine. *)
Theorem staging_before_own_worker (w : W) (i : installer) (fuel : nat)
    (schedule : list tid) :
  let c := sched_run schedule (start (Install fuel) w i) in
  (∀ h1 n ev h2,
     history c = h1 ++ (Worker n, ev) :: h2 →
     ∃ servers s,
       listed (proj Main h1) = Some servers ∧ servers !! n = Some s ∧
       go_args (proj Main h1) !! n = Some (set_State StateStaging s) ∧
       updates (proj Main h1) !! n
       = Some (set_State StateStaging s, None)) ∧
  (∀ servers,
     listed (proj Main (history c)) = Some servers →
     ∃ k, fst <$> updates (proj Main (history c))
          = staged (take k servers)) ∧
  (∀ servers,
     listed (proj Main (history c)) = Some servers →
     c_main c = Ret None →
     updates (proj Main (history c)) = staged_ok servers ∧
     go_args (proj Main (history c)) = staged servers).
Proof.
  intros c. split; [|split].
  - intros h1 n ev h2 Hh. by eapply worker_event_after_staging.
  - intros servers Hl.
    destruct (Install_main_view fuel w i schedule) as (m & Hacc & _).
    destruct (main_summary _ _ _ Hacc Hl) as (past & Hpre & Hgo & Hup).
    assert (Htake : ∀ P, P `prefix_of` servers →
              staged P = staged (take (length P) servers)).
    { intros P [tail ->]. by rewrite take_app_length. }
    assert (Hfst : ∀ P, fst <$> staged_ok P = staged P).
    { intros P. unfold staged_ok, staged.
      rewrite <- list_fmap_compose. done. }
    destruct Hup as [Hup|(s0 & Hpre0 & [Hup|[e Hup]])]; fold c in Hup;
      rewrite Hup.
    + exists (length past). by rewrite Hfst, <- Htake.
    + exists (length (past ++ [s0])). by rewrite Hfst, <- Htake.
    + exists (length (past ++ [s0])). rewrite <- Htake by done.
      rewrite fmap_app, Hfst. unfold staged. by rewrite map_app.
  - intros servers Hl Hret.
    destruct (Install_main_view fuel w i schedule) as (m & Hacc & Hf).
    fold c in Hacc, Hf. rewrite Hret in Hf. simpl in Hf.
    pose proof (main_trace _ _ Hacc) as Hinv.
    destruct m as [|[|? ?]| | |]; try done.
    destruct Hinv as (past & Hl' & Hup & Hgo).
    rewrite Hl, app_nil_r in Hl'. by simplify_eq.
Qed.

(** C9: under every schedule, the values written to the record of a
    server that was listed in the created state with an empty error
    message follow the lifecycle: the first is the staging state, a
    second one is the running or the error state, and there is no other;
    none is the created state and none but the first is the staging
    state; the error message of each is non-empty exactly in the error
    state, as long as the errors of the failed steps have a text; and the
    goroutine of the server makes no step before the staging update of
    the server has been accepted. *)
Theorem lifecycle_one_directional (w : W) (i : installer) (fuel : nat)
    (schedule : list tid) (servers : list Server) (n : nat) (s : Server) :
  let h := history (sched_run schedule (start (Install fuel) w i)) in
  listed (proj Main h) = Some servers →
  servers !! n = Some s →
  State s = StateCreated →
  Error s = "" →
  Forall (λ ev, ∀ e, failure ev = Some e → Error_text e ≠ "")
    (proj (Worker n) h) →
  lifecycle s (record_writes n h) ∧
  (∀ k s', record_writes n h !! k = Some s' →
           State s' ≠ StateCreated ∧
           (0 < k → State s' ≠ StateStaging) ∧
           (Error s' ≠ "" ↔ State s' = StateError)) ∧
  (∀ h1 ev h2,
     h = h1 ++ (Worker n, ev) :: h2 →
     updates (proj Main h1) !! n = Some (set_State StateStaging s, None)).
Proof.
  intros h Hl Hs Hcreated Hempty Htexts.
  assert (Hcases := record_writes_cases w i fuel schedule servers n s Hl Hs).
  fold h in Hcases.
  assert (Hstaging : error_invariant (set_State StateStaging s)).
  { unfold error_invariant. simpl. rewrite Hempty. split; done. }
  assert (Hbooted : error_invariant (booted (set_State StateStaging s))).
  { unfold error_invariant. simpl. rewrite Hempty. split; done. }
  assert (Hfailed : ∀ e ev, ev ∈ proj (Worker n) h → failure ev = Some e →
            error_invariant (failed (set_State StateStaging s) e)).
  { intros e ev Hin He. unfold error_invariant. simpl. split; [done|].
    intros _. rewrite Forall_forall in Htexts. by eapply Htexts. }
  split; [|split].
  - destruct Hcases as [->|[->|[->|(e & ev & Hin & He & ->)]]]; simpl;
      rewrite ?Hcreated; repeat split; try constructor; try done;
      try apply Hstaging; try apply Hbooted; try (by eapply Hfailed);
      try (by apply Hstaging); try (by apply Hbooted).
    all: by eapply Hfailed.
  - intros k s' Hk.
    destruct Hcases as [Hw|[Hw|[Hw|(e & ev & Hin & He & Hw)]]];
      rewrite Hw in Hk;
      destruct k as [|[|k]]; simpl in Hk; simplify_eq;
      (split; [done|split; [intros; first [lia|done]|]]);
      first [apply Hstaging|apply Hbooted|by eapply Hfailed].
  - intros h1 ev h2 Hh.
    destruct (worker_event_after_staging fuel w i schedule h1 h2 n ev Hh)
      as (servers' & s' & Hl' & Hs' & _ & Hup).
    assert (listed (proj Main h) = Some servers') as Hl''.
    { fold h in Hh. rewrite Hh, proj_app.
      by destruct (proj Main h1). }
    rewrite Hl in Hl''. by simplify_eq.
Qed.

End Claims.

(** C2, as the specification states it, does not hold: with the servers
    "a" and "b" listed, the schedule below lets the goroutine of "a" build
    its docker client before [Install] has made the staging update of "b";
    and when the store refuses the update of "b", that server is listed in
    the created state and its staging is never committed. *)
Lemma worker_step_before_later_staging :
  history
    (sched_run [Main; Main; Main; Main; Worker 0; Main]
       (start (Install 1) (sim.calm [demo.a; demo.b]) (sim.agent [])))
  = [(Main, EvListState StateCreated (inl [demo.a; demo.b]));
     (Main, EvUpdate (set_State StateStaging demo.a) None);
     (Main, EvWgAdd 1);
     (Main, EvGo (set_State StateStaging demo.a));
     (Worker 0,
      EvClient (set_State StateStaging demo.a) (inl (docker_client 0)));
     (Main, EvUpdate (set_State StateStaging demo.b) None)] ∧
  updates (out_trace (exec (Install 1) demo.b_locked (sim.agent [])))
  = [(set_State StateStaging demo.a, None);
     (set_State StateStaging demo.b, Some demo.store_locked)] ∧
  sim.store (out_world (exec (Install 1) demo.b_locked (sim.agent [])))
  = [set_State StateStaging demo.a; demo.b].
Proof. repeat split; vm_compute; reflexivity. Qed.

Lemma staging_before_own_worker_witness :
  ∃ servers s,
    listed
      (proj Main
         [(Main, EvListState StateCreated (inl [demo.a; demo.b]));
          (Main, EvUpdate (set_State StateStaging demo.a) None);
          (Main, EvWgAdd 1);
          (Main, EvGo (set_State StateStaging demo.a))])
    = Some servers ∧
    servers !! 0 = Some s ∧
    go_args
      (proj Main
         [(Main, EvListState StateCreated (inl [demo.a; demo.b]));
          (Main, EvUpdate (set_State StateStaging demo.a) None);
          (Main, EvWgAdd 1);
          (Main, EvGo (set_State StateStaging demo.a))]) !! 0
    = Some (set_State StateStaging s) ∧
    updates
      (proj Main
         [(Main, EvListState StateCreated (inl [demo.a; demo.b]));
          (Main, EvUpdate (set_State StateStaging demo.a) None);
          (Main, EvWgAdd 1);
          (Main, EvGo (set_State StateStaging demo.a))]) !! 0
    = Some (set_State StateStaging s, None).
Proof.
  apply (proj1 (staging_before_own_worker (sim.calm [demo.a; demo.b])
                  (sim.agent []) 1 [Main; Main; Main; Main; Worker 0])
           _ 0
           (EvClient (set_State StateStaging demo.a) (inl (docker_client 0)))
           []).
  vm_compute. reflexivity.
Defined.

Lemma lifecycle_one_directional_witness :
  lifecycle demo.a
    (record_writes 0
       (history
          (sched_run (replicate 5 Main ++ replicate 9 (Worker 0))
             (start (Install 2) demo.no_pull (sim.agent []))))) ∧
  (∀ k s',
     record_writes 0
       (history
          (sched_run (replicate 5 Main ++ replicate 9 (Worker 0))
             (start (Install 2) demo.no_pull (sim.agent [])))) !! k
     = Some s' →
     State s' ≠ StateCreated ∧
     (0 < k → State s' ≠ StateStaging) ∧
     (Error s' ≠ "" ↔ State s' = StateError)) ∧
  (∀ h1 ev h2,
     history
       (sched_run (replicate 5 Main ++ replicate 9 (Worker 0))
          (start (Install 2) demo.no_pull (sim.agent [])))
     = h1 ++ (Worker 0, ev) :: h2 →
     updates (proj Main h1) !! 0
     = Some (set_State StateStaging demo.a, None)).
Proof.
  apply (lifecycle_one_directional demo.no_pull (sim.agent []) 2
           (replicate 5 Main ++ replicate 9 (Worker 0)) [demo.a] 0 demo.a).
  - vm_compute. reflexivity.
  - reflexivity.
  - reflexivity.
  - reflexivity.
  - vm_compute. repeat constructor; intros e Heq; try discriminate Heq;
      injection Heq as <-; discriminate.
Defined.

Example record_writes_failed_pull :
  record_writes 0
    (history
       (sched_run (replicate 5 Main ++ replicate 9 (Worker 0))
          (start (Install 2) demo.no_pull (sim.agent []))))
  = [set_State StateStaging demo.a;
     failed (set_State StateStaging demo.a) demo.pull_denied].
Proof. vm_compute. reflexivity. Qed.

(* ================================================================== *)
(** * Further properties of the volume helpers *)

Lemma bind_pattern_expr :
  regexp.expr bind_pattern
  = regexp.OpConcat
      (regexp.OpConcat
         (regexp.OpConcat
            (regexp.OpConcat regexp.OpBeginText (regexp.OpCapture 1 path_re))
            (regexp.OpLiteral ":"))
         (regexp.OpCapture 2 path_re))
      mode_re.
Proof. reflexivity. Qed.

Lemma no_colon_matches (c : ascii) :
  c ≠ ":"%char → regexp.class_matches true [regexp.ClassChar ":"] c = true.
Proof.
  intros Hc. unfold regexp.class_matches. simpl.
  destruct (Ascii.eqb_spec c ":"); [done|reflexivity].
Qed.

Lemma no_colon_rejects :
  regexp.class_matches true [regexp.ClassChar ":"] ":" = false.
Proof. reflexivity. Qed.

(** A greedy star over a class takes all of a prefix made of characters of
    the class when the rest does not begin with one, provided the
    continuation answers there. *)
Lemma star_class_greedy (neg : bool) (items : list regexp.class_item)
    (pre rest : list ascii) (pos : nat) (caps : regexp.captures)
    (k : regexp.cont) (res : regexp.captures) :
  Forall (λ c, regexp.class_matches neg items c = true) pre →
  match rest with
  | [] => True
  | c :: _ => regexp.class_matches neg items c = false
  end →
  k (pos + length pre) rest caps = Some res →
  regexp.run (regexp.OpStar (regexp.OpCharClass neg items)) pos
    (pre ++ rest) caps k = Some res.
Proof.
  intros Hpre Hrest Hk. cbn [regexp.run].
  assert (Hfuel : length pre ≤ length (pre ++ rest))
    by (rewrite length_app; lia).
  revert Hfuel. generalize (length (pre ++ rest)). intros fuel.
  revert fuel pos Hk. induction Hpre as [|c pre Hc Hpre IH];
    intros fuel pos Hk Hfuel; cbn [app length] in *.
  - rewrite Nat.add_0_r in Hk. destruct fuel as [|fuel]; [done|].
    destruct rest as [|c rest]; [done|]. by rewrite Hrest.
  - destruct fuel as [|fuel]; [lia|]. rewrite Hc.
    assert (Hne : Nat.eqb (S pos) pos = false) by (apply Nat.eqb_neq; lia).
    rewrite Hne. rewrite (IH fuel (S pos)); [done| |lia].
    by rewrite Nat.add_succ_comm.
Qed.

(** A star over a class followed by a continuation that answers after a
    prefix made of characters of the class has an answer. *)
Lemma star_class_some (neg : bool) (items : list regexp.class_item)
    (pre rest : list ascii) (pos : nat) (caps : regexp.captures)
    (k : regexp.cont) :
  Forall (λ c, regexp.class_matches neg items c = true) pre →
  is_Some (k (pos + length pre) rest caps) →
  is_Some (regexp.run (regexp.OpStar (regexp.OpCharClass neg items)) pos
             (pre ++ rest) caps k).
Proof.
  intros Hpre Hk. cbn [regexp.run].
  assert (Hfuel : length pre ≤ length (pre ++ rest))
    by (rewrite length_app; lia).
  revert Hfuel. generalize (length (pre ++ rest)). intros fuel.
  revert fuel pos Hk. induction Hpre as [|c pre Hc Hpre IH];
    intros fuel pos Hk Hfuel; cbn [app length] in *.
  - rewrite Nat.add_0_r in Hk. destruct fuel as [|fuel]; [done|].
    destruct rest as [|c rest]; [done|].
    destruct (regexp.class_matches neg items c); [|done].
    match goal with |- is_Some (match ?x with _ => _ end) =>
      destruct x; [eauto|done] end.
  - destruct fuel as [|fuel]; [lia|]. rewrite Hc.
    assert (Hne : Nat.eqb (S pos) pos = false) by (apply Nat.eqb_neq; lia).
    rewrite Hne.
    destruct (IH fuel (S pos)) as [res ->]; [|lia|eauto].
    by rewrite Nat.add_succ_comm.
Qed.

Lemma quest_some (r : regexp.Regexp) (pos : nat) (s : list ascii)
    (caps : regexp.captures) (k : regexp.cont) :
  is_Some (k pos s caps) → is_Some (regexp.run (regexp.OpQuest r) pos s caps k).
Proof.
  intros Hk. cbn [regexp.run].
  destruct (regexp.run r pos s caps k); [eauto|done].
Qed.

Lemma colon_free_no_colon (s : list ascii) :
  colon_free s →
  Forall (λ c, regexp.class_matches true [regexp.ClassChar ":"] c = true) s.
Proof.
  intros Hs. apply Forall_forall. intros c Hc. apply no_colon_matches.
  intros ->. by apply Hs.
Qed.

Lemma path_re_some (pre rest : list ascii) (pos : nat)
    (caps : regexp.captures) (k : regexp.cont) :
  colon_free pre →
  is_Some (k (pos + length pre) rest caps) →
  is_Some (regexp.run path_re pos (pre ++ rest) caps k).
Proof.
  intros Hpre Hk.
  change (regexp.run path_re pos (pre ++ rest) caps k)
    with (regexp.run (regexp.OpQuest drive_re) pos (pre ++ rest) caps
            (λ pos' s' caps',
               regexp.run (regexp.OpStar no_colon_re) pos' s' caps' k)).
  apply quest_some. apply star_class_some; [|done].
  by apply colon_free_no_colon.
Qed.

Lemma path_re_answers (pos : nat) (s : list ascii) (caps : regexp.captures)
    (k : regexp.cont) :
  answers k → is_Some (regexp.run path_re pos s caps k).
Proof.
  intros Hk. apply (path_re_some [] s); [by intros ?%elem_of_nil|].
  apply Hk.
Qed.

(** The pattern matches every text that has a colon. *)
Lemma search_colon (s : list ascii) :
  ":"%char ∈ s → is_Some (regexp.search (regexp.expr bind_pattern) 0 s).
Proof.
  intros Hin.
  destruct (list_elem_of_split_l _ _ Hin) as (pre & rest & -> & Hpre).
  assert (is_Some
            (regexp.run (regexp.OpCapture 0 (regexp.expr bind_pattern)) 0
               (pre ++ ":"%char :: rest) [] (λ _ _ caps, Some caps)))
    as [caps Hcaps].
  { rewrite bind_pattern_expr. cbn [regexp.run Nat.eqb].
    apply path_re_some; [done|].
    cbn [regexp.run]. rewrite Ascii.eqb_refl.
    apply path_re_answers. intros pos s caps. unfold mode_re.
    by apply quest_some. }
  destruct pre as [|c pre]; cbn [regexp.search app] in *; by rewrite Hcaps.
Qed.

(** The pattern matches exactly the texts that have a colon. *)
Lemma MatchString_colon (s : string) :
  regexp.MatchString bind_pattern s = true ↔
  ":"%char ∈ list_ascii_of_string s.
Proof.
  unfold regexp.MatchString. rewrite bool_decide_eq_true. split.
  - intros Hm. destruct (decide (":"%char ∈ list_ascii_of_string s)) as [|Hn];
      [done|].
    rewrite search_colon_free in Hm by done. by destruct Hm.
  - apply search_colon.
Qed.

Lemma FindStringSubmatch_length (s : string) :
  regexp.MatchString bind_pattern s = true →
  length (regexp.FindStringSubmatch bind_pattern s) = 4.
Proof.
  unfold regexp.MatchString, regexp.FindStringSubmatch.
  rewrite bool_decide_eq_true. intros [caps ->]. reflexivity.
Qed.

Lemma splitVolumeParts_colon (path : string) :
  ":"%char ∈ list_ascii_of_string path →
  ∃ parts,
    splitVolumeParts path = Some (parts, None) ∧
    length parts ≤ 3 ∧ Forall (λ part, part ≠ "") parts.
Proof.
  intros Hcolon. rewrite splitVolumeParts_unfold.
  pose proof (proj2 (MatchString_colon path) Hcolon) as Hm. rewrite Hm.
  pose proof (FindStringSubmatch_length path Hm) as Hlen.
  destruct (regexp.FindStringSubmatch bind_pattern path)
    as [|whole groups]; [done|].
  simpl in *. eexists. split; [done|]. split.
  - etrans; [apply length_filter|]. lia.
  - apply Forall_forall. intros part Hin.
    by apply list_elem_of_filter in Hin as [? _].
Qed.

(** X1: [splitVolumeParts] takes its fallback exactly for the entries
    without a colon, and then returns the entry itself as the only
    component; for an entry with a colon it returns at most three
    components, none of them empty.  It never returns an error. *)
Theorem splitVolumeParts_components (path : string) :
  ∃ parts,
    splitVolumeParts path = Some (parts, None) ∧
    if decide (":"%char ∈ list_ascii_of_string path)
    then length parts ≤ 3 ∧ Forall (λ part, part ≠ "") parts
    else parts = [path].
Proof.
  case_decide as Hcolon.
  - by apply splitVolumeParts_colon.
  - exists [path]. split; [|done]. by apply splitVolumeParts_colon_free.
Qed.

(** *** Entries of two and three components *)

Lemma list_ascii_of_string_app (a b : string) :
  list_ascii_of_string (a +:+ b)
  = list_ascii_of_string a ++ list_ascii_of_string b.
Proof. induction a as [|c a IH]; simpl; [done|]. by rewrite IH. Qed.

Lemma list_ascii_of_string_nonempty (a : string) :
  a ≠ "" → list_ascii_of_string a ≠ [].
Proof. by destruct a. Qed.

(** The drive prefix does not match a colon-free text followed by a colon
    or by the end, unless the text is one word character and a colon
    follows. *)
Lemma drive_re_fails (p rest : list ascii) (pos : nat)
    (caps : regexp.captures) (k : regexp.cont) :
  colon_free p →
  match rest with
  | [] => True
  | c :: _ => c = ":"%char ∧ ¬ drive_letter p
  end →
  regexp.run drive_re pos (p ++ rest) caps k = None.
Proof.
  intros Hp Hrest. unfold drive_re. cbn [regexp.run].
  destruct p as [|c1 [|c2 p]]; cbn [app].
  - destruct rest as [|c rest]; [done|]. by destruct Hrest as [-> _].
  - destruct (regexp.class_matches false [regexp.ClassWord] c1) eqn:Hc;
      [|done].
    destruct rest as [|c rest]; [done|]. destruct Hrest as [-> Hnd].
    exfalso. apply Hnd. exists c1. split; [done|].
    unfold regexp.class_matches in Hc. simpl in Hc.
    by rewrite orb_false_r in Hc.
  - destruct (regexp.class_matches false [regexp.ClassWord] c1); [|done].
    destruct (Ascii.eqb_spec ":" c2) as [<-|_]; [|done].
    exfalso. apply Hp. right. left.
Qed.

(** A path group in front of a colon or of the end takes the whole
    colon-free text when that text is not read as a drive prefix. *)
Lemma path_re_plain (p rest : list ascii) (pos : nat)
    (caps : regexp.captures) (k : regexp.cont) (res : regexp.captures) :
  colon_free p →
  match rest with
  | [] => True
  | c :: _ => c = ":"%char ∧ ¬ drive_letter p
  end →
  k (pos + length p) rest caps = Some res →
  regexp.run path_re pos (p ++ rest) caps k = Some res.
Proof.
  intros Hp Hrest Hk.
  change (regexp.run path_re pos (p ++ rest) caps k)
    with (match regexp.run drive_re pos (p ++ rest) caps
                  (λ pos' s' caps',
                     regexp.run (regexp.OpStar no_colon_re) pos' s' caps' k)
          with
          | Some r => Some r
          | None => regexp.run (regexp.OpStar no_colon_re) pos (p ++ rest)
                      caps k
          end).
  rewrite drive_re_fails by done.
  apply star_class_greedy; [by apply colon_free_no_colon| |done].
  destruct rest as [|c rest]; [done|]. by destruct Hrest as [-> _].
Qed.

(** A path group in front of the only colon of the text takes the whole
    colon-free text before it, drive letter or not, when the continuation
    needs a colon. *)
Lemma path_re_last_colon (p rest : list ascii) (pos : nat)
    (caps : regexp.captures) (k : regexp.cont) (res : regexp.captures) :
  colon_free p →
  colon_free rest →
  (∀ pos' s' caps', colon_free s' → k pos' s' caps' = None) →
  k (pos + length p) (":"%char :: rest) caps = Some res →
  regexp.run path_re pos (p ++ ":"%char :: rest) caps k = Some res.
Proof.
  intros Hp Hrest Hfail Hk.
  change (regexp.run path_re pos (p ++ ":"%char :: rest) caps k)
    with (match regexp.run drive_re pos (p ++ ":"%char :: rest) caps
                  (λ pos' s' caps',
                     regexp.run (regexp.OpStar no_colon_re) pos' s' caps' k)
          with
          | Some r => Some r
          | None => regexp.run (regexp.OpStar no_colon_re) pos
                      (p ++ ":"%char :: rest) caps k
          end).
  assert (regexp.run drive_re pos (p ++ ":"%char :: rest) caps
            (λ pos' s' caps',
               regexp.run (regexp.OpStar no_colon_re) pos' s' caps' k)
          = None) as ->.
  { remember (λ pos' s' caps',
                regexp.run (regexp.OpStar no_colon_re) pos' s' caps' k)
      as kstar eqn:Hkstar.
    unfold drive_re. cbn [regexp.run].
    destruct p as [|c1 [|c2 p]]; cbn [app].
    - done.
    - destruct (regexp.class_matches false [regexp.ClassWord] c1); [|done].
      rewrite Ascii.eqb_refl. subst kstar. by apply run_fails.
    - destruct (regexp.class_matches false [regexp.ClassWord] c1); [|done].
      destruct (Ascii.eqb_spec ":" c2) as [<-|_]; [|done].
      exfalso. apply Hp. right. left. }
  apply star_class_greedy; [by apply colon_free_no_colon|done|done].
Qed.

Lemma mode_re_end (pos : nat) (caps : regexp.captures) (k : regexp.cont) :
  regexp.run mode_re pos [] caps k = k pos [] caps.
Proof. reflexivity. Qed.

Lemma mode_re_mode (m : list ascii) (pos : nat) (caps : regexp.captures)
    (k : regexp.cont) (res : regexp.captures) :
  mode_chars m →
  k (S pos + length m) [] ((3, m) :: caps) = Some res →
  regexp.run mode_re pos (":"%char :: m) caps k = Some res.
Proof.
  intros Hm Hk. unfold mode_re.
  change (regexp.run _ pos (":"%char :: m) caps k)
    with (match regexp.run
                  (regexp.OpStar (regexp.OpCharClass false mode_class))
                  (S pos) m caps
                  (λ pos' s' caps',
                     k pos' s' ((3, take (pos' - S pos) m) :: caps'))
          with
          | Some r => Some r
          | None => k pos (":"%char :: m) caps
          end).
  rewrite <- (app_nil_r m) at 1.
  rewrite (star_class_greedy _ _ m [] _ _ _ res); [done|done|done|].
  replace (S pos + length m - S pos) with (length m) by lia.
  by rewrite firstn_all.
Qed.

Lemma path_re_end (p : list ascii) (pos : nat) (caps : regexp.captures)
    (k : regexp.cont) (res : regexp.captures) :
  colon_free p →
  k (pos + length p) [] caps = Some res →
  regexp.run path_re pos p caps k = Some res.
Proof.
  intros Hp Hk. pose proof (path_re_plain p [] pos caps k res Hp I Hk) as Hrun.
  by rewrite app_nil_r in Hrun.
Qed.

Lemma path_re_drive (d : ascii) (q rest : list ascii) (pos : nat)
    (caps : regexp.captures) (k : regexp.cont) (res : regexp.captures) :
  regexp.is_word_char d = true →
  colon_free q →
  match rest with
  | [] => True
  | c :: _ => c = ":"%char
  end →
  k (pos + length (d :: ":"%char :: q)) rest caps = Some res →
  regexp.run path_re pos ((d :: ":"%char :: q) ++ rest) caps k = Some res.
Proof.
  intros Hd Hq Hrest Hk.
  change (regexp.run path_re pos ((d :: ":"%char :: q) ++ rest) caps k)
    with (match (if regexp.class_matches false [regexp.ClassWord] d
                 then regexp.run (regexp.OpStar no_colon_re) (S (S pos))
                        (q ++ rest) caps k
                 else None)
          with
          | Some r => Some r
          | None => regexp.run (regexp.OpStar no_colon_re) pos
                      ((d :: ":"%char :: q) ++ rest) caps k
          end).
  assert (regexp.class_matches false [regexp.ClassWord] d = true) as ->.
  { unfold regexp.class_matches. simpl. by rewrite Hd. }
  unfold no_colon_re at 1.
  rewrite (star_class_greedy _ _ q rest _ _ _ res); [done| | |].
  - by apply colon_free_no_colon.
  - destruct rest as [|c rest]; [done|]. by rewrite Hrest.
  - rewrite <- Hk. f_equal. simpl. lia.
Qed.

(** A path group takes a whole path text in front of a colon or of the
    end. *)
Lemma path_re_path (p rest : list ascii) (pos : nat)
    (caps : regexp.captures) (k : regexp.cont) (res : regexp.captures) :
  path_text p →
  match rest with
  | [] => True
  | c :: _ => c = ":"%char
  end →
  k (pos + length p) rest caps = Some res →
  regexp.run path_re pos (p ++ rest) caps k = Some res.
Proof.
  intros [[Hp Hnd]|(d & q & -> & Hd & Hq)] Hrest Hk.
  - apply path_re_plain; [done| |done]. by destruct rest.
  - by apply path_re_drive.
Qed.

Lemma path_re_path_end (p : list ascii) (pos : nat)
    (caps : regexp.captures) (k : regexp.cont) (res : regexp.captures) :
  path_text p →
  k (pos + length p) [] caps = Some res →
  regexp.run path_re pos p caps k = Some res.
Proof.
  intros Hp Hk. pose proof (path_re_path p [] pos caps k res Hp I Hk) as Hrun.
  by rewrite app_nil_r in Hrun.
Qed.

Lemma search_head (r : regexp.Regexp) (pos : nat) (s : list ascii)
    (caps : regexp.captures) :
  regexp.run (regexp.OpCapture 0 r) pos s [] (λ _ _ caps, Some caps)
  = Some caps →
  regexp.search r pos s = Some caps.
Proof. intros Hrun. destruct s; cbn [regexp.search]; by rewrite Hrun. Qed.

Lemma take_app_exact {A} (l k : list A) (n : nat) :
  n = length l → take n (l ++ k) = l.
Proof. intros ->. apply take_app_length. Qed.

Lemma take_whole {A} (l : list A) (n : nat) :
  length l ≤ n → take n l = l.
Proof. apply take_ge. Qed.

(** The submatches of "source:target". *)
Lemma search_source_target (src tgt : list ascii) :
  path_text src ∨ (colon_free src ∧ colon_free tgt) →
  colon_free tgt ∨ drive_path tgt →
  regexp.search (regexp.expr bind_pattern) 0 (src ++ ":"%char :: tgt)
  = Some [(0, src ++ ":"%char :: tgt); (2, tgt); (1, src)].
Proof.
  intros Hsrc Htgt. apply search_head.
  rewrite bind_pattern_expr. cbn [regexp.run Nat.eqb].
  assert (Hend : ∀ caps,
            regexp.run mode_re (S (length src) + length tgt) []
              ((2, take (S (length src) + length tgt - S (length src)) tgt)
               :: (1, src) :: caps)
              (λ pos'' _ caps'',
                 Some ((0, take (pos'' - 0) (src ++ ":"%char :: tgt))
                       :: caps''))
            = Some ((0, src ++ ":"%char :: tgt) :: (2, tgt) :: (1, src)
                    :: caps)).
  { intros caps. rewrite mode_re_end. f_equal. f_equal; [f_equal|f_equal].
    - apply take_whole. rewrite length_app. simpl. lia.
    - f_equal. apply take_whole. lia. }
  assert (Htake : take (0 + length src - 0) (src ++ ":"%char :: tgt) = src)
    by (apply take_app_exact; lia).
  assert (Htail : ∀ caps,
            regexp.run path_re (S (0 + length src)) tgt ((1, src) :: caps)
              (λ pos' s' caps',
                 regexp.run mode_re pos' s'
                   ((2, take (pos' - S (0 + length src)) tgt) :: caps')
                   (λ pos'' _ caps'',
                      Some ((0, take (pos'' - 0) (src ++ ":"%char :: tgt))
                            :: caps'')))
            = Some ((0, src ++ ":"%char :: tgt) :: (2, tgt) :: (1, src)
                    :: caps)).
  { intros caps. destruct Htgt as [Ht|Ht].
    - apply path_re_end; [done|]. apply Hend.
    - apply path_re_path_end; [by right|]. apply Hend. }
  destruct Hsrc as [Hs|[Hs Ht]].
  - apply path_re_path; [done|done|].
    rewrite Ascii.eqb_refl, Htake. apply Htail.
  - apply path_re_last_colon; [done|done| |].
    + intros pos' s' caps' Hs'. destruct s' as [|c s']; [done|].
      destruct (Ascii.eqb_spec ":" c) as [<-|_]; [|done].
      exfalso. apply Hs'. left.
    + rewrite Ascii.eqb_refl, Htake. apply Htail.
Qed.

(** The submatches of "source:target:mode". *)
Lemma search_source_target_mode (src tgt mode : list ascii) :
  path_text src → path_text tgt → mode_chars mode →
  regexp.search (regexp.expr bind_pattern) 0
    (src ++ ":"%char :: tgt ++ ":"%char :: mode)
  = Some [(0, src ++ ":"%char :: tgt ++ ":"%char :: mode); (3, mode);
          (2, tgt); (1, src)].
Proof.
  intros Hs Ht Hm. apply search_head.
  rewrite bind_pattern_expr. cbn [regexp.run Nat.eqb].
  apply path_re_path; [done|done|].
  rewrite Ascii.eqb_refl.
  apply path_re_path; [done|done|].
  apply mode_re_mode; [done|].
  repeat f_equal;
    first [ apply take_app_exact; simpl; lia
          | apply take_whole; rewrite ?length_app; simpl;
            rewrite ?length_app; simpl; lia ].
Qed.

Lemma list_ascii_of_colon (a : string) :
  list_ascii_of_string (":" +:+ a) = ":"%char :: list_ascii_of_string a.
Proof. reflexivity. Qed.

Lemma capture_of_two (whole g1 g2 : list ascii) :
  regexp.capture_of [(0, whole); (2, g2); (1, g1)] 1 = g1 ∧
  regexp.capture_of [(0, whole); (2, g2); (1, g1)] 2 = g2 ∧
  regexp.capture_of [(0, whole); (2, g2); (1, g1)] 3 = [].
Proof. done. Qed.

Lemma capture_of_three (whole g1 g2 g3 : list ascii) :
  regexp.capture_of [(0, whole); (3, g3); (2, g2); (1, g1)] 1 = g1 ∧
  regexp.capture_of [(0, whole); (3, g3); (2, g2); (1, g1)] 2 = g2 ∧
  regexp.capture_of [(0, whole); (3, g3); (2, g2); (1, g1)] 3 = g3.
Proof. done. Qed.

Lemma filter_nonempty_cons (x : string) (l : list string) :
  x ≠ "" → filter (λ item, item ≠ "") (x :: l)
           = x :: filter (λ item, item ≠ "") l.
Proof. intros Hx. by rewrite filter_cons, decide_True. Qed.

Lemma splitVolumeParts_of_search (path : string) (caps : regexp.captures) :
  regexp.search (regexp.expr bind_pattern) 0 (list_ascii_of_string path)
  = Some caps →
  splitVolumeParts path
  = Some (filter (λ item, item ≠ "")
            [string_of_list_ascii (regexp.capture_of caps 1);
             string_of_list_ascii (regexp.capture_of caps 2);
             string_of_list_ascii (regexp.capture_of caps 3)], None).
Proof.
  intros Hsearch. rewrite splitVolumeParts_unfold.
  unfold regexp.MatchString, regexp.FindStringSubmatch. rewrite Hsearch.
  rewrite bool_decide_eq_true_2 by eauto. reflexivity.
Qed.

Lemma toVol_singleton (path : string) (parts : list string) (target : string) :
  splitVolumeParts path = Some (parts, None) →
  parts !! 1 = Some target →
  toVol [path] = Some {[ target ]}.
Proof.
  intros Hsplit Htarget. unfold toVol. simpl. rewrite Hsplit. simpl.
  rewrite bool_decide_eq_false_2
    by (apply lookup_lt_Some in Htarget; lia).
  rewrite Htarget. simpl. by rewrite (right_id_L ∅ (∪)).
Qed.

Lemma splitVolumeParts_two (src tgt : string) :
  src ≠ "" → tgt ≠ "" →
  path_text (list_ascii_of_string src) ∨
  (colon_free (list_ascii_of_string src) ∧
   colon_free (list_ascii_of_string tgt)) →
  colon_free (list_ascii_of_string tgt) ∨
  drive_path (list_ascii_of_string tgt) →
  splitVolumeParts (src +:+ ":" +:+ tgt) = Some ([src; tgt], None).
Proof.
  intros Hsrc Htgt Hs Ht.
  erewrite splitVolumeParts_of_search; cycle 1.
  { rewrite list_ascii_of_string_app, list_ascii_of_colon.
    by apply search_source_target. }
  destruct (capture_of_two
              (list_ascii_of_string src
               ++ ":"%char :: list_ascii_of_string tgt)
              (list_ascii_of_string src) (list_ascii_of_string tgt))
    as (-> & -> & ->).
  rewrite !string_of_list_ascii_of_string.
  rewrite (filter_nonempty_cons src), (filter_nonempty_cons tgt) by done.
  reflexivity.
Qed.

(** X2: an entry "source:target" whose source and target are not empty
    splits into exactly its source and its target, and contributes its
    target to the bind set, when the target is free of colons or is a drive
    prefix with a colon-free path, and the source is a path text (colon-free
    and not a single word character, or a drive prefix with a colon-free
    path) or both are free of colons. *)
Theorem splitVolumeParts_source_target (src tgt : string) :
  src ≠ "" → tgt ≠ "" →
  path_text (list_ascii_of_string src) ∨
  (colon_free (list_ascii_of_string src) ∧
   colon_free (list_ascii_of_string tgt)) →
  colon_free (list_ascii_of_string tgt) ∨
  drive_path (list_ascii_of_string tgt) →
  splitVolumeParts (src +:+ ":" +:+ tgt) = Some ([src; tgt], None) ∧
  toVol [src +:+ ":" +:+ tgt] = Some {[ tgt ]}.
Proof.
  intros Hsrc Htgt Hs Ht.
  pose proof (splitVolumeParts_two src tgt Hsrc Htgt Hs Ht) as Hsplit.
  split; [done|]. by eapply toVol_singleton.
Qed.

(** X3: an entry "source:target:mode" whose source and target are path
    texts and whose mode is a non-empty word over the letters r, w, o and m
    splits into exactly source, target and mode, and contributes its
    target. *)
Theorem splitVolumeParts_source_target_mode (src tgt mode : string) :
  src ≠ "" → tgt ≠ "" → mode ≠ "" →
  path_text (list_ascii_of_string src) →
  path_text (list_ascii_of_string tgt) →
  mode_chars (list_ascii_of_string mode) →
  splitVolumeParts (src +:+ ":" +:+ tgt +:+ ":" +:+ mode)
  = Some ([src; tgt; mode], None) ∧
  toVol [src +:+ ":" +:+ tgt +:+ ":" +:+ mode] = Some {[ tgt ]}.
Proof.
  intros Hsrc Htgt Hmode Hs Ht Hm.
  assert (Hsplit : splitVolumeParts (src +:+ ":" +:+ tgt +:+ ":" +:+ mode)
                   = Some ([src; tgt; mode], None)).
  { erewrite splitVolumeParts_of_search; cycle 1.
    { rewrite list_ascii_of_string_app, list_ascii_of_colon.
      rewrite list_ascii_of_string_app, list_ascii_of_colon.
      by apply search_source_target_mode. }
    destruct (capture_of_three
                (list_ascii_of_string src
                 ++ ":"%char :: list_ascii_of_string tgt
                 ++ ":"%char :: list_ascii_of_string mode)
                (list_ascii_of_string src) (list_ascii_of_string tgt)
                (list_ascii_of_string mode))
      as (-> & -> & ->).
    rewrite !string_of_list_ascii_of_string.
    rewrite (filter_nonempty_cons src), (filter_nonempty_cons tgt),
      (filter_nonempty_cons mode) by done.
    reflexivity. }
  split; [done|]. by eapply toVol_singleton.
Qed.

(** X4: an entry whose source is a single word character and that has a
    third component loses its target: source and target are read as a drive
    prefix and its path, and the third component is taken for the target
    and put into the bind set. *)
Theorem splitVolumeParts_one_letter_source (c : ascii) (tgt third : string) :
  regexp.is_word_char c = true →
  third ≠ "" →
  colon_free (list_ascii_of_string tgt) →
  colon_free (list_ascii_of_string third) →
  splitVolumeParts (String c (":" +:+ tgt) +:+ ":" +:+ third)
  = Some ([String c (":" +:+ tgt); third], None) ∧
  toVol [String c (":" +:+ tgt) +:+ ":" +:+ third] = Some {[ third ]}.
Proof.
  intros Hc Hthird Htgt Hth.
  assert (Hsplit : splitVolumeParts (String c (":" +:+ tgt) +:+ ":" +:+ third)
                   = Some ([String c (":" +:+ tgt); third], None)).
  { apply splitVolumeParts_two; [done|done| |by left].
    left. right. by exists c, (list_ascii_of_string tgt). }
  split; [done|]. by eapply toVol_singleton.
Qed.

(** *** The bind set as a set *)

Lemma toVol_loop_step (path : string) (paths : list string)
    (set : gset string) :
  (¬ (∃ target, contributes path target) ∧
   toVol_loop (path :: paths) set = toVol_loop paths set) ∨
  (∃ target, contributes path target ∧
     (∀ t, contributes path t → t = target) ∧
     toVol_loop (path :: paths) set
     = toVol_loop paths ({[ target ]} ∪ set)).
Proof.
  destruct (splitVolumeParts_total path) as [parts Hsplit].
  destruct (decide (length parts < 2)) as [Hlen|Hlen].
  - left. split; [|by eapply toVol_loop_skip].
    intros (t & parts' & Hsplit' & Ht). rewrite Hsplit in Hsplit'.
    simplify_eq. apply lookup_lt_Some in Ht. lia.
  - right.
    destruct (toVol_loop_keep path paths parts set Hsplit ltac:(lia))
      as (target & Ht & Hloop).
    exists target. split; [by exists parts|]. split; [|done].
    intros t (parts' & Hsplit' & Ht'). rewrite Hsplit in Hsplit'.
    by simplify_eq.
Qed.

Lemma toVol_loop_elem (paths : list string) (set res : gset string) :
  toVol_loop paths set = Some res →
  ∀ t, t ∈ res ↔ t ∈ set ∨ ∃ path, path ∈ paths ∧ contributes path t.
Proof.
  revert set. induction paths as [|path paths IH]; intros set Hres t.
  - simpl in Hres. simplify_eq. split; [by left|].
    intros [?|(path & Hin & _)]; [done|]. by apply elem_of_nil in Hin.
  - destruct (toVol_loop_step path paths set)
      as [[Hnone Hloop]|(target & Hc & Huniq & Hloop)];
      rewrite Hloop in Hres; rewrite (IH _ Hres t).
    + split.
      * intros [?|(p & Hin & Hp)]; [by left|]. right. exists p.
        split; [by right|done].
      * intros [?|(p & Hin & Hp)]; [by left|].
        apply elem_of_cons in Hin as [->|Hin]; [|right; by exists p].
        exfalso. apply Hnone. by exists t.
    + rewrite elem_of_union, elem_of_singleton. split.
      * intros [[->|?]|(p & Hin & Hp)].
        -- right. exists path. split; [left|done].
        -- by left.
        -- right. exists p. split; [by right|done].
      * intros [?|(p & Hin & Hp)]; [left; by right|].
        apply elem_of_cons in Hin as [->|Hin]; [|right; by exists p].
        left. left. by apply Huniq.
Qed.

Lemma toVol_total (paths : list string) : is_Some (toVol paths).
Proof. apply toVol_loop_total. Qed.

Lemma toVol_elem (paths : list string) (set : gset string) (t : string) :
  toVol paths = Some set →
  t ∈ set ↔ ∃ path, path ∈ paths ∧ contributes path t.
Proof.
  intros Hset. rewrite (toVol_loop_elem _ _ _ Hset t).
  split; [intros [?|?]; [set_solver|done]|by right].
Qed.

(** X5: the bind set of a list is the set of the second components of its
    entries: a string is a member exactly when some entry of the list
    splits into components of which it is the second. *)
Theorem toVol_members (paths : list string) :
  ∃ set, toVol paths = Some set ∧
         ∀ t, t ∈ set ↔ ∃ path, path ∈ paths ∧ contributes path t.
Proof.
  destruct (toVol_total paths) as [set Hset]. exists set.
  split; [done|]. intros t. by apply toVol_elem.
Qed.

Lemma toVol_same_entries (l1 l2 : list string) :
  (∀ path, path ∈ l1 ↔ path ∈ l2) → toVol l1 = toVol l2.
Proof.
  intros Hsame.
  destruct (toVol_total l1) as [s1 Hs1].
  destruct (toVol_total l2) as [s2 Hs2].
  rewrite Hs1, Hs2.
  f_equal. apply set_eq. intros t.
  rewrite (toVol_elem _ _ t Hs1), (toVol_elem _ _ t Hs2).
  split; intros (p & Hin & Hp); exists p; (split; [by apply Hsame|done]).
Qed.

(** X6: the bind set depends on which entries occur in the list, not on
    their order or on how often each occurs; the bind set of two lists put
    end to end is the union of their bind sets. *)
Theorem toVol_set_of_entries :
  (∀ l1 l2 : list string,
     (∀ path, path ∈ l1 ↔ path ∈ l2) → toVol l1 = toVol l2) ∧
  (∀ l1 l2 : list string,
     ∃ s1 s2, toVol l1 = Some s1 ∧ toVol l2 = Some s2 ∧
              toVol (l1 ++ l2) = Some (s1 ∪ s2)).
Proof.
  split.
  - apply toVol_same_entries.
  - intros l1 l2.
    destruct (toVol_total l1) as [s1 Hs1].
    destruct (toVol_total l2) as [s2 Hs2].
    destruct (toVol_total (l1 ++ l2)) as [s Hs].
    exists s1, s2. split; [done|]. split; [done|]. rewrite Hs. f_equal.
    apply set_eq. intros t.
    rewrite elem_of_union, (toVol_elem _ _ t Hs), (toVol_elem _ _ t Hs1),
      (toVol_elem _ _ t Hs2).
    split.
    + intros (p & Hin & Hp). apply elem_of_app in Hin as [Hin|Hin];
        [left|right]; by exists p.
    + intros [(p & Hin & Hp)|(p & Hin & Hp)]; exists p;
        (split; [apply elem_of_app; by eauto|done]).
Qed.

Lemma toVol_set_of_entries_witness :
  toVol ["/a:/b"; "/c:/d"; "/a:/b"] = toVol ["/c:/d"; "/a:/b"].
Proof.
  apply (proj1 toVol_set_of_entries). intros path.
  rewrite !elem_of_cons, !elem_of_nil. tauto.
Defined.

Lemma contributes_nonempty (path target : string) :
  contributes path target → target ≠ "" ∧ has_colon path.
Proof.
  intros (parts & Hsplit & Ht).
  destruct (decide (":"%char ∈ list_ascii_of_string path)) as [Hcolon|Hfree].
  - destruct (splitVolumeParts_colon path Hcolon)
      as (parts' & Hsplit' & _ & Hne).
    rewrite Hsplit in Hsplit'. simplify_eq. split; [|done].
    rewrite Forall_forall in Hne. apply Hne.
    by eapply list_elem_of_lookup_2.
  - rewrite (splitVolumeParts_colon_free path Hfree) in Hsplit.
    by simplify_eq.
Qed.

Lemma toVol_loop_size (paths : list string) (set res : gset string) :
  toVol_loop paths set = Some res →
  size res ≤ size set + length (filter has_colon paths).
Proof.
  revert set. induction paths as [|path paths IH]; intros set Hres.
  - simpl in Hres. simplify_eq. simpl. lia.
  - destruct (toVol_loop_step path paths set)
      as [[Hnone Hloop]|(target & Hc & Huniq & Hloop)];
      rewrite Hloop in Hres; apply IH in Hres.
    + rewrite filter_cons. case_decide; simpl; lia.
    + destruct (contributes_nonempty _ _ Hc) as [_ Hcolon].
      rewrite filter_cons, decide_True by done. simpl.
      assert (size ({[target]} ∪ set) ≤ 1 + size set).
      { rewrite size_union_alt, size_singleton.
        assert (size (set ∖ {[target]}) ≤ size set)
          by (apply subseteq_size; intros x [? _]%elem_of_difference; done).
        lia. }
      lia.
Qed.

(** X7: the empty string is never a member of the bind set, every member
    comes from an entry with a colon, and the set has at most as many
    members as the list has entries with a colon. *)
Theorem toVol_bounds (paths : list string) :
  ∃ set, toVol paths = Some set ∧
         ("" ∉ set) ∧
         size set ≤ length (filter has_colon paths) ∧
         (Forall (λ path, ¬ has_colon path) paths → set = ∅).
Proof.
  destruct (toVol_total paths) as [set Hset]. exists set.
  pose proof (λ t, toVol_elem paths set t Hset) as Hmem.
  split; [done|]. split; [|split].
  - intros (p & _ & Hp)%Hmem. by destruct (contributes_nonempty _ _ Hp).
  - pose proof (toVol_loop_size paths ∅ set Hset) as Hsz.
    rewrite size_empty in Hsz. lia.
  - intros Hnone. apply set_eq. intros t. split; [|set_solver].
    intros (p & Hin & Hp)%Hmem.
    rewrite Forall_forall in Hnone.
    destruct (contributes_nonempty _ _ Hp) as [_ Hcolon].
    by destruct (Hnone p Hin).
Qed.

(** *** Instances *)

Ltac colon_free_tac :=
  unfold colon_free; simpl;
  let Hin := fresh "Hin" in
  intros Hin;
  repeat (apply elem_of_cons in Hin as [Hin|Hin]; [discriminate|]);
  by apply elem_of_nil in Hin.

Lemma splitVolumeParts_source_target_witness :
  splitVolumeParts ("/data" +:+ ":" +:+ "/cache")
  = Some (["/data"; "/cache"], None) ∧
  toVol ["/data" +:+ ":" +:+ "/cache"] = Some {[ "/cache" ]}.
Proof.
  apply (splitVolumeParts_source_target "/data" "/cache").
  - discriminate.
  - discriminate.
  - right. split; colon_free_tac.
  - left. colon_free_tac.
Defined.

Lemma splitVolumeParts_source_target_mode_witness :
  splitVolumeParts ("/data" +:+ ":" +:+ "/cache" +:+ ":" +:+ "ro")
  = Some (["/data"; "/cache"; "ro"], None) ∧
  toVol ["/data" +:+ ":" +:+ "/cache" +:+ ":" +:+ "ro"]
  = Some {[ "/cache" ]}.
Proof.
  apply (splitVolumeParts_source_target_mode "/data" "/cache" "ro").
  - discriminate.
  - discriminate.
  - discriminate.
  - left. split; [colon_free_tac|]. intros (c & Heq & _). discriminate.
  - left. split; [colon_free_tac|]. intros (c & Heq & _). discriminate.
  - unfold mode_chars. simpl. by repeat constructor.
Defined.

Lemma splitVolumeParts_one_letter_source_witness :
  splitVolumeParts (String "a" (":" +:+ "b") +:+ ":" +:+ "ro")
  = Some ([String "a" (":" +:+ "b"); "ro"], None) ∧
  toVol [String "a" (":" +:+ "b") +:+ ":" +:+ "ro"] = Some {[ "ro" ]}.
Proof.
  apply (splitVolumeParts_one_letter_source "a" "b" "ro").
  - reflexivity.
  - discriminate.
  - colon_free_tac.
  - colon_free_tac.
Defined.

Lemma toVol_bounds_witness : toVol ["data"; ""] = Some ∅.
Proof.
  destruct (toVol_bounds ["data"; ""]) as (set & Hset & _ & _ & Hempty).
  rewrite Hset. f_equal. apply Hempty.
  repeat constructor; unfold has_colon; colon_free_tac.
Defined.

(* ================================================================== *)
(** * Further properties of one bootstrap *)

Lemma updates_cons_other (ev : event) (tr : list event) :
  (∀ s r, ev ≠ EvUpdate s r) → updates (ev :: tr) = updates tr.
Proof. intros Hev. destruct ev; try done. by destruct (Hev server r). Qed.

Lemma bootstrap_shape_writes (instance : Server)
    (res : result (Server * option error)) (tr : list event) :
  bootstrap_shape instance res tr →
  match res with
  | Returned (server, err) =>
      ∃ pre r,
        tr = pre ++ [EvUpdate server r] ∧ updates pre = [] ∧
        ((server = set_State StateRunning instance ∧ err = r) ∨
         (∃ e, server = failed instance e ∧ err = Some e))
  | _ => updates tr = []
  end.
Proof.
  induction tr as [|ev tr IH]; cbn [bootstrap_shape].
  - by intros [->| ->].
  - destruct (failure ev) as [e|] eqn:Hev.
    + intros [[r ->] ->]. exists [ev], r. split; [done|].
      split; [|right; by exists e].
      rewrite updates_cons_other; [done|]. intros s r' ->. done.
    + intros Hshape.
      assert (Hstart : (∃ c id, ev = EvContainerStart c id None) ∨
                       ((∀ s r, ev ≠ EvUpdate s r) ∧
                        bootstrap_shape instance res tr)).
      { destruct ev; try (right; split; [by intros ? ? ?|done]); try done.
        destruct r; [done|]. left. eauto. }
      destruct Hstart as [(c & id & ->)|[Hne Hsh]].
      * destruct Hshape as (r & -> & ->). exists [EvContainerStart c id None], r.
        split; [done|]. split; [done|]. by left.
      * specialize (IH Hsh). destruct res as [[server err]| |].
        -- destruct IH as (pre & r & -> & Hup & Hcases).
           exists (ev :: pre), r. split; [done|].
           split; [by rewrite updates_cons_other|done].
        -- by rewrite updates_cons_other.
        -- by rewrite updates_cons_other.
Qed.

(** X8: a bootstrap that returns has made exactly one store update, as its
    last call, of the record it leaves behind: either the running record,
    and then it returns what the store answered, or the record of the error
    of a failed step, and then it returns that error.  It returns nil
    exactly when the record is running and the store accepted it.  A
    bootstrap that is still polling has made no store update. *)
Theorem install_writes_once `{World W} (w : W) (i : installer) (fuel : nat)
    (instance : Server) :
  let o := exec (install fuel instance) w i in
  match out_result o with
  | Returned (server, err) =>
      ∃ pre r,
        out_trace o = pre ++ [EvUpdate server r] ∧ updates pre = [] ∧
        ((server = set_State StateRunning instance ∧ err = r) ∨
         (∃ e, server = failed instance e ∧ err = Some e)) ∧
        (err = None ↔ State server = StateRunning ∧ r = None)
  | _ => updates (out_trace o) = []
  end.
Proof.
  intros o.
  pose proof (bootstrap_shape_writes _ _ _ (install_shape fuel instance w i))
    as Hw. fold o in Hw.
  destruct (out_result o) as [[server err]| |]; [|done..].
  destruct Hw as (pre & r & Htr & Hup & Hcases).
  exists pre, r. split; [done|]. split; [done|]. split; [done|].
  destruct Hcases as [[-> ->]|(e & -> & ->)]; simpl; split; try done.
  - by intros [_ ->].
  - by intros [? _].
Qed.

Section Bootstrap.
Context `{World W}.

(** The runs of the steps that follow the poll loop. *)
Lemma provision_cases (c : APIClient) (instance : Server) (w : W)
    (i : installer) :
  let o := exec (provision c instance) w i in
  ∃ vols,
    toVol (volumes i ++ [docker_sock]) = Some vols ∧
    out_result o ≠ Panicked ∧
    provision_trace c i instance vols (out_trace o).
Proof.
  destruct (toVol_total (volumes i ++ [docker_sock])) as [vols Hvols].
  exists vols. split; [done|].
  unfold provision, provision_trace.
  cbn [exec emit out_trace out_result].
  destruct (docker_ImagePull w c (image i)) as [w1 [e|]]; cbn [fst snd].
  { simpl. split; [done|]. left. eauto. }
  cbn [exec emit out_trace out_result set_volumes volumes].
  rewrite Hvols.
  cbn [exec emit out_trace out_result].
  destruct (docker_ContainerCreate _ _ _ _ _) as [w2 [id|e]]; cbn [fst snd].
  2: { simpl. split; [done|]. right. left. eauto. }
  cbn [exec emit out_trace out_result].
  destruct (docker_ContainerStart _ _ _) as [w3 [e|]]; cbn [fst snd];
    simpl; (split; [done|]); right; right; [left|right]; eauto.
Qed.

Lemma poller_cases (fuel : nat) (c : APIClient) (instance : Server)
    (d : time.Duration) (w : W) (i : installer) :
  let o := exec (poller fuel c instance d) w i in
  out_result o ≠ Panicked ∧
  ∃ polls fin rest,
    poll_trace c d polls fin ∧ out_trace o = polls ++ rest ∧
    match fin with
    | Cancelled e => ∃ r, rest = [EvUpdate (failed instance e) r]
    | Connected =>
        ∃ vols, toVol (volumes i ++ [docker_sock]) = Some vols ∧
                provision_trace c i instance vols rest
    | StillPolling => rest = []
    end.
Proof.
  revert d w. induction fuel as [|fuel IH]; intros d w.
  { split; [done|]. exists [], StillPolling, []. split; [constructor|done]. }
  cbn [poller exec emit out_trace out_result].
  destruct (ctx_select w d) as [w1 [e|]]; cbn [fst snd].
  { split; [done|].
    exists [EvSelect d (CtxDone e)], (Cancelled e). eexists.
    split; [constructor|]. simpl. eauto. }
  cbn [exec emit out_trace out_result].
  destruct (docker_ContainerList w1 c) as [w2 [e|]]; cbn [fst snd].
  - destruct (IH time.Minute w2) as (Hres & polls & fin & rest & Hp & Htr & Hfin).
    split; [done|].
    exists (EvSelect d TimerFired :: EvContainerList c (Some e) :: polls),
      fin, rest.
    split; [by constructor|]. split; [by rewrite Htr|done].
  - destruct (provision_cases c instance w2 i) as (vols & Hvols & Hres & Htr).
    split; [done|].
    exists [EvSelect d TimerFired; EvContainerList c None], Connected.
    eexists. split; [constructor|]. split; [reflexivity|]. eauto.
Qed.

Lemma install_cases (fuel : nat) (instance : Server) (w : W)
    (i : installer) :
  let o := exec (install fuel instance) w i in
  out_result o ≠ Panicked ∧
  match (client_func w instance).2 with
  | inr e =>
      ∃ r, out_trace o = [EvClient instance (inr e);
                          EvUpdate (failed instance e) r]
  | inl c =>
      ∃ polls fin rest,
        poll_trace c 0%Z polls fin ∧
        out_trace o = EvClient instance (inl c) :: polls ++ rest ∧
        match fin with
        | Cancelled e => ∃ r, rest = [EvUpdate (failed instance e) r]
        | Connected =>
            ∃ vols, toVol (volumes i ++ [docker_sock]) = Some vols ∧
                    provision_trace c i instance vols rest
        | StillPolling => rest = []
        end
  end.
Proof.
  unfold install. cbn [exec emit out_trace out_result].
  destruct (client_func w instance) as [w1 [c|e]]; cbn [fst snd].
  - destruct (poller_cases fuel c instance 0%Z w1 i)
      as (Hres & polls & fin & rest & Hp & Htr & Hfin).
    split; [done|]. exists polls, fin, rest.
    split; [done|]. split; [by rewrite Htr|done].
  - simpl. split; [done|]. eauto.
Qed.

Lemma poll_trace_is_poll (c : APIClient) (d : time.Duration)
    (tr : list event) (fin : poll_end) :
  poll_trace c d tr fin → Forall (λ ev, is_poll ev = true) tr.
Proof. induction 1; by repeat constructor. Qed.

Lemma docker_sock_contributes : contributes docker_sock docker_sock_target.
Proof.
  exists [docker_sock_target; docker_sock_target]. split; [|done].
  apply (splitVolumeParts_two docker_sock_target docker_sock_target).
  - discriminate.
  - discriminate.
  - right. split; colon_free_tac.
  - left. colon_free_tac.
Qed.

Lemma agent_request_other (i : installer) (instance : Server)
    (c : APIClient) (ev : event) :
  is_create ev = false → agent_request i instance c ev.
Proof. by destruct ev. Qed.

Lemma agent_request_create (i : installer) (instance : Server)
    (c : APIClient) (vols : gset string) (r : string + error) :
  toVol (volumes i ++ [docker_sock]) = Some vols →
  agent_request i instance c
    (EvContainerCreate c (agent_Config (with_docker_sock i) instance vols)
       (agent_HostConfig (with_docker_sock i)) "agent" r).
Proof.
  intros Hvols. cbn. repeat split; try done.
  - apply (toVol_elem _ _ _ Hvols). exists docker_sock.
    split; [|apply docker_sock_contributes].
    apply elem_of_app. right. by apply list_elem_of_singleton.
Qed.

Lemma creations_app (l1 l2 : list event) :
  creations (l1 ++ l2) = creations l1 + creations l2.
Proof. unfold creations. by rewrite filter_app, length_app. Qed.

Lemma creations_polls (tr : list event) :
  Forall (λ ev, is_poll ev = true) tr → creations tr = 0.
Proof.
  unfold creations. induction 1 as [|ev tr Hev _ IH]; [done|].
  rewrite filter_cons, decide_False; [done|]. by destruct ev.
Qed.

Lemma polls_agent_request (i : installer) (instance : Server)
    (c : APIClient) (tr : list event) :
  Forall (λ ev, is_poll ev = true) tr →
  Forall (agent_request i instance c) tr.
Proof.
  intros Htr. eapply Forall_impl; [exact Htr|].
  intros ev Hev. apply agent_request_other. by destruct ev.
Qed.

Lemma provision_trace_requests (c : APIClient) (i : installer)
    (instance : Server) (vols : gset string) (tr : list event) :
  toVol (volumes i ++ [docker_sock]) = Some vols →
  provision_trace c i instance vols tr →
  Forall (agent_request i instance c) tr ∧ creations tr ≤ 1.
Proof.
  intros Hvols Htr.
  pose proof (λ r, agent_request_create i instance c vols r Hvols) as Hreq.
  destruct Htr as [(e & r & ->)|[(e & r & ->)|[(id & e & r & ->)|
                   (id & r & ->)]]];
    (split; [|by vm_compute; lia]);
    repeat (apply Forall_cons; split; [first [exact I|apply Hreq]|]);
    apply Forall_nil_2.
Qed.

(** X9: a bootstrap never panics, whatever the bind list of the installer
    holds, and asks docker for at most one container.  The request goes to
    the client that the client function returned, under the name "agent",
    with the image of the installer and the restart policy "always"; the
    volumes it declares are exactly the targets [toVol] finds in the binds
    it passes, the docker socket among them; its labels carry the name and
    the id of the server.  When the client function fails, no container is
    requested. *)
Theorem install_creates_agent (w : W) (i : installer) (fuel : nat)
    (instance : Server) :
  let o := exec (install fuel instance) w i in
  out_result o ≠ Panicked ∧
  creations (out_trace o) ≤ 1 ∧
  match (client_func w instance).2 with
  | inl c => Forall (agent_request i instance c) (out_trace o)
  | inr _ => creations (out_trace o) = 0
  end.
Proof.
  intros o. destruct (install_cases fuel instance w i) as [Hres Hcases].
  fold o in Hres, Hcases. split; [done|].
  destruct ((client_func w instance).2) as [c|e].
  - destruct Hcases as (polls & fin & rest & Hp & -> & Hfin).
    apply poll_trace_is_poll in Hp.
    assert (Hrest : Forall (agent_request i instance c) rest ∧
                    creations rest ≤ 1).
    { destruct fin as [e| |].
      - destruct Hfin as [r ->]. split; [by repeat constructor|].
        by vm_compute; lia.
      - destruct Hfin as (vols & Hvols & Htr).
        by eapply provision_trace_requests.
      - subst rest. split; [constructor|]. by vm_compute; lia. }
    destruct Hrest as [Hreq Hone]. split.
    + change (EvClient instance (inl c) :: polls ++ rest)
        with ([EvClient instance (inl c)] ++ polls ++ rest).
      rewrite !creations_app, (creations_polls polls Hp).
      change (creations [EvClient instance (inl c)]) with 0. lia.
    + apply Forall_cons. split; [exact I|].
      apply Forall_app. split; [by apply polls_agent_request|done].
  - destruct Hcases as [r ->]. split; [by vm_compute; lia|reflexivity].
Qed.

Lemma no_start_split (tr pre post : list event) (ev : event) :
  Forall (λ ev, is_start ev = false) tr →
  is_start ev = true →
  tr ≠ pre ++ ev :: post.
Proof.
  intros Hno Hev ->. apply Forall_app in Hno as [_ Hno].
  apply Forall_cons in Hno as [Hno _]. congruence.
Qed.

Lemma start_split (l1 l2 pre post : list event) (x y : event) :
  Forall (λ ev, is_start ev = false) l1 →
  Forall (λ ev, is_start ev = false) l2 →
  is_start y = true →
  l1 ++ x :: l2 = pre ++ y :: post →
  pre = l1 ∧ x = y ∧ post = l2.
Proof.
  intros Hl1 Hl2 Hy. revert pre.
  induction Hl1 as [|a l1 Ha _ IH]; intros pre Heq.
  - destruct pre as [|z pre]; simpl in Heq.
    + by simplify_eq.
    + simplify_eq. by destruct (no_start_split _ _ _ _ Hl2 Hy eq_refl).
  - destruct pre as [|z pre]; simpl in Heq.
    + simplify_eq. congruence.
    + injection Heq as -> Heq. destruct (IH _ Heq) as (-> & -> & ->). done.
Qed.

(** X10: the container a bootstrap starts is the one it created.  Whatever
    the result of a start, the calls before it are: the call of the client
    function, answered with the client of every later call; the rounds of
    the poll loop that end in a successful connection attempt; the pull of
    the installer's image; the drain of the pull's output; the store of the
    bind list into the struct; and the creation of the container "agent",
    answered with the id that is then started. *)
Theorem install_starts_created (w : W) (i : installer) (fuel : nat)
    (instance : Server) (pre post : list event) (c : APIClient)
    (id : string) (r : option error) :
  let o := exec (install fuel instance) w i in
  out_trace o = pre ++ EvContainerStart c id r :: post →
  (client_func w instance).2 = inl c ∧
  ∃ polls vols,
    poll_trace c 0%Z polls Connected ∧
    toVol (volumes i ++ [docker_sock]) = Some vols ∧
    pre = EvClient instance (inl c) :: polls
          ++ provision_calls c i instance vols (inl id).
Proof.
  intros o Heq. destruct (install_cases fuel instance w i) as [_ Hcases].
  fold o in Hcases.
  assert (Hst : is_start (EvContainerStart c id r) = true) by done.
  destruct ((client_func w instance).2) as [c'|e].
  2: { destruct Hcases as [r' Htr]. rewrite Htr in Heq.
       exfalso. eapply no_start_split; [|exact Hst|exact Heq].
       by repeat constructor. }
  destruct Hcases as (polls & fin & rest & Hp & Htr & Hfin).
  pose proof (poll_trace_is_poll _ _ _ _ Hp) as Hpolls.
  assert (Hnp : Forall (λ ev, is_start ev = false)
                  (EvClient instance (inl c') :: polls)).
  { constructor; [done|]. eapply Forall_impl; [exact Hpolls|].
    by intros []. }
  rewrite Htr in Heq. clear Htr.
  assert (Hnone : ∀ tail,
            Forall (λ ev, is_start ev = false) tail →
            EvClient instance (inl c') :: polls ++ tail
            ≠ pre ++ EvContainerStart c id r :: post).
  { intros tail Htail. apply no_start_split; [|done].
    rewrite app_comm_cons. by apply Forall_app. }
  destruct fin as [e| |].
  - destruct Hfin as [r' ->].
    exfalso. eapply Hnone; [|exact Heq]. by repeat constructor.
  - destruct Hfin as (vols & Hvols & Htr).
    destruct Htr as [(e & r' & ->)|[(e & r' & ->)|[(id' & e & r' & ->)|
                     (id' & r' & ->)]]].
    + exfalso. eapply Hnone; [|exact Heq]. by repeat constructor.
    + exfalso. eapply Hnone; [|exact Heq]. by repeat constructor.
    + rewrite app_comm_cons, app_assoc in Heq.
      apply start_split in Heq as (-> & Hev & _); [| |by repeat constructor|done].
      2: { apply Forall_app. split; [done|by repeat constructor]. }
      simplify_eq. split; [done|]. by exists polls, vols.
    + rewrite app_comm_cons, app_assoc in Heq.
      apply start_split in Heq as (-> & Hev & _); [| |by repeat constructor|done].
      2: { apply Forall_app. split; [done|by repeat constructor]. }
      simplify_eq. split; [done|]. by exists polls, vols.
  - subst rest. exfalso. eapply Hnone; [|exact Heq]. constructor.
Qed.

End Bootstrap.

Lemma install_starts_created_witness :
  (client_func (sim.calm [demo.a]) demo.a).2 = inl (docker_client 0) ∧
  ∃ polls vols,
    poll_trace (docker_client 0) 0%Z polls Connected ∧
    toVol (volumes (sim.agent []) ++ [docker_sock]) = Some vols ∧
    take 7 (out_trace (exec (install 1 demo.a) (sim.calm [demo.a])
                         (sim.agent [])))
    = EvClient demo.a (inl (docker_client 0)) :: polls
      ++ provision_calls (docker_client 0) (sim.agent []) demo.a vols
           (inl "container-id").
Proof.
  apply (install_starts_created (sim.calm [demo.a]) (sim.agent []) 1 demo.a
           (take 7 (out_trace (exec (install 1 demo.a) (sim.calm [demo.a])
                                 (sim.agent []))))
           (drop 8 (out_trace (exec (install 1 demo.a) (sim.calm [demo.a])
                                 (sim.agent []))))
           (docker_client 0) "container-id" None).
  vm_compute. reflexivity.
Defined.

(* ================================================================== *)
(** * Further properties of [Install] run on its own *)

Section InstallCalls.
Context `{World W}.

(** The runs of the loop of [Install]: the rounds of the servers whose
    update the store accepts, up to the end of the listing or to the first
    server whose update it refuses. *)
Lemma Install_range_cases (fuel : nat) (servers : list Server) (w : W)
    (i : installer) :
  let o := exec (Install_range fuel servers) w i in
  ∃ past,
    out_launched o = map (λ x, (x, worker fuel x)) (staged past) ∧
    wg (out_installer o) = (wg i + Z.of_nat (length past))%Z ∧
    same_settings i (out_installer o) ∧
    volumes (out_installer o) = volumes i ∧
    ((out_result o = Returned None ∧ past = servers ∧
      out_trace o = concat (map staged_round servers)) ∨
     (∃ s rest e,
        servers = past ++ s :: rest ∧
        out_result o = Returned (Some e) ∧
        out_trace o = concat (map staged_round past)
                      ++ [EvUpdate (set_State StateStaging s) (Some e)])).
Proof.
  revert w i. induction servers as [|s servers IH]; intros w i.
  { exists []. simpl. split; [done|]. split; [lia|].
    split; [apply same_settings_refl|]. split; [done|]. by left. }
  cbn [Install_range exec emit launch out_trace out_result out_launched
       out_installer].
  destruct (servers_Update w (set_State StateStaging s)) as [w1 [e|]];
    cbn [fst snd].
  { exists []. simpl. split; [done|]. split; [lia|].
    split; [apply same_settings_refl|]. split; [done|].
    right. by exists s, servers, e. }
  cbn [exec emit launch out_trace out_result out_launched out_installer].
  destruct (IH w1 (add_wg 1 i)) as (past & Hl & Hwg & Hs & Hv & Hcases).
  exists (s :: past). split; [by rewrite Hl|].
  split; [rewrite Hwg; simpl; lia|]. split; [done|]. split; [done|].
  destruct Hcases as [(Hr & -> & Htr)|(s' & rest & e & -> & Hr & Htr)].
  - left. split; [done|]. split; [done|]. by rewrite Htr.
  - right. exists s', rest, e. split; [done|]. split; [done|].
    by rewrite Htr.
Qed.

Lemma staged_round_calls (servers : list Server) :
  Forall (λ ev, is_install_call ev = true)
    (concat (map staged_round servers)).
Proof.
  induction servers as [|s servers IH]; simpl; [constructor|].
  by repeat (constructor; [done|]).
Qed.

Lemma staged_round_updates (servers : list Server) :
  updates (concat (map staged_round servers)) = staged_ok servers.
Proof.
  induction servers as [|s servers IH]; [done|].
  simpl. unfold updates in *. simpl. by rewrite IH.
Qed.

(** X11: [Install] returns nil exactly when the listing succeeds and the
    store accepts every staging update.  Its calls are then the listing
    followed, for each listed server in the order of the listing, by the
    update to staging, one added to the wait group and the go statement;
    one goroutine has been started for each listed server, on its staged
    record. *)
Theorem Install_nil_stages_all (w : W) (i : installer) (fuel : nat) :
  let o := exec (Install fuel) w i in
  (out_result o = Returned None ↔
   is_Some (listed (out_trace o)) ∧
   Forall (λ u, u.2 = None) (updates (out_trace o))) ∧
  (out_result o = Returned None →
   ∃ servers,
     out_trace o = EvListState StateCreated (inl servers)
                   :: concat (map staged_round servers) ∧
     out_launched o = map (λ x, (x, worker fuel x)) (staged servers)).
Proof.
  unfold Install.
  cbn [exec emit out_trace out_result out_launched].
  destruct (servers_ListState w StateCreated) as [w1 [servers|e]];
    cbn [fst snd].
  2: { simpl. split; [|done]. split; [done|]. by intros [[? ?] _]. }
  destruct (Install_range_cases fuel servers w1 i)
    as (past & Hl & _ & _ & _ & Hcases).
  destruct Hcases as [(Hr & -> & Htr)|(s & rest & e & -> & Hr & Htr)];
    rewrite Hr, Htr.
  - split.
    + split; [|done]. intros _. split; [by eexists|].
      change (updates (?a :: ?l)) with (updates l).
      rewrite staged_round_updates. unfold staged_ok.
      apply Forall_forall. intros u (s & -> & _)%list_elem_of_fmap. done.
    + intros _. exists servers. by rewrite Hl.
  - split; [|done]. split; [done|]. intros [_ Hall].
    change (updates (?a :: ?l)) with (updates l) in Hall.
    unfold updates in Hall. rewrite omap_app in Hall.
    apply Forall_app in Hall as [_ Hall]. simpl in Hall.
    by apply Forall_cons in Hall as [? _].
Qed.

(** X12: [Install] always returns, and without waiting for a bootstrap:
    the only calls it makes itself are on the store and on the wait group,
    and the go statements.  It leaves the settings and the bind list of the
    installer as they were, and has raised the counter of the wait group by
    one for each goroutine it has started.  When the listing fails it
    returns the error of the listing and has made no other call. *)
Theorem Install_frame (w : W) (i : installer) (fuel : nat) :
  let o := exec (Install fuel) w i in
  (∃ r, out_result o = Returned r) ∧
  Forall (λ ev, is_install_call ev = true) (out_trace o) ∧
  same_settings i (out_installer o) ∧
  volumes (out_installer o) = volumes i ∧
  wg (out_installer o) = (wg i + Z.of_nat (length (out_launched o)))%Z ∧
  length (out_launched o) = length (go_args (out_trace o)) ∧
  match (servers_ListState w StateCreated).2 with
  | inr e =>
      out_result o = Returned (Some e) ∧
      out_trace o = [EvListState StateCreated (inr e)]
  | inl _ => True
  end.
Proof.
  unfold Install.
  cbn [exec emit out_trace out_result out_launched out_installer].
  destruct (servers_ListState w StateCreated) as [w1 [servers|e]];
    cbn [fst snd].
  2: { simpl. split; [eauto|]. split; [by repeat constructor|].
       split; [apply same_settings_refl|]. split; [done|].
       split; [lia|]. done. }
  destruct (Install_range_cases fuel servers w1 i)
    as (past & Hl & Hwg & Hs & Hv & Hcases).
  assert (Hlen : length (out_launched (exec (Install_range fuel servers) w1 i))
                 = length past).
  { rewrite Hl. unfold staged. by rewrite !length_map. }
  assert (Hgo : ∀ l, length (go_args (concat (map staged_round l)))
                     = length l).
  { induction l as [|s l IH]; [done|]. simpl. unfold go_args in *. simpl.
    by rewrite IH. }
  split.
  { destruct Hcases as [(Hr & _)|(s & rest & e & _ & Hr & _)]; eauto. }
  split.
  { constructor; [done|].
    destruct Hcases as [(_ & -> & ->)|(s & rest & e & _ & _ & ->)].
    - apply staged_round_calls.
    - apply Forall_app. split; [apply staged_round_calls|].
      by repeat constructor. }
  split; [done|]. split; [done|]. split; [by rewrite Hlen|].
  split; [|done]. rewrite Hlen.
  change (go_args (?a :: ?l)) with (go_args l).
  destruct Hcases as [(_ & -> & ->)|(s & rest & e & _ & _ & ->)].
  - by rewrite Hgo.
  - unfold go_args in *. rewrite omap_app, length_app, Hgo. simpl. lia.
Qed.

End InstallCalls.

Lemma Install_nil_stages_all_witness :
  ∃ servers,
    out_trace (exec (Install 1) (sim.calm [demo.a; demo.b]) (sim.agent []))
    = EvListState StateCreated (inl servers)
      :: concat (map staged_round servers) ∧
    out_launched (exec (Install 1) (sim.calm [demo.a; demo.b])
                    (sim.agent []))
    = map (λ x, (x, worker 1 x)) (staged servers).
Proof.
  apply (proj2 (Install_nil_stages_all (sim.calm [demo.a; demo.b])
                  (sim.agent []) 1)).
  vm_compute. reflexivity.
Defined.

(* ================================================================== *)
(** * The body of a bootstrap goroutine *)

Section WorkerBody.
Context `{World W}.

Lemma and_then_emit {A B} (ev : event) (o1 : outcome W A)
    (next : A → W → installer → outcome W B) :
  and_then (emit ev o1) next = emit ev (and_then o1 next).
Proof. unfold and_then. simpl. by destruct (out_result o1). Qed.

Lemma and_then_launch {A B} (arg : Server) (body : prog unit)
    (o1 : outcome W A) (next : A → W → installer → outcome W B) :
  and_then (launch arg body o1) next = launch arg body (and_then o1 next).
Proof. unfold and_then. simpl. by destruct (out_result o1). Qed.

Lemma exec_bind :
  ∀ A (p : prog A) B (f : A → prog B) (w : W) (i : installer),
    exec (bind p f) w i = and_then (exec p w i) (λ a, exec (f a)).
Proof.
  intros A p.
  induction p as [R r|R|R|R st k IH|R s k IH|R s k IH|R d k IH|R c k IH
                  |R c ref k IH|R c k IH|R c cfg hc name k IH|R c id k IH
                  |R k IH|R v k IH|R d k IH|R arg body _ k IH];
    intros B f w i; cbn [bind exec];
    rewrite ?and_then_launch, ?and_then_emit, <- ?IH; try reflexivity.
  - unfold and_then. simpl. by destruct (exec (f r) w i).
Qed.

Lemma install_launches_nothing (fuel : nat) (instance : Server) (w : W)
    (i : installer) :
  out_launched (exec (install fuel instance) w i) = [].
Proof.
  destruct (exec_runs _ (install fuel instance) w i) as [_ Hgo].
  destruct (install_cases fuel instance w i) as [_ Hcases].
  assert (Hnone : go_args (out_trace (exec (install fuel instance) w i)) = []).
  { destruct ((client_func w instance).2) as [c|e].
    - destruct Hcases as (polls & fin & rest & Hp & -> & Hfin).
      unfold go_args. simpl. rewrite omap_app.
      assert (Hpolls : go_args polls = []).
      { apply poll_trace_is_poll in Hp. unfold go_args.
        induction Hp as [|ev tr Hev _ IH]; [done|].
        destruct ev; try discriminate Hev; exact IH. }
      unfold go_args in Hpolls. rewrite Hpolls. simpl.
      destruct fin as [e| |].
      + by destruct Hfin as [r ->].
      + destruct Hfin as (vols & _ & Htr).
        by destruct Htr as [(e & r & ->)|[(e & r & ->)|[(id & e & r & ->)|
                            (id & r & ->)]]].
      + by subst rest.
    - by destruct Hcases as [r ->]. }
  rewrite Hnone in Hgo. by destruct (out_launched _).
Qed.

(** X13: the goroutine body releases the wait group exactly once, as its
    last step, when [install] has returned, whether the bootstrap succeeded
    or failed; until then its calls are those of [install] and the counter
    of the wait group is as it was.  It starts no goroutine of its own. *)
Theorem worker_releases_once (w : W) (i : installer) (fuel : nat)
    (server : Server) :
  let oi := exec (install fuel server) w i in
  let ow := exec (worker fuel server) w i in
  out_launched ow = [] ∧
  out_world ow = out_world oi ∧
  match out_result oi with
  | Returned _ =>
      out_result ow = Returned tt ∧
      out_trace ow = out_trace oi ++ [EvWgAdd (-1)] ∧
      wg (out_installer ow) = (wg i - 1)%Z
  | _ =>
      out_result ow = Spinning ∧
      out_trace ow = out_trace oi ∧
      wg (out_installer ow) = wg i
  end.
Proof.
  intros oi ow. unfold ow, worker. rewrite exec_bind. fold oi.
  pose proof (install_launches_nothing fuel server w i) as Hl. fold oi in Hl.
  destruct (install_volumes fuel server w i) as (_ & Hwg & _). fold oi in Hwg.
  destruct (install_cases fuel server w i) as [Hnp _]. fold oi in Hnp.
  unfold and_then. destruct (out_result oi) as [r| |];
    cbn [exec emit finish out_launched out_world out_result out_trace
         out_installer add_wg wg].
  - rewrite Hl, Hwg. repeat split; lia.
  - by rewrite Hl.
  - done.
Qed.

End WorkerBody.

(* ================================================================== *)
(** * The wait group under every schedule *)

Lemma wg_sum_app (l1 l2 : list event) :
  wg_sum (l1 ++ l2) = (wg_sum l1 + wg_sum l2)%Z.
Proof.
  unfold wg_sum. induction l1 as [|ev l1 IH]; simpl; [done|].
  rewrite IH. lia.
Qed.

Lemma wg_sum_reverse (l : list event) : wg_sum (reverse l) = wg_sum l.
Proof.
  induction l as [|ev l IH]; [done|].
  rewrite reverse_cons, wg_sum_app, IH. unfold wg_sum. simpl. lia.
Qed.

Lemma sumZ_ext (f g : nat → Z) (n : nat) :
  (∀ m, m < n → f m = g m) → sumZ f n = sumZ g n.
Proof.
  induction n as [|n IH]; intros Hfg; simpl; [done|].
  rewrite IH, Hfg by (intros; try apply Hfg; lia). done.
Qed.

Lemma sumZ_zero (n : nat) : sumZ (λ _, 0%Z) n = 0%Z.
Proof. induction n as [|n IH]; simpl; lia. Qed.

Lemma sumZ_bump (f g : nat → Z) (d : Z) (k n : nat) :
  k < n →
  g k = (d + f k)%Z →
  (∀ m, m ≠ k → g m = f m) →
  sumZ g n = (d + sumZ f n)%Z.
Proof.
  intros Hk Hgk Hg. induction n as [|n IH]; [lia|]. simpl.
  destruct (decide (k = n)) as [->|Hne].
  - rewrite Hgk, (sumZ_ext g f n) by (intros; apply Hg; lia). lia.
  - rewrite IH, Hg by lia. lia.
Qed.

Lemma sumZ_lower (f : nat → Z) (n : nat) :
  (∀ m, m < n → (-1 ≤ f m)%Z) →
  (- Z.of_nat n ≤ sumZ f n)%Z ∧
  ((sumZ f n ≤ - Z.of_nat n)%Z → ∀ m, m < n → f m = (-1)%Z).
Proof.
  induction n as [|n IH]; intros Hf; simpl.
  - split; [lia|]. intros _ m Hm. lia.
  - destruct IH as [Hlow Heq]; [intros; apply Hf; lia|].
    pose proof (Hf n ltac:(lia)) as Hn.
    split; [lia|]. intros Hle m Hm.
    destruct (decide (m = n)) as [->|Hne]; [lia|].
    apply Heq; lia.
Qed.

(** The events of a history, sorted by goroutine: what they add to the
    wait group is what the events of the main goroutine add and what the
    events of each started goroutine add. *)
Lemma wg_sum_by_goroutine (h : list (tid * event)) (n : nat) :
  (∀ k ev, (Worker k, ev) ∈ h → k < n) →
  wg_sum (h.*2)
  = (wg_sum (proj Main h) + sumZ (λ k, wg_sum (proj (Worker k) h)) n)%Z.
Proof.
  induction h as [|[t ev] h IH]; intros Hlive.
  - simpl. rewrite sumZ_zero. done.
  - assert (Hrest : ∀ k ev', (Worker k, ev') ∈ h → k < n)
      by (intros k ev' Hin; eapply Hlive; by right).
    specialize (IH Hrest).
    change (wg_sum (((t, ev) :: h).*2))
      with (wg_delta ev + wg_sum (h.*2))%Z.
    rewrite IH. destruct t as [|k].
    + change (proj Main ((Main, ev) :: h)) with (ev :: proj Main h).
      change (wg_sum (ev :: proj Main h))
        with (wg_delta ev + wg_sum (proj Main h))%Z.
      change (sumZ (λ k, wg_sum (proj (Worker k) ((Main, ev) :: h))) n)
        with (sumZ (λ k, wg_sum (proj (Worker k) h)) n).
      lia.
    + change (proj Main ((Worker k, ev) :: h)) with (proj Main h).
      rewrite (sumZ_bump (λ m, wg_sum (proj (Worker m) h))
                 (λ m, wg_sum (proj (Worker m) ((Worker k, ev) :: h)))
                 (wg_delta ev) k n).
      * lia.
      * eapply Hlive. by left.
      * unfold proj. simpl. by rewrite decide_True.
      * intros m Hm. unfold proj. simpl.
        by rewrite decide_False by congruence.
Qed.

Lemma main_wg_step (m : main_state) (ev : event) (m' : main_state)
    (tr : list event) :
  main_step m ev m' → main_wg m tr → main_wg m' (tr ++ [ev]).
Proof.
  unfold main_wg, go_args.
  intros Hstep Hinv; inversion Hstep; subst;
    rewrite wg_sum_app, omap_app, length_app, Hinv; simpl; lia.
Qed.

Lemma worker_wg_step (s : Server) (m : worker_state) (ev : event)
    (m' : worker_state) (tr : list event) :
  worker_step s m ev m' → worker_wg m tr → worker_wg m' (tr ++ [ev]).
Proof.
  intros Hstep Hinv; inversion Hstep; subst; simpl in *;
    rewrite ?wg_sum_app, ?Hinv; simpl.
  - by destruct ev.
  - by destruct ev.
  - done.
  - done.
  - done.
  - split; [done|]. apply elem_of_app. right. by left.
Qed.

Section WaitGroup.
Context `{World W}.

Lemma step_wg {R} (p : prog R) (w : W) (i : installer) (s : stepped W R)
    (t : tid) :
  step p w i = Some s →
  wg (st_installer s)
  = (wg i + wg_sum ((tagged t (st_event s)).*2))%Z.
Proof.
  destruct p; simpl; intros Hs; simplify_eq; simpl; unfold wg_sum; simpl;
    lia.
Qed.

Lemma sched_step_wg (i0 : installer) (t : tid) (c : config W) :
  wg (c_installer c) = (wg i0 + wg_sum ((c_events c).*2))%Z →
  wg (c_installer (sched_step t c))
  = (wg i0 + wg_sum ((c_events (sched_step t c)).*2))%Z.
Proof.
  intros Hc. destruct t as [|n]; simpl.
  - destruct (step (c_main c) (c_world c) (c_installer c)) as [s|] eqn:Hs;
      [|done].
    simpl. rewrite fmap_app, wg_sum_app, (step_wg _ _ _ _ Main Hs). lia.
  - destruct (c_pool c !! n) as [p|]; [|done].
    destruct (step p (c_world c) (c_installer c)) as [s|] eqn:Hs; [|done].
    simpl. rewrite fmap_app, wg_sum_app, (step_wg _ _ _ _ (Worker n) Hs).
    lia.
Qed.

Lemma sched_run_wg (main0 : prog (option error)) (w : W) (i : installer)
    (schedule : list tid) :
  let c := sched_run schedule (start main0 w i) in
  wg (c_installer c) = (wg i + wg_sum ((history c).*2))%Z.
Proof.
  intros c.
  assert (Hc : wg (c_installer c) = (wg i + wg_sum ((c_events c).*2))%Z).
  { unfold c, sched_run.
    assert (Hstart : wg (c_installer (start main0 w i))
                     = (wg i + wg_sum ((c_events (start main0 w i)).*2))%Z)
      by (simpl; unfold wg_sum; simpl; lia).
    revert Hstart. generalize (start main0 w i).
    induction schedule as [|t schedule IH]; intros c0 Hc0; [done|].
    simpl. apply IH. by apply sched_step_wg. }
  unfold history. by rewrite fmap_reverse, wg_sum_reverse.
Qed.

(** X14: the wait group under every schedule of [Install] and of the
    goroutines it starts.  The counter never falls below the value it had
    when [Install] began, and it is back at that value only when every
    goroutine started so far has released the wait group. *)
Theorem wait_group_guards_workers (w : W) (i : installer) (fuel : nat)
    (schedule : list tid) :
  let c := sched_run schedule (start (Install fuel) w i) in
  (wg i ≤ wg (c_installer c))%Z ∧
  (wg (c_installer c) = wg i →
   ∀ n, n < length (c_pool c) →
        EvWgAdd (-1) ∈ proj (Worker n) (history c)).
Proof.
  intros c.
  destruct (Install_sched_inv fuel w i schedule)
    as [(gos & Hmain & Hlen & Hpool & Hlive) _].
  fold c in Hmain, Hlen, Hpool, Hlive.
  destruct (follows_runs _ _ _ _ _ _ _ _ (Install_follows fuel) Hmain)
    as (m & Hacc & _ & Hgos).
  pose proof (Forall2_length _ _ _ Hgos) as Hargs.
  pose proof (accepted_invariant main_step main_wg main_wg_step
                _ _ _ [] Hacc eq_refl) as Hm.
  simpl in Hm. unfold main_wg in Hm.
  set (h := history c) in *.
  set (f := λ k, wg_sum (proj (Worker k) h)).
  assert (Hworker : ∀ n, n < length (c_pool c) →
            (-1 ≤ f n)%Z ∧
            (f n = (-1)%Z → EvWgAdd (-1) ∈ proj (Worker n) h)).
  { intros n Hn. pose proof (Install_worker_view fuel w i schedule n) as Hv.
    cbv zeta in Hv. fold c in Hv. fold h in Hv.
    destruct (go_args (proj Main h) !! n) as [arg|] eqn:Harg.
    - destruct Hv as [mw Haccw].
      pose proof (accepted_invariant (worker_step arg) worker_wg
                    (worker_wg_step arg) _ _ _ [] Haccw eq_refl) as Hw.
      simpl in Hw. unfold f.
      destruct mw; simpl in Hw; try (rewrite Hw; split; [lia|lia]).
      destruct Hw as [Hw Hin]. rewrite Hw. split; [lia|done].
    - apply lookup_ge_None in Harg. lia. }
  pose proof (sched_run_wg (Install fuel) w i schedule) as Hwg.
  cbv zeta in Hwg. fold c in Hwg. fold h in Hwg.
  rewrite (wg_sum_by_goroutine h (length (c_pool c))) in Hwg.
  2: { intros k ev Hin. apply (Hlive k ev).
       by apply (proj1 (elem_of_reverse _ _)). }
  fold f in Hwg. rewrite Hm, Hargs, Hlen in Hwg.
  destruct (sumZ_lower f (length (c_pool c))) as [Hlow Heq];
    [intros k Hk; by apply Hworker|].
  assert (Hadd : (0 ≤ match m with MAdded _ _ => 1 | _ => 0 end)%Z)
    by (destruct m; lia).
  split; [lia|]. intros Hback n Hn.
  apply Hworker; [done|]. apply Heq; [lia|done].
Qed.

End WaitGroup.

Lemma wait_group_guards_workers_witness :
  EvWgAdd (-1)
  ∈ proj (Worker 0)
      (history (sched_run (replicate 4 Main ++ replicate 20 (Worker 0))
                  (start (Install 1) (sim.calm [demo.a]) (sim.agent [])))).
Proof.
  apply (proj2 (wait_group_guards_workers (sim.calm [demo.a]) (sim.agent [])
                  1 (replicate 4 Main ++ replicate 20 (Worker 0)))).
  - vm_compute. reflexivity.
  - vm_compute. lia.
Defined.

(* ================================================================== *)
(** * The bind list under every schedule *)

Lemma replicate_snoc {A} (n : nat) (x : A) :
  replicate n x ++ [x] = replicate (S n) x.
Proof. induction n as [|n IH]; simpl; [done|]. by rewrite IH. Qed.

Lemma socks_after_weaken (i0 : installer) (b b' : bool) (j : installer) :
  (b = true → b' = true) → socks_after i0 b' j → socks_after i0 b j.
Proof.
  intros Hb [Hs (n & Hn & Hv)]. split; [done|]. exists n. split; [|done].
  intros Hb'. apply Hn. by apply Hb.
Qed.

Lemma guarded_mono (i0 : installer) :
  ∀ R (p : prog R) (b b' : bool),
    (b = true → b' = true) → guarded i0 b p → guarded i0 b' p.
Proof.
  intros R p.
  induction p as [R r|R|R|R st k IH|R s k IH|R s k IH|R d k IH|R c k IH
                  |R c ref k IH|R c k IH|R c cfg hc name k IH|R c id k IH
                  |R k IH|R v k IH|R d k IH|R arg body IHb k IH];
    intros b b' Hb; cbn [guarded]; try done;
    try (intros Hg a; by eapply IH).
  - intros Hg a. destruct (Hg a). split; [done|]. by eapply IH.
  - by apply IH.
  - intros Hg a. destruct (Hg a). split; [done|]. by eapply IH.
  - intros Hg j Hj. eapply IH; [done|]. apply Hg.
    by eapply socks_after_weaken.
  - by apply IH.
  - intros [Hbody Hk]. split; [done|]. by eapply IH.
Qed.

Lemma guarded_bind (i0 : installer) :
  ∀ A (p : prog A) B (f : A → prog B) (b : bool),
    guarded i0 b p → (∀ a b', guarded i0 b' (f a)) →
    guarded i0 b (bind p f).
Proof.
  intros A p.
  induction p as [R r|R|R|R st k IH|R s k IH|R s k IH|R d k IH|R c k IH
                  |R c ref k IH|R c k IH|R c cfg hc name k IH|R c id k IH
                  |R k IH|R v k IH|R d k IH|R arg body IHb k IH];
    intros B f b Hg Hf; cbn [guarded bind] in *; try done;
    try (intros a; by apply IH).
  - intros a. destruct (Hg a). split; [done|]. by apply IH.
  - by apply IH.
  - intros a. destruct (Hg a). split; [done|]. by apply IH.
  - intros j Hj. apply IH; [by apply Hg|done].
  - destruct Hg. split; [done|]. by apply IH.
  - by apply IH.
  - destruct Hg. split; [done|]. by apply IH.
Qed.

Lemma errorUpdate_guarded (i0 : installer) (b : bool) (s : Server)
    (err : option error) :
  guarded i0 b (errorUpdate s err).
Proof. by destruct err. Qed.

Lemma socks_entries (v0 : list string) (n m : nat) (path : string) :
  path ∈ v0 ++ replicate (S n) docker_sock ↔
  path ∈ v0 ++ replicate (S m) docker_sock.
Proof.
  rewrite !elem_of_app, !elem_of_replicate.
  split; (intros [?|[-> _]]; [by left|right; split; [done|lia]]).
Qed.

Lemma provision_guarded (i0 : installer) (b : bool) (c : APIClient)
    (instance : Server) :
  guarded i0 b (provision c instance).
Proof.
  unfold provision. cbn [guarded].
  intros j [Hs (n & _ & Hv)] [e|].
  { split; [apply Hs|apply errorUpdate_guarded]. }
  split; [apply Hs|]. cbn [guarded].
  intros j1 [Hs1 (n1 & _ & Hv1)]. split.
  { exists n1. by rewrite Hv1, <- app_assoc, replicate_snoc. }
  intros j2 [Hs2 (n2 & Hn2 & Hv2)].
  destruct (toVol_total (volumes j2)) as [vols Hvols]. rewrite Hvols.
  cbn [guarded].
  intros j3 [Hs3 (n3 & Hn3 & Hv3)] r.
  destruct n2 as [|n2]; [specialize (Hn2 eq_refl); lia|].
  destruct n3 as [|n3]; [specialize (Hn3 eq_refl); lia|].
  split.
  - cbn. split; [done|]. split; [apply Hs2|]. split; [by exists n3|].
    split.
    + rewrite Hv3, <- Hvols, Hv2. apply toVol_same_entries.
      intros path. apply socks_entries.
    + apply (toVol_elem _ _ _ Hvols). exists docker_sock.
      split; [|apply docker_sock_contributes].
      rewrite Hv2. apply elem_of_app. right. by left.
  - destruct r as [id|e]; [|apply errorUpdate_guarded].
    cbn [guarded]. intros [e|]; [apply errorUpdate_guarded|done].
Qed.

Lemma poller_guarded (i0 : installer) (b : bool) (fuel : nat)
    (c : APIClient) (instance : Server) (d : time.Duration) :
  guarded i0 b (poller fuel c instance d).
Proof.
  revert d. induction fuel as [|fuel IH]; intros d; [done|].
  cbn [poller guarded]. intros [e|]; [apply errorUpdate_guarded|].
  cbn [guarded]. intros [e|]; [apply IH|apply provision_guarded].
Qed.

Lemma install_guarded (i0 : installer) (b : bool) (fuel : nat)
    (instance : Server) :
  guarded i0 b (install fuel instance).
Proof.
  unfold install. cbn [guarded].
  intros [c|e]; [apply poller_guarded|apply errorUpdate_guarded].
Qed.

Lemma worker_guarded (i0 : installer) (b : bool) (fuel : nat)
    (server : Server) :
  guarded i0 b (worker fuel server).
Proof.
  unfold worker. apply guarded_bind; [apply install_guarded|done].
Qed.

Lemma Install_guarded (i0 : installer) (b : bool) (fuel : nat) :
  guarded i0 b (Install fuel).
Proof.
  unfold Install. cbn [guarded]. intros [servers|e]; [|done].
  induction servers as [|s servers IH]; [done|].
  cbn [Install_range guarded]. intros [e|]; [done|].
  cbn [guarded]. split; [apply worker_guarded|apply IH].
Qed.

Section BindsSchedule.
Context `{World W}.
Variable i0 : installer.

Lemma guarded_step {R} (p : prog R) (w : W) (j : installer)
    (s : stepped W R) (t : tid) (b : bool) :
  step p w j = Some s →
  guarded i0 b p →
  socks_after i0 b j →
  ∃ b', (b = true → b' = true) ∧
        socks_after i0 b' (st_installer s) ∧
        guarded i0 b' (st_prog s) ∧
        Forall (binds_ok i0) ((tagged t (st_event s)).*2) ∧
        Forall (guarded i0 false) (started (st_go s)).
Proof.
  intros Hs Hg Hj.
  destruct p; simpl in Hs; simplify_eq; cbn [guarded] in Hg;
    cbn [stepped_to st_installer st_prog st_event st_go tagged started
         fmap list_fmap snd];
    try (exists b; split; [done|]; split; [done|]; split; [by apply Hg|];
         split; [by repeat constructor|by constructor]).
  - exists b. destruct (Hg (docker_ImagePull w c ref).2) as [Hev Hk].
    split; [done|]. split; [done|]. split; [done|].
    split; [|constructor]. constructor; [exact Hev|constructor].
  - exists b.
    destruct (Hg (docker_ContainerCreate w c cfg hostcfg name).2)
      as [Hev Hk].
    split; [done|]. split; [done|]. split; [done|].
    split; [|constructor]. constructor; [exact Hev|constructor].
  - exists true. destruct Hg as [[n Hv] Hk]. split; [done|].
    split.
    { destruct Hj as [Hset _]. split; [exact Hset|].
      exists (S n). split; [lia|done]. }
    split; [done|]. split; [|constructor].
    constructor; [by exists n|constructor].
  - exists b. destruct Hg as [Hbody Hk]. split; [done|]. split; [done|].
    split; [done|]. split; [by repeat constructor|].
    by repeat constructor.
Qed.

Lemma binds_inv_step (t : tid) (c : config W) :
  binds_inv i0 c → binds_inv i0 (sched_step t c).
Proof.
  intros (b & Hj & Hmain & Hpool & Hev).
  destruct t as [|n]; simpl.
  - destruct (step (c_main c) (c_world c) (c_installer c)) as [s|] eqn:Hs;
      [|by exists b].
    destruct (guarded_step _ _ _ _ Main _ Hs Hmain Hj)
      as (b' & Hb & Hj' & Hg' & Hev' & Hgo').
    exists b'. simpl. split; [done|]. split; [done|].
    split.
    + apply Forall_app. split.
      * eapply Forall_impl; [exact Hpool|].
        intros q. by apply guarded_mono.
      * eapply Forall_impl; [exact Hgo'|].
        intros q. by apply guarded_mono.
    + rewrite fmap_app. by apply Forall_app.
  - destruct (c_pool c !! n) as [p|] eqn:Hp; [|by exists b].
    destruct (step p (c_world c) (c_installer c)) as [s|] eqn:Hs;
      [|by exists b].
    pose proof (Forall_lookup_1 _ _ _ _ Hpool Hp) as Hgp.
    destruct (guarded_step _ _ _ _ (Worker n) _ Hs Hgp Hj)
      as (b' & Hb & Hj' & Hg' & Hev' & Hgo').
    exists b'. simpl. split; [done|].
    split; [by eapply guarded_mono|].
    split.
    + apply Forall_app. split.
      * apply Forall_insert; [|done].
        eapply Forall_impl; [exact Hpool|].
        intros q. by apply guarded_mono.
      * eapply Forall_impl; [exact Hgo'|].
        intros q. by apply guarded_mono.
    + rewrite fmap_app. by apply Forall_app.
Qed.

Lemma binds_inv_run (schedule : list tid) (c : config W) :
  binds_inv i0 c → binds_inv i0 (sched_run schedule c).
Proof.
  revert c. induction schedule as [|t schedule IH]; intros c Hc; [done|].
  simpl. apply IH. by apply binds_inv_step.
Qed.

End BindsSchedule.

Lemma guarded_not_panic (i0 : installer) (b : bool) {R} (p : prog R) :
  guarded i0 b p → p ≠ Panic.
Proof. by intros Hg ->. Qed.

(** X15: the bind list under every schedule of [Install] and of the
    goroutines it starts, which read and write the list without a lock;
    each read and each write of the field is one step of a schedule.
    The settings of the installer stay as they were, and the bind list is
    always the one [Install] was called with, followed by copies of the
    bind of the docker socket.  Every pull asks for the image of the
    installer.  Every container is created under the name "agent" with
    that image and with the binds [Install] was called with followed by at
    least one bind of the docker socket; the volumes it declares are the
    targets [toVol] finds in the binds it passes, the docker socket among
    them.  No goroutine panics. *)
Theorem binds_under_every_schedule `{World W} (w : W) (i : installer)
    (fuel : nat) (schedule : list tid) :
  let c := sched_run schedule (start (Install fuel) w i) in
  same_settings i (c_installer c) ∧
  (∃ n, volumes (c_installer c) = volumes i ++ replicate n docker_sock) ∧
  Forall (binds_ok i) ((history c).*2) ∧
  c_main c ≠ Panic ∧
  Forall (λ p, p ≠ Panic) (c_pool c).
Proof.
  intros c.
  assert (Hinv : binds_inv i c).
  { apply binds_inv_run. exists false. split.
    - split; [apply same_settings_refl|]. exists 0. split; [done|].
      simpl. by rewrite app_nil_r.
    - split; [apply Install_guarded|]. split; constructor. }
  destruct Hinv as (b & [Hs (n & _ & Hv)] & Hmain & Hpool & Hev).
  split; [done|]. split; [by exists n|].
  split; [unfold history; rewrite fmap_reverse; by apply Forall_reverse|].
  split; [by eapply guarded_not_panic|].
  eapply Forall_impl; [exact Hpool|]. intros p. apply guarded_not_panic.
Qed.

(* ================================================================== *)
(** * The wait group when the goroutines have returned *)

Section Returned.

Local Ltac take_step :=
  eexists; split; [by econstructor|]; cbn [follows bind].

Local Abbreviation release :=
  (λ _ : Server * option error, WgAdd (-1) (Ret tt)).

Lemma errorUpdate_ends (s : Server) (e : error) :
  follows (worker_step s) never_spawns released_result (WFailing e)
    (bind (errorUpdate s (Some e)) release).
Proof.
  cbn [errorUpdate bind follows]. intros r. take_step. by take_step.
Qed.

Lemma provision_ends (c : APIClient) (s : Server) :
  follows (worker_step s) never_spawns released_result WBusy
    (bind (provision c s) release).
Proof.
  unfold provision. cbn [bind follows]. intros i [e|].
  { eexists. split; [by apply ws_failure|]. apply errorUpdate_ends. }
  take_step. take_step. intros i1. take_step. intros i2.
  destruct (toVol (volumes i2)); cbn [bind follows]; [|done].
  intros i3 [id|e]; cycle 1.
  { eexists. split; [by apply ws_failure|]. apply errorUpdate_ends. }
  take_step. intros [e|].
  { eexists. split; [by apply ws_failure|]. apply errorUpdate_ends. }
  eexists. split; [apply ws_started|]. cbn [follows bind].
  intros r. eexists. split; [apply ws_booted|]. cbn [follows bind].
  by take_step.
Qed.

Lemma poller_ends (fuel : nat) (c : APIClient) (s : Server)
    (d : time.Duration) :
  follows (worker_step s) never_spawns released_result WBusy
    (bind (poller fuel c s d) release).
Proof.
  revert d. induction fuel as [|fuel IH]; intros d; [done|].
  cbn [poller bind follows]. intros [e|].
  { eexists. split; [by apply ws_failure|]. apply errorUpdate_ends. }
  take_step. intros [e|].
  - take_step. apply IH.
  - take_step. apply provision_ends.
Qed.

Lemma worker_ends (fuel : nat) (s : Server) :
  follows (worker_step s) never_spawns released_result WBusy
    (worker fuel s).
Proof.
  unfold worker, install. cbn [bind follows]. intros [c|e].
  - take_step. apply poller_ends.
  - eexists. split; [by apply ws_failure|]. apply errorUpdate_ends.
Qed.

End Returned.

Lemma sumZ_const (f : nat → Z) (d : Z) (n : nat) :
  (∀ m, m < n → f m = d) → sumZ f n = (Z.of_nat n * d)%Z.
Proof.
  induction n as [|n IH]; intros Hf; simpl; [lia|].
  rewrite IH, Hf by (intros; try apply Hf; lia). lia.
Qed.

(** X16: when [Install] and every goroutine it started have returned, the
    counter of the wait group is back at the value it had when [Install]
    began, under every schedule, whether the bootstraps succeeded or
    failed. *)
Theorem wait_group_released_at_end `{World W} (w : W) (i : installer)
    (fuel : nat) (schedule : list tid) :
  let c := sched_run schedule (start (Install fuel) w i) in
  (∃ r, c_main c = Ret r) →
  Forall (λ p, p = Ret tt) (c_pool c) →
  wg (c_installer c) = wg i.
Proof.
  intros c [r Hret] Hpool_ret.
  destruct (Install_sched_inv fuel w i schedule)
    as [(gos & Hmain & Hlen & Hpool & Hlive) _].
  fold c in Hmain, Hlen, Hpool, Hlive.
  destruct (follows_runs _ _ _ _ _ _ _ _ (Install_follows fuel) Hmain)
    as (m & Hacc & Hfin & Hgos).
  pose proof (Forall2_length _ _ _ Hgos) as Hargs.
  pose proof (accepted_invariant main_step main_wg main_wg_step
                _ _ _ [] Hacc eq_refl) as Hm.
  simpl in Hm. unfold main_wg in Hm.
  rewrite Hret in Hfin. simpl in Hfin.
  assert (Hadd : match m with MAdded _ _ => 1%Z | _ => 0%Z end = 0%Z)
    by (by destruct m).
  set (h := history c) in *.
  set (f := λ k, wg_sum (proj (Worker k) h)).
  assert (Hworker : ∀ n, n < length (c_pool c) → f n = (-1)%Z).
  { intros n Hn.
    assert (is_Some (gos !! n)) as [b Hb]
      by (apply lookup_lt_is_Some; lia).
    assert (is_Some (c_pool c !! n)) as [p Hp]
      by (by apply lookup_lt_is_Some).
    pose proof (Hpool n b p Hb Hp) as Hruns.
    destruct (Forall2_lookup_r _ _ _ _ _ Hgos Hb) as (arg & Harg & Hsp).
    rewrite Hsp in Hruns.
    destruct (follows_runs _ _ _ _ _ _ _ _ (worker_ends fuel arg) Hruns)
      as (mw & Haccw & Hfw & _).
    rewrite (Forall_lookup_1 _ _ _ _ Hpool_ret Hp) in Hfw.
    simpl in Hfw. unfold released_result in Hfw. subst mw.
    pose proof (accepted_invariant (worker_step arg) worker_wg
                  (worker_wg_step arg) _ _ _ [] Haccw eq_refl) as Hw.
    simpl in Hw. by destruct Hw. }
  pose proof (sched_run_wg (Install fuel) w i schedule) as Hwg.
  cbv zeta in Hwg. fold c in Hwg. fold h in Hwg.
  rewrite (wg_sum_by_goroutine h (length (c_pool c))) in Hwg.
  2: { intros k ev Hin. apply (Hlive k ev).
       by apply (proj1 (elem_of_reverse _ _)). }
  fold f in Hwg.
  rewrite Hm, Hargs, Hlen, Hadd, (sumZ_const f (-1)) in Hwg by done.
  lia.
Qed.

Lemma wait_group_released_at_end_witness :
  wg (c_installer
        (sched_run (replicate 4 Main ++ replicate 20 (Worker 0))
           (start (Install 1) (sim.calm [demo.a]) (sim.agent []))))
  = wg (sim.agent []).
Proof.
  apply (wait_group_released_at_end (sim.calm [demo.a]) (sim.agent []) 1
           (replicate 4 Main ++ replicate 20 (Worker 0))).
  - eexists. vm_compute. reflexivity.
  - vm_compute. by repeat constructor.
Defined.
